(** * Outreach tool: rate-limited dispatch worker and tracking-token codec

    A shallow embedding of the queue worker (RateLimiter, sendEmail,
    processEmailJob, processWebhookJob) and of the tracking endpoints of the
    HTTP server (token generation, click redirect, open pixel), followed by
    the properties established about them.

    Conventions of the embedding:
    - an async function body is a state-passing computation over a [World]
      (clock, rate limiter, tables, error log) that returns, throws, or is
      still waiting at the rate-limit gate when the polls granted to the
      model are used up;
    - the deliverer, the lag of timers, the failures of the store and the
      reading of where clauses by the database client are inputs of the
      model;
    - strings are sequences of UTF-16 code units and buffers sequences of
      bytes; base64, UTF-8 and JSON are modelled as Node implements them. *)

From Stdlib Require Import ZArith List Lia Bool String Ascii QArith.
From stdpp Require Import base option gmap.
Import ListNotations.

Local Open Scope Z_scope.

Set Warnings "-register-all".

(* ===================================================================== *)
(** * Part I: the program                                                 *)
(* ===================================================================== *)

(** ** The rate limiter: class RateLimiter of the worker *)

Module Limiter.

(** The three fields of a RateLimiter instance.  JavaScript numbers are
    used here as integers (a counter and millisecond time stamps), far from
    the 2^53 limit, so they are modelled as Z. *)
Record RateLimiter : Type := mkRateLimiter
  { limit : Z; sent : Z; resetTime : Z }.

(** constructor(limit), run when Date.now() reads [now]. *)
Definition new (lim now : Z) : RateLimiter :=
  {| limit := lim; sent := 0; resetTime := now + 60000 |}.

(** The rollover at the head of canSend. *)
Definition rollover (now : Z) (rl : RateLimiter) : RateLimiter :=
  if resetTime rl <=? now
  then {| limit := limit rl; sent := 0; resetTime := now + 60000 |}
  else rl.

(** canSend(), run when Date.now() reads [now]: the answer and the limiter
    afterwards. *)
Definition canSend (now : Z) (rl : RateLimiter) : bool * RateLimiter :=
  let rl1 := rollover now rl in
  if limit rl1 <=? sent rl1 then (false, rl1) else (true, rl1).

(** incrementSent(). *)
Definition incrementSent (rl : RateLimiter) : RateLimiter :=
  {| limit := limit rl; sent := sent rl + 1; resetTime := resetTime rl |}.

(** What one dispatch attempt does to the limiter when the deliverer returns:
    the poll of the gate and, once the gate is open, the increment that
    processEmailJob performs after sendEmail. *)
Definition check_then_increment (now : Z) (rl : RateLimiter)
  : bool * RateLimiter :=
  let (ok, rl1) := canSend now rl in
  (ok, if ok then incrementSent rl1 else rl1).

(** [k] such rounds in a row, all reading the same clock value. *)
Fixpoint rounds (now : Z) (k : nat) (rl : RateLimiter)
  : list bool * RateLimiter :=
  match k with
  | O => ([], rl)
  | S k' =>
      let (ok, rl1) := check_then_increment now rl in
      let (oks, rl2) := rounds now k' rl1 in
      (ok :: oks, rl2)
  end.

(** The operations a client can apply to a limiter, and a run of them. *)
Inductive op : Type :=
| OpCanSend (now : Z)
| OpIncrementSent.

Definition apply_op (o : op) (rl : RateLimiter) : RateLimiter :=
  match o with
  | OpCanSend now => snd (canSend now rl)
  | OpIncrementSent => incrementSent rl
  end.

Definition run (ops : list op) (rl : RateLimiter) : RateLimiter :=
  fold_left (fun r o => apply_op o r) ops rl.

End Limiter.

(** ** Runtime: exceptions, the clock, the store and console.error *)

Module Runtime.
Import Limiter.

(** A thrown JavaScript Error: the two properties the worker reads. *)
Record JsError : Type := mkJsError { message : string; stack : string }.

(** How an awaited call ends.  [StillWaiting] is the state of a job that is
    still polling the rate-limit gate when the poll budget given to the model
    is used up; it is not an exception and no catch clause sees it. *)
Inductive Outcome (A : Type) : Type :=
| Done (a : A)
| Threw (e : JsError)
| StillWaiting.
Arguments Done {A} a.
Arguments Threw {A} e.
Arguments StillWaiting {A}.

(** The event types the worker and the server write and read. *)
Inductive EventType : Type := SENT | FAILED | DELIVERED | BOUNCED.

(** The metadata JSON column of a send event, with the keys the worker
    writes. *)
Record Metadata : Type := mkMetadata
  { md_messageId : option string;
    md_rateLimitCount : option Z;
    md_error : option string;
    md_processingTime : Z }.

(** A row of the sendEvent table. *)
Record SendEvent : Type := mkSendEvent
  { ev_id : Z;
    eventType : EventType;
    leadId : Z;
    campaignLeadId : Z;
    campaignStepId : Z;
    sentAt : Z;
    deliveredAt : option Z;
    openedAt : option Z;
    clickedAt : option Z;
    bouncedAt : option Z;
    errorMessage : option string;
    metadata : Metadata }.

(** The columns of the lead and campaignLead tables that the worker
    writes. *)
Inductive LeadStatus : Type := NEW | CONTACTED | UNQUALIFIED.

Record Lead : Type := mkLead
  { lead_status : LeadStatus; lead_updatedAt : Z }.

Record CampaignLead : Type := mkCampaignLead
  { cl_updatedAt : Z }.

(** Everything the two processes read and write: the clock, the worker's
    single rateLimiter instance, the three tables, the lines written with
    console.error, and [outages], the fate of the coming store calls in
    order: [Some e] makes the next call throw e, [None] (or an exhausted
    script) lets it through. *)
Record World : Type := mkWorld
  { clock : Z;
    limiter : RateLimiter;
    sendEvents : gmap Z SendEvent;
    nextSendEventId : Z;
    leads : gmap Z Lead;
    campaignLeads : gmap Z CampaignLead;
    outages : list (option JsError);
    errlog : list (string * JsError) }.

Definition with_clock (t : Z) (w : World) : World :=
  mkWorld t (limiter w) (sendEvents w) (nextSendEventId w) (leads w)
    (campaignLeads w) (outages w) (errlog w).
Definition with_limiter (rl : RateLimiter) (w : World) : World :=
  mkWorld (clock w) rl (sendEvents w) (nextSendEventId w) (leads w)
    (campaignLeads w) (outages w) (errlog w).
Definition with_sendEvents (t : gmap Z SendEvent) (w : World) : World :=
  mkWorld (clock w) (limiter w) t (nextSendEventId w) (leads w)
    (campaignLeads w) (outages w) (errlog w).
Definition with_nextSendEventId (n : Z) (w : World) : World :=
  mkWorld (clock w) (limiter w) (sendEvents w) n (leads w)
    (campaignLeads w) (outages w) (errlog w).
Definition with_leads (t : gmap Z Lead) (w : World) : World :=
  mkWorld (clock w) (limiter w) (sendEvents w) (nextSendEventId w) t
    (campaignLeads w) (outages w) (errlog w).
Definition with_campaignLeads (t : gmap Z CampaignLead) (w : World) : World :=
  mkWorld (clock w) (limiter w) (sendEvents w) (nextSendEventId w) (leads w)
    t (outages w) (errlog w).
Definition with_outages (o : list (option JsError)) (w : World) : World :=
  mkWorld (clock w) (limiter w) (sendEvents w) (nextSendEventId w) (leads w)
    (campaignLeads w) o (errlog w).
Definition with_errlog (l : list (string * JsError)) (w : World) : World :=
  mkWorld (clock w) (limiter w) (sendEvents w) (nextSendEventId w) (leads w)
    (campaignLeads w) (outages w) l.

(** Computations of an async function body: state passing with exceptions. *)
Definition M (A : Type) : Type := World -> Outcome A * World.

(** return a, throw e, and sequencing: an exception or a pending wait ends
    the sequence. *)
Definition ret {A} (a : A) : M A := fun w => (Done a, w).
Definition throw {A} (e : JsError) : M A := fun w => (Threw e, w).

Definition bind {A B} (m : M A) (k : A -> M B) : M B := fun w =>
  match m w with
  | (Done a, w1) => k a w1
  | (Threw e, w1) => (Threw e, w1)
  | (StillWaiting, w1) => (StillWaiting, w1)
  end.

(** try { m } catch (e) { h e } *)
Definition try_catch {A} (m : M A) (h : JsError -> M A) : M A := fun w =>
  match m w with
  | (Threw e, w1) => h e w1
  | r => r
  end.

(** Date.now() and new Date(). *)
Definition date_now : M Z := fun w => (Done (clock w), w).

(** console.error(label, error); [label] is the constant part of the
    message.  The lines of console.log are not kept. *)
Definition console_error (label : string) (e : JsError) : M unit := fun w =>
  (Done tt, with_errlog (errlog w ++ [(label, e)]) w).

(** The frame around every call of the Prisma client: the call throws when
    the script of outages says so, and otherwise runs against the tables. *)
Definition store_call {A} (body : M A) : M A := fun w =>
  match outages w with
  | Some e :: rest => (Threw e, with_outages rest w)
  | None :: rest => body (with_outages rest w)
  | [] => body w
  end.

(** The error of an update whose row does not exist. *)
Definition record_not_found : JsError :=
  {| message := "Record to update not found.";
     stack := "PrismaClientKnownRequestError: Record to update not found." |}.

(** The columns given to prisma.sendEvent.create; the others start null and
    the id is the next auto-increment value. *)
Definition sendEvent_create (ty : EventType) (lead clead cstep at_ : Z)
    (err : option string) (md : Metadata) : M SendEvent :=
  store_call (fun w =>
    let ev := {| ev_id := nextSendEventId w; eventType := ty; leadId := lead;
                 campaignLeadId := clead; campaignStepId := cstep;
                 sentAt := at_; deliveredAt := None; openedAt := None;
                 clickedAt := None; bouncedAt := None; errorMessage := err;
                 metadata := md |} in
    (Done ev,
     with_nextSendEventId (nextSendEventId w + 1)
       (with_sendEvents (<[nextSendEventId w := ev]> (sendEvents w)) w))).

(** prisma.sendEvent.updateMany({ where, data }): every row selected by
    [sel] is replaced by its image under [upd]; the result is the number of
    rows selected. *)
Definition sendEvent_updateMany (sel : SendEvent -> bool)
    (upd : SendEvent -> SendEvent) : M Z :=
  store_call (fun w =>
    (Done (Z.of_nat (size (filter (fun kv => sel kv.2 = true) (sendEvents w)))),
     with_sendEvents ((fun ev => if sel ev then upd ev else ev) <$> sendEvents w) w)).

(** prisma.campaignLead.update({ where: { id }, data: { updatedAt } }):
    update of a single row, which throws when the row does not exist. *)
Definition campaignLead_update (key at_ : Z) : M unit :=
  store_call (fun w =>
    match campaignLeads w !! key with
    | Some _ =>
        (Done tt,
         with_campaignLeads (<[key := {| cl_updatedAt := at_ |}]> (campaignLeads w)) w)
    | None => (Threw record_not_found, w)
    end).

(** prisma.lead.update({ where: { id }, data: { status, updatedAt } }). *)
Definition lead_update (key : Z) (st : LeadStatus) (at_ : Z) : M unit :=
  store_call (fun w =>
    match leads w !! key with
    | Some _ =>
        (Done tt,
         with_leads (<[key := {| lead_status := st; lead_updatedAt := at_ |}]> (leads w)) w)
    | None => (Threw record_not_found, w)
    end).

(** The next [n] store calls go through. *)
Definition store_up (n : nat) (w : World) : Prop :=
  Forall (fun o => o = None) (take n (outages w)).

(** [settles m]: [m] always returns or throws. *)
Definition settles {A : Type} (m : M A) : Prop :=
  forall w, fst (m w) <> StillWaiting.

(** [keeps f m]: running [m] never changes the component [f] of the world. *)
Definition keeps {T A : Type} (f : World -> T) (m : M A) : Prop :=
  forall w, f (snd (m w)) = f w.

End Runtime.

(** ** The queue worker: sendEmail, processEmailJob, processWebhookJob *)

Module Worker.
Import Limiter Runtime.

Local Notation "x <- m ;; k" := (bind m (fun x => k))
  (at level 100, m at next level, right associativity).
Local Notation "m ;;; k" := (bind m (fun _ => k))
  (at level 100, right associativity).

(** job.data.emailData; a property that is absent reads as undefined. *)
Record EmailData : Type := mkEmailData
  { to : option string; subject : option string; content : option string }.

(** job.data and job.timestamp of a send job. *)
Record SendJob : Type := mkSendJob
  { job_leadId : Z;
    job_campaignLeadId : Z;
    job_campaignStepId : Z;
    job_emailData : option EmailData;
    job_timestamp : Z }.

(** The object a deliverer resolves to. *)
Record SendResult : Type := mkSendResult
  { success : bool;
    messageId : option string;
    timestamp : option Z;
    error : option string }.

(** A deliverer: from the mail and the time of the call, how the call ends
    and how long it took.  It never ends in [StillWaiting]. *)
Definition Deliverer : Type := option EmailData -> Z -> (JsError + SendResult) * Z.

(** What surrounds the worker: the deliverer bound to the name sendEmail, and
    by how much a timer started at a given time overshoots its delay. *)
Record Env : Type := mkEnv
  { sendEmail : Deliverer;
    timer_lag : Z -> Z }.

Definition type_error (what : string) : JsError :=
  {| message := what; stack := String.append "TypeError: " what |}.

(** The placeholder sendEmail of the worker: it reads emailData.to,
    emailData.subject and emailData.content.substring, which throw a
    TypeError on an undefined receiver, waits 500 ms and reports success.
    [msgid t] stands for the generated `msg-<t>-<random>` identifier. *)
Definition sendEmail_placeholder (msgid : Z -> string) : Deliverer :=
  fun emailData now =>
    match emailData with
    | None =>
        (inl (type_error "Cannot read properties of undefined (reading 'to')"), 0)
    | Some d =>
        match content d with
        | None =>
            (inl (type_error
                    "Cannot read properties of undefined (reading 'substring')"), 0)
        | Some _ =>
            (inr {| success := true; messageId := Some (msgid (now + 500));
                    timestamp := Some (now + 500); error := None |}, 500)
        end
    end.

(** await sendEmail(emailData) *)
Definition await_sendEmail (env : Env) (d : option EmailData) : M SendResult :=
  fun w =>
    let (r, ms) := sendEmail env d (clock w) in
    let w1 := with_clock (clock w + ms) w in
    match r with
    | inl e => (Threw e, w1)
    | inr res => (Done res, w1)
    end.

(** await new Promise(resolve => setTimeout(resolve, ms)) *)
Definition sleep (env : Env) (ms : Z) : M unit := fun w =>
  (Done tt, with_clock (clock w + ms + timer_lag env (clock w)) w).

(** await rateLimiter.canSend() *)
Definition await_canSend : M bool := fun w =>
  let (ok, rl) := canSend (clock w) (limiter w) in
  (Done ok, with_limiter rl w).

(** rateLimiter.incrementSent() *)
Definition do_incrementSent : M unit := fun w =>
  (Done tt, with_limiter (incrementSent (limiter w)) w).

(** while (!(await rateLimiter.canSend())) { await sleep(1000) }, with at
    most [polls] calls of canSend. *)
Fixpoint wait_for_gate (polls : nat) (env : Env) : M unit :=
  match polls with
  | O => fun w => (StillWaiting, w)
  | S n =>
      ok <- await_canSend ;;
      if ok then ret tt else sleep env 1000 ;;; wait_for_gate n env
  end.

(** result.error || 'Unknown error' *)
Definition error_or_unknown (e : option string) : string :=
  match e with
  | Some EmptyString | None => "Unknown error"
  | Some s => s
  end.

(** The value processEmailJob resolves to. *)
Record JobResult : Type := mkJobResult
  { jr_success : bool; sendEventId : Z }.

(** The try block of processEmailJob from the creation of the send event
    on: what is done with the object the deliverer resolved to. *)
Definition record_send (job : SendJob) (result : SendResult) : M JobResult :=
  now1 <- date_now ;;
  count <- (fun w => (Done (sent (limiter w)), w)) ;;
  sendEvent <- sendEvent_create
      (if success result then SENT else FAILED)
      (job_leadId job) (job_campaignLeadId job) (job_campaignStepId job)
      (match timestamp result with Some t => t | None => now1 end)
      (if success result then None else Some (error_or_unknown (error result)))
      {| md_messageId := messageId result;
         md_rateLimitCount := Some count;
         md_error := None;
         md_processingTime := now1 - job_timestamp job |} ;;
  (if success result
   then
     now2 <- date_now ;;
     campaignLead_update (job_campaignLeadId job) now2 ;;;
     now3 <- date_now ;;
     lead_update (job_leadId job) CONTACTED now3
   else ret tt) ;;;
  ret {| jr_success := true; sendEventId := ev_id sendEvent |}.

(** The try block of processEmailJob. *)
Definition processEmailJob_try (polls : nat) (env : Env) (job : SendJob)
  : M JobResult :=
  wait_for_gate polls env ;;;
  result <- await_sendEmail env (job_emailData job) ;;
  do_incrementSent ;;;
  record_send job result.

(** The catch block of processEmailJob. *)
Definition processEmailJob_catch (job : SendJob) (error : JsError)
  : M JobResult :=
  console_error "Failed to process email job for lead" error ;;;
  try_catch
    (now1 <- date_now ;;
     sendEvent_create FAILED
       (job_leadId job) (job_campaignLeadId job) (job_campaignStepId job)
       now1 (Some (message error))
       {| md_messageId := None;
          md_rateLimitCount := None;
          md_error := Some (stack error);
          md_processingTime := now1 - job_timestamp job |} ;;;
     ret tt)
    (fun dbError => console_error "Failed to record error in database:" dbError) ;;;
  throw error.

(** processEmailJob(job) *)
Definition processEmailJob (polls : nat) (env : Env) (job : SendJob)
  : M JobResult :=
  try_catch (processEmailJob_try polls env job) (processEmailJob_catch job).

(** job.data of a webhook job.  [wh_reason] is undefined for the events that
    carry no reason; an undefined value in the data of an update leaves the
    column as it is. *)
Record WebhookData : Type := mkWebhookData
  { wh_messageId : string; wh_timestamp : Z; wh_reason : option string }.

Record WebhookJob : Type := mkWebhookJob
  { wh_type : string; wh_data : WebhookData }.

(** where: { metadata: { path: ['messageId'], equals: data.messageId } } *)
Definition messageId_equals (mid : string) (ev : SendEvent) : bool :=
  match md_messageId (metadata ev) with
  | Some m => String.eqb m mid
  | None => false
  end.

Definition set_delivered (t : Z) (ev : SendEvent) : SendEvent :=
  {| ev_id := ev_id ev; eventType := DELIVERED; leadId := leadId ev;
     campaignLeadId := campaignLeadId ev; campaignStepId := campaignStepId ev;
     sentAt := sentAt ev; deliveredAt := Some t; openedAt := openedAt ev;
     clickedAt := clickedAt ev; bouncedAt := bouncedAt ev;
     errorMessage := errorMessage ev; metadata := metadata ev |}.

Definition set_opened (t : Z) (ev : SendEvent) : SendEvent :=
  {| ev_id := ev_id ev; eventType := eventType ev; leadId := leadId ev;
     campaignLeadId := campaignLeadId ev; campaignStepId := campaignStepId ev;
     sentAt := sentAt ev; deliveredAt := deliveredAt ev; openedAt := Some t;
     clickedAt := clickedAt ev; bouncedAt := bouncedAt ev;
     errorMessage := errorMessage ev; metadata := metadata ev |}.

Definition set_clicked (t : Z) (ev : SendEvent) : SendEvent :=
  {| ev_id := ev_id ev; eventType := eventType ev; leadId := leadId ev;
     campaignLeadId := campaignLeadId ev; campaignStepId := campaignStepId ev;
     sentAt := sentAt ev; deliveredAt := deliveredAt ev; openedAt := openedAt ev;
     clickedAt := Some t; bouncedAt := bouncedAt ev;
     errorMessage := errorMessage ev; metadata := metadata ev |}.

Definition set_bounced (t : Z) (reason : option string) (ev : SendEvent)
  : SendEvent :=
  {| ev_id := ev_id ev; eventType := BOUNCED; leadId := leadId ev;
     campaignLeadId := campaignLeadId ev; campaignStepId := campaignStepId ev;
     sentAt := sentAt ev; deliveredAt := deliveredAt ev; openedAt := openedAt ev;
     clickedAt := clickedAt ev; bouncedAt := Some t;
     errorMessage := match reason with Some r => Some r | None => errorMessage ev end;
     metadata := metadata ev |}.

(** The switch of processWebhookJob: the update each known type makes to a
    selected row, and nothing for an unknown type. *)
Definition webhook_update (type : string) (data : WebhookData)
  : option (SendEvent -> SendEvent) :=
  if String.eqb type "email_delivered" then Some (set_delivered (wh_timestamp data))
  else if String.eqb type "email_opened" then Some (set_opened (wh_timestamp data))
  else if String.eqb type "email_clicked" then Some (set_clicked (wh_timestamp data))
  else if String.eqb type "email_bounced"
       then Some (set_bounced (wh_timestamp data) (wh_reason data))
  else None.

(** processWebhookJob(job) *)
Definition processWebhookJob (job : WebhookJob) : M bool :=
  try_catch
    (match webhook_update (wh_type job) (wh_data job) with
     | Some upd =>
         sendEvent_updateMany (messageId_equals (wh_messageId (wh_data job))) upd ;;;
         ret true
     | None => ret true
     end)
    (fun error => console_error "Failed to process webhook" error ;;; throw error).

End Worker.

(** ** JavaScript strings and buffers *)

(** A JavaScript string is a sequence of UTF-16 code units and a Buffer a
    sequence of bytes; both are modelled as lists of integers, code units
    ranging over 0..65535 and bytes over 0..255. *)
Module Text.

Definition is_unit (c : Z) : Prop := 0 <= c < 65536.
Definition is_byte (b : Z) : Prop := 0 <= b < 256.

(** The two halves of a surrogate pair. *)
Definition is_high (c : Z) : bool := (0xD800 <=? c) && (c <=? 0xDBFF).
Definition is_low (c : Z) : bool := (0xDC00 <=? c) && (c <=? 0xDFFF).

(** ASCII text as code units. *)
Fixpoint lit (s : string) : list Z :=
  match s with
  | EmptyString => []
  | String a r => Z.of_nat (nat_of_ascii a) :: lit r
  end.

End Text.

(** ** Buffer.toString('base64') and Buffer.from(string, 'base64') *)

Module Base64.

(** The character of a six-bit value in the standard alphabet. *)
Definition b64char (v : Z) : Z :=
  if v <? 26 then 65 + v
  else if v <? 52 then 97 + (v - 26)
  else if v <? 62 then 48 + (v - 52)
  else if v =? 62 then 43
  else 47.

(** The six-bit value of a character, where it has one.  The decoder also
    reads the URL-safe alphabet: - is 62 and _ is 63. *)
Definition unbase64 (c : Z) : option Z :=
  if (65 <=? c) && (c <=? 90) then Some (c - 65)
  else if (97 <=? c) && (c <=? 122) then Some (c - 97 + 26)
  else if (48 <=? c) && (c <=? 57) then Some (c - 48 + 52)
  else if (c =? 43) || (c =? 45) then Some 62
  else if (c =? 47) || (c =? 95) then Some 63
  else None.

(** buffer.toString('base64'): three bytes make four characters, and the
    last group is padded with =. *)
Fixpoint base64_encode (bs : list Z) : list Z :=
  match bs with
  | [] => []
  | [a] => [b64char (a / 4); b64char (a mod 4 * 16); 61; 61]
  | [a; b] =>
      [b64char (a / 4); b64char (a mod 4 * 16 + b / 16);
       b64char (b mod 16 * 4); 61]
  | a :: b :: c :: r =>
      b64char (a / 4) :: b64char (a mod 4 * 16 + b / 16)
        :: b64char (b mod 16 * 4 + c / 64) :: b64char (c mod 64)
        :: base64_encode r
  end.

(** The six-bit values read from a string.  The decoder casts every code
    unit to an 8-bit character, so a code unit above 255 is read as its low
    byte; characters outside the alphabets are skipped and the first = ends
    the input. *)
Fixpoint sextets (s : list Z) : list Z :=
  match s with
  | [] => []
  | c :: r =>
      if c mod 256 =? 61 then []
      else match unbase64 (c mod 256) with
           | Some v => v :: sextets r
           | None => sextets r
           end
  end.

(** Four six-bit values make three bytes; a final group of three makes two
    bytes, of two makes one, and a single left-over value is dropped. *)
Fixpoint regroup (l : list Z) : list Z :=
  match l with
  | a :: b :: c :: d :: r =>
      (a * 4 + b / 16) :: (b mod 16 * 16 + c / 4) :: (c mod 4 * 64 + d)
        :: regroup r
  | [a; b; c] => [a * 4 + b / 16; b mod 16 * 16 + c / 4]
  | [a; b] => [a * 4 + b / 16]
  | _ => []
  end.

(** Buffer.from(string, 'base64').  It never throws. *)
Definition base64_decode (s : list Z) : list Z := regroup (sextets s).

End Base64.

(** ** Buffer.from(string) and Buffer.toString('utf-8') *)

Module Utf8.
Import Text.

(** The UTF-8 bytes of a code point. *)
Definition encode_code_point (cp : Z) : list Z :=
  if cp <? 0x80 then [cp]
  else if cp <? 0x800 then [0xC0 + cp / 64; 0x80 + cp mod 64]
  else if cp <? 0x10000
  then [0xE0 + cp / 4096; 0x80 + cp / 64 mod 64; 0x80 + cp mod 64]
  else [0xF0 + cp / 262144; 0x80 + cp / 4096 mod 64;
        0x80 + cp / 64 mod 64; 0x80 + cp mod 64].

(** The bytes of U+FFFD. *)
Definition replacement_bytes : list Z := [0xEF; 0xBF; 0xBD].

(** Buffer.from(string): a surrogate pair is one code point of four bytes
    and a surrogate on its own is written as U+FFFD. *)
Fixpoint utf8_encode (s : list Z) : list Z :=
  match s with
  | [] => []
  | c :: r =>
      if is_high c then
        match r with
        | d :: r' =>
            if is_low d
            then encode_code_point
                   (0x10000 + (c - 0xD800) * 1024 + (d - 0xDC00))
                 ++ utf8_encode r'
            else replacement_bytes ++ utf8_encode r
        | [] => replacement_bytes
        end
      else if is_low c then replacement_bytes ++ utf8_encode r
      else encode_code_point c ++ utf8_encode r
  end.

(** A continuation byte. *)
Definition continuation (b : Z) : bool := (0x80 <=? b) && (b <=? 0xBF).

(** The second byte allowed after the lead byte of a three-byte sequence
    (no overlong form, no surrogate). *)
Definition second_of_three (b0 b1 : Z) : bool :=
  if b0 =? 0xE0 then (0xA0 <=? b1) && (b1 <=? 0xBF)
  else if b0 =? 0xED then (0x80 <=? b1) && (b1 <=? 0x9F)
  else continuation b1.

(** The second byte allowed after the lead byte of a four-byte sequence
    (no overlong form, nothing above U+10FFFF). *)
Definition second_of_four (b0 b1 : Z) : bool :=
  if b0 =? 0xF0 then (0x90 <=? b1) && (b1 <=? 0xBF)
  else if b0 =? 0xF4 then (0x80 <=? b1) && (b1 <=? 0x8F)
  else continuation b1.

(** The code units of a code point. *)
Definition code_units (cp : Z) : list Z :=
  if cp <? 0x10000 then [cp]
  else [0xD800 + (cp - 0x10000) / 1024; 0xDC00 + (cp - 0x10000) mod 1024].

(** buffer.toString('utf-8'): every maximal ill-formed part is read as
    U+FFFD.  It never throws. *)
Fixpoint utf8_decode (bs : list Z) : list Z :=
  match bs with
  | [] => []
  | b0 :: r0 =>
      if b0 <? 0x80 then b0 :: utf8_decode r0
      else if (0xC2 <=? b0) && (b0 <=? 0xDF) then
        match r0 with
        | b1 :: r1 =>
            if continuation b1
            then ((b0 - 0xC0) * 64 + (b1 - 0x80)) :: utf8_decode r1
            else 0xFFFD :: utf8_decode r0
        | [] => [0xFFFD]
        end
      else if (0xE0 <=? b0) && (b0 <=? 0xEF) then
        match r0 with
        | b1 :: r1 =>
            if second_of_three b0 b1 then
              match r1 with
              | b2 :: r2 =>
                  if continuation b2
                  then ((b0 - 0xE0) * 4096 + (b1 - 0x80) * 64 + (b2 - 0x80))
                         :: utf8_decode r2
                  else 0xFFFD :: utf8_decode r1
              | [] => [0xFFFD]
              end
            else 0xFFFD :: utf8_decode r0
        | [] => [0xFFFD]
        end
      else if (0xF0 <=? b0) && (b0 <=? 0xF4) then
        match r0 with
        | b1 :: r1 =>
            if second_of_four b0 b1 then
              match r1 with
              | b2 :: r2 =>
                  if continuation b2 then
                    match r2 with
                    | b3 :: r3 =>
                        if continuation b3
                        then code_units
                               ((b0 - 0xF0) * 262144 + (b1 - 0x80) * 4096
                                + (b2 - 0x80) * 64 + (b3 - 0x80))
                             ++ utf8_decode r3
                        else 0xFFFD :: utf8_decode r2
                    | [] => [0xFFFD]
                    end
                  else 0xFFFD :: utf8_decode r1
              | [] => [0xFFFD]
              end
            else 0xFFFD :: utf8_decode r0
        | [] => [0xFFFD]
        end
      else 0xFFFD :: utf8_decode r0
  end.

(** A string whose code units are in range and whose surrogates are all
    paired. *)
Fixpoint well_formed (s : list Z) : bool :=
  match s with
  | [] => true
  | c :: r =>
      if is_high c then
        match r with
        | d :: r' => is_low d && well_formed r'
        | [] => false
        end
      else negb (is_low c) && (0 <=? c) && (c <? 0x10000) && well_formed r
  end.

End Utf8.

(** ** JSON.stringify and JSON.parse *)

Module Json.
Import Text.

(** The values JSON.parse produces.  A number is a double: a finite one is
    kept by its exact value, a rational in lowest terms, and one that is too
    large to be finite is an infinity; the sign of zero is not kept (-0
    reads as 0).  The members of an object are kept in insertion order. *)
Inductive json : Type :=
| JNull
| JBool (b : bool)
| JNum (q : Q)
| JInfinity (negative : bool)
| JStr (s : list Z)
| JArr (items : list json)
| JObj (members : list (list Z * json)).

(** Equality of strings. *)
Fixpoint units_eqb (a b : list Z) : bool :=
  match a, b with
  | [], [] => true
  | x :: a', y :: b' => (x =? y) && units_eqb a' b'
  | _, _ => false
  end.

(** Property lookup and definition on the member list of an object. *)
Fixpoint obj_get (members : list (list Z * json)) (key : list Z) : option json :=
  match members with
  | [] => None
  | (k, v) :: r => if units_eqb k key then Some v else obj_get r key
  end.

Fixpoint obj_set (members : list (list Z * json)) (key : list Z) (v : json)
  : list (list Z * json) :=
  match members with
  | [] => [(key, v)]
  | (k, v0) :: r =>
      if units_eqb k key then (k, v) :: r else (k, v0) :: obj_set r key v
  end.

(** *** JSON.stringify: strings and integers *)

Definition hex_digit (d : Z) : Z := if d <? 10 then 48 + d else 87 + d.

(** The six-character escape of a code unit: backslash, u and four digits. *)
Definition unicode_escape (c : Z) : list Z :=
  [92; 117; hex_digit (c / 4096); hex_digit (c / 256 mod 16);
   hex_digit (c / 16 mod 16); hex_digit (c mod 16)].

(** What QuoteJSONString writes for a code unit that is not the first half
    of a pair. *)
Definition quote_unit (c : Z) : list Z :=
  if c =? 8 then [92; 98]
  else if c =? 9 then [92; 116]
  else if c =? 10 then [92; 110]
  else if c =? 12 then [92; 102]
  else if c =? 13 then [92; 114]
  else if c =? 34 then [92; 34]
  else if c =? 92 then [92; 92]
  else if c <? 32 then unicode_escape c
  else if is_low c then unicode_escape c
  else [c].

(** The text JSON.stringify writes between the quotes of a string: a
    surrogate pair is copied, a surrogate on its own is escaped. *)
Fixpoint quote_body (s : list Z) : list Z :=
  match s with
  | [] => []
  | c :: r =>
      if is_high c then
        match r with
        | d :: r' =>
            if is_low d then c :: d :: quote_body r'
            else unicode_escape c ++ quote_body r
        | [] => unicode_escape c
        end
      else quote_unit c ++ quote_body r
  end.

(** JSON.stringify(string). *)
Definition quote (s : list Z) : list Z := 34 :: quote_body s ++ [34].

(** The decimal digits of a natural number, least significant first. *)
Fixpoint digits_le (fuel : nat) (n : Z) : list Z :=
  match fuel with
  | O => []
  | S f => n mod 10 :: (if n <? 10 then [] else digits_le f (n / 10))
  end.

(** The decimal numeral of a natural number. *)
Definition decimal (n : Z) : list Z :=
  map (fun d => 48 + d) (rev (digits_le (S (Z.to_nat (Z.log2 n))) n)).

(** JSON.stringify(n) for a safe integer n (at most 2^53 - 1 in absolute
    value), of which JavaScript prints every digit. *)
Definition number_to_string (n : Z) : list Z :=
  if n <? 0 then 45 :: decimal (- n) else decimal n.

(** *** JSON.parse *)

Definition is_ws (c : Z) : bool :=
  (c =? 32) || (c =? 9) || (c =? 10) || (c =? 13).

(** The text after leading white space. *)
Fixpoint skip_ws (s : list Z) : list Z :=
  match s with
  | c :: r => if is_ws c then skip_ws r else s
  | [] => []
  end.

(** The value of a hexadecimal digit. *)
Definition hex_value (c : Z) : option Z :=
  if (48 <=? c) && (c <=? 57) then Some (c - 48)
  else if (97 <=? c) && (c <=? 102) then Some (c - 87)
  else if (65 <=? c) && (c <=? 70) then Some (c - 55)
  else None.

(** The code unit written by four hexadecimal digits. *)
Definition hex4 (a b c d : Z) : option Z :=
  match hex_value a, hex_value b, hex_value c, hex_value d with
  | Some x, Some y, Some z, Some w => Some (((x * 16 + y) * 16 + z) * 16 + w)
  | _, _, _, _ => None
  end.

(** The character denoted by the character after a backslash. *)
Definition unescape (e : Z) : option Z :=
  if e =? 34 then Some 34
  else if e =? 92 then Some 92
  else if e =? 47 then Some 47
  else if e =? 98 then Some 8
  else if e =? 102 then Some 12
  else if e =? 110 then Some 10
  else if e =? 114 then Some 13
  else if e =? 116 then Some 9
  else None.

(** One more character in front of the string read from the rest. *)
Definition prepend (c : Z) (r : option (list Z * list Z))
  : option (list Z * list Z) :=
  match r with
  | Some (str, rest) => Some (c :: str, rest)
  | None => None
  end.

(** The characters of a string literal after its opening quote: the string
    denoted and the text after the closing quote. *)
Fixpoint parse_string_body (s : list Z) : option (list Z * list Z) :=
  match s with
  | [] => None
  | c :: r =>
      if c =? 34 then Some ([], r)
      else if c =? 92 then
        match r with
        | [] => None
        | e :: r1 =>
            if e =? 117 then
              match r1 with
              | h1 :: h2 :: h3 :: h4 :: r2 =>
                  match hex4 h1 h2 h3 h4 with
                  | Some u => prepend u (parse_string_body r2)
                  | None => None
                  end
              | _ => None
              end
            else
              match unescape e with
              | Some u => prepend u (parse_string_body r1)
              | None => None
              end
        end
      else if c <? 32 then None
      else prepend c (parse_string_body r)
  end.

(** A decimal digit. *)
Definition is_digit (c : Z) : bool := (48 <=? c) && (c <=? 57).

(** The longest prefix of digits, as digit values, and the text after it. *)
Fixpoint span_digits (s : list Z) : list Z * list Z :=
  match s with
  | c :: r =>
      if is_digit c
      then let (ds, rest) := span_digits r in (c - 48 :: ds, rest)
      else ([], s)
  | [] => ([], [])
  end.

(** The number written by a sequence of digit values. *)
Definition digits_value (ds : list Z) : Z :=
  fold_left (fun a d => a * 10 + d) ds 0.

(** int: a single 0, or a nonzero digit followed by digits. *)
Definition parse_int (s : list Z) : option (list Z * list Z) :=
  match s with
  | c :: r =>
      if c =? 48 then Some ([0], r)
      else if is_digit c then Some (span_digits s)
      else None
  | [] => None
  end.

(** frac: nothing, or a point followed by at least one digit. *)
Definition parse_frac (s : list Z) : option (list Z * list Z) :=
  match s with
  | c :: r =>
      if c =? 46 then
        match span_digits r with
        | ([], _) => None
        | res => Some res
        end
      else Some ([], s)
  | [] => Some ([], [])
  end.

(** An optional minus sign; an optional sign. *)
Definition optional_minus (s : list Z) : bool * list Z :=
  match s with
  | c :: r => if c =? 45 then (true, r) else (false, s)
  | [] => (false, s)
  end.

Definition optional_sign (s : list Z) : bool * list Z :=
  match s with
  | c :: r =>
      if c =? 45 then (true, r)
      else if c =? 43 then (false, r)
      else (false, s)
  | [] => (false, s)
  end.

(** exp: nothing, or e or E, an optional sign and at least one digit. *)
Definition parse_exp (s : list Z) : option (Z * list Z) :=
  match s with
  | c :: r =>
      if (c =? 101) || (c =? 69) then
        let (neg, r1) := optional_sign r in
        match span_digits r1 with
        | ([], _) => None
        | (ds, rest) =>
            Some (if neg : bool then - digits_value ds else digits_value ds, rest)
        end
      else Some (0, s)
  | [] => Some (0, [])
  end.

(** The quotient n / d rounded to the nearest integer, a tie going to the
    even one (for d > 0). *)
Definition div_nearest_even (n d : Z) : Z :=
  let q := n / d in
  let r := n mod d in
  if 2 * r <? d then q
  else if d <? 2 * r then q + 1
  else if Z.even q then q else q + 1.

(** floor (log2 (n / d)), for positive n and d. *)
Definition log2_ratio (n d : Z) : Z :=
  let e := Z.log2 n - Z.log2 d in
  if (if 0 <=? e then d * 2 ^ e <=? n else d <=? n * 2 ^ (- e))
  then e else e - 1.

(** The double nearest to n / d, for positive n and d, ties going to the
    even mantissa: a mantissa of 53 bits at the binary exponent of the
    number, or at the least exponent, -1022, below it (a subnormal, or 0);
    None when the rounded value reaches 2^1024, which is Infinity. *)
Definition nearest_double (n d : Z) : option Q :=
  let e := Z.max (log2_ratio n d) (-1022) in
  let x := e - 52 in
  let m := if 0 <=? x then div_nearest_even n (d * 2 ^ x)
           else div_nearest_even (n * 2 ^ (- x)) d in
  if (1024 <=? e) || ((e =? 1023) && (m =? 2 ^ 53)) then None
  else Some (if 0 <=? x then inject_Z (m * 2 ^ x)
             else Qred (m # Z.to_pos (2 ^ (- x)))).

(** The number read from a sign, a decimal mantissa [m] >= 0 and a decimal
    exponent [e]: the double nearest to m * 10^e. *)
Definition number_value (negative : bool) (m e : Z) : json :=
  if m =? 0 then JNum 0
  else
    match (if 0 <=? e then nearest_double (m * 10 ^ e) 1
           else nearest_double m (10 ^ (- e))) with
    | Some q => JNum (if negative then Qopp q else q)
    | None => JInfinity negative
    end.

(** A JSON number at the head of the text and the text after it. *)
Definition parse_number (s : list Z) : option (json * list Z) :=
  let (neg, s1) := optional_minus s in
  match parse_int s1 with
  | None => None
  | Some (ids, s2) =>
      match parse_frac s2 with
      | None => None
      | Some (fds, s3) =>
          match parse_exp s3 with
          | None => None
          | Some (e, s4) =>
              Some (number_value neg (digits_value (ids ++ fds))
                      (e - Z.of_nat (length fds)), s4)
          end
      end
  end.

(** One of the literal names true, false and null. *)
Definition expect (word : list Z) (v : json) (s : list Z)
  : option (json * list Z) :=
  if units_eqb (firstn (length word) s) word
  then Some (v, skipn (length word) s) else None.

(** A JSON value at the head of the text and the text after it; the rest
    of the members of an object after its opening brace; the rest of the
    elements of an array after its opening bracket.  A later member with the
    same key replaces the value of the earlier one.  Every recursive call
    takes one unit of [fuel] and consumes at least one character. *)
Fixpoint parse_value (fuel : nat) (s : list Z) : option (json * list Z) :=
  match fuel with
  | O => None
  | S f =>
      match skip_ws s with
      | [] => None
      | c :: r =>
          if c =? 34 then
            match parse_string_body r with
            | Some (str, rest) => Some (JStr str, rest)
            | None => None
            end
          else if c =? 123 then
            match skip_ws r with
            | [] => None
            | c1 :: r1 =>
                if c1 =? 125 then Some (JObj [], r1)
                else parse_members f (c1 :: r1) []
            end
          else if c =? 91 then
            match skip_ws r with
            | [] => None
            | c1 :: r1 =>
                if c1 =? 93 then Some (JArr [], r1)
                else parse_elements f (c1 :: r1) []
            end
          else if c =? 116 then expect (lit "true") (JBool true) (c :: r)
          else if c =? 102 then expect (lit "false") (JBool false) (c :: r)
          else if c =? 110 then expect (lit "null") JNull (c :: r)
          else parse_number (c :: r)
      end
  end
with parse_members (fuel : nat) (s : list Z) (acc : list (list Z * json))
  : option (json * list Z) :=
  match fuel with
  | O => None
  | S f =>
      match skip_ws s with
      | [] => None
      | c :: r =>
          if c =? 34 then
            match parse_string_body r with
            | None => None
            | Some (key, r1) =>
                match skip_ws r1 with
                | [] => None
                | c2 :: r2 =>
                    if c2 =? 58 then
                      match parse_value f r2 with
                      | None => None
                      | Some (v, r3) =>
                          match skip_ws r3 with
                          | [] => None
                          | c4 :: r4 =>
                              if c4 =? 44
                              then parse_members f r4 (obj_set acc key v)
                              else if c4 =? 125
                              then Some (JObj (obj_set acc key v), r4)
                              else None
                          end
                      end
                    else None
                end
            end
          else None
      end
  end
with parse_elements (fuel : nat) (s : list Z) (acc : list json)
  : option (json * list Z) :=
  match fuel with
  | O => None
  | S f =>
      match parse_value f s with
      | None => None
      | Some (v, r1) =>
          match skip_ws r1 with
          | [] => None
          | c :: r =>
              if c =? 44 then parse_elements f r (acc ++ [v])
              else if c =? 93 then Some (JArr (acc ++ [v]), r)
              else None
          end
      end
  end.

(** JSON.parse(text): the value, or None where JSON.parse throws a
    SyntaxError. *)
Definition JSON_parse (s : list Z) : option json :=
  match parse_value (S (length s)) s with
  | Some (v, rest) =>
      match skip_ws rest with
      | [] => Some v
      | _ => None
      end
  | None => None
  end.

End Json.

(** ** The HTTP server: tracking tokens, click redirect and open pixel *)

Module Http.
Import Text Base64 Utf8 Json Runtime Worker.

Local Notation "x <- m ;; k" := (bind m (fun x => k))
  (at level 100, m at next level, right associativity).
Local Notation "m ;;; k" := (bind m (fun _ => k))
  (at level 100, right associativity).

(** The object trackingData built by /api/generate-tracking-urls: three
    integers (the results of parseInt) and, when one is given, the original
    URL.  The redirect data of generateRedirectUrl has the same shape. *)
Record TrackingData : Type := mkTrackingData
  { td_leadId : Z;
    td_campaignLeadId : Z;
    td_campaignStepId : Z;
    td_originalUrl : option (list Z) }.

(** JSON.stringify(trackingData): the members in insertion order, without
    white space. *)
Definition JSON_stringify (t : TrackingData) : list Z :=
  [123] ++ quote (lit "leadId") ++ [58] ++ number_to_string (td_leadId t)
  ++ [44] ++ quote (lit "campaignLeadId") ++ [58]
  ++ number_to_string (td_campaignLeadId t)
  ++ [44] ++ quote (lit "campaignStepId") ++ [58]
  ++ number_to_string (td_campaignStepId t)
  ++ match td_originalUrl t with
     | Some u => [44] ++ quote (lit "originalUrl") ++ [58] ++ quote u
     | None => []
     end
  ++ [125].

(** Buffer.from(JSON.stringify(trackingData)).toString('base64') *)
Definition encode_token (t : TrackingData) : list Z :=
  base64_encode (utf8_encode (JSON_stringify t)).

(** JSON.parse(Buffer.from(id, 'base64').toString('utf-8')); None where it
    throws. *)
Definition decode_token (id : list Z) : option json :=
  JSON_parse (utf8_decode (base64_decode id)).

(** The value that JSON.parse returns for the text of a tracking object. *)
Definition object_of (t : TrackingData) : json :=
  JObj ([(lit "leadId", JNum (inject_Z (td_leadId t)));
         (lit "campaignLeadId", JNum (inject_Z (td_campaignLeadId t)));
         (lit "campaignStepId", JNum (inject_Z (td_campaignStepId t)))]
        ++ match td_originalUrl t with
           | Some u => [(lit "originalUrl", JStr u)]
           | None => []
           end).

(** The payloads of the codec: identifiers that are safe integers and a URL
    that is a JavaScript string. *)
Definition valid_payload (t : TrackingData) : Prop :=
  Z.abs (td_leadId t) <= 9007199254740991 /\
  Z.abs (td_campaignLeadId t) <= 9007199254740991 /\
  Z.abs (td_campaignStepId t) <= 9007199254740991 /\
  match td_originalUrl t with
  | Some u => Forall is_unit u
  | None => True
  end.

(** The tokens whose decoding throws: the bytes are not the text of a JSON
    value, or the value is null and cannot be destructured. *)
Definition token_decode_fails (id : list Z) : Prop :=
  decode_token id = None \/ decode_token id = Some JNull.

Definition syntax_error : JsError :=
  {| message := "Unexpected token in JSON";
     stack := "SyntaxError: Unexpected token in JSON" |}.

(** JSON.parse(buffer.toString('utf-8')) as a step of a handler. *)
Definition parse_buffer (bytes : list Z) : M json :=
  match JSON_parse (utf8_decode bytes) with
  | Some v => ret v
  | None => throw syntax_error
  end.

(** value.key for one of the four keys of a tracking object: undefined
    unless [value] is an object with that member. *)
Definition property (v : json) (key : list Z) : option json :=
  match v with
  | JObj members => obj_get members key
  | _ => None
  end.

(** The variables bound by destructuring. *)
Record Fields : Type := mkFields
  { f_leadId : option json;
    f_campaignLeadId : option json;
    f_campaignStepId : option json;
    f_originalUrl : option json }.

(** const { leadId, campaignLeadId, campaignStepId, originalUrl } = value:
    a TypeError when the value is null, and otherwise the four properties. *)
Definition destructure (v : json) : M Fields :=
  match v with
  | JNull =>
      throw (type_error "Cannot destructure property 'leadId' of null")
  | _ =>
      ret {| f_leadId := property v (lit "leadId");
             f_campaignLeadId := property v (lit "campaignLeadId");
             f_campaignStepId := property v (lit "campaignStepId");
             f_originalUrl := property v (lit "originalUrl") |}
  end.

(** How the Prisma client reads the value given for an integer column in a
    where clause: the condition it puts on the column, or None when it
    rejects the query with a validation error. *)
Definition FilterSemantics : Type := option json -> option (Z -> bool).

(** The reading of undefined (no condition on the column) and of an integer
    (equality); every other value is rejected here. *)
Definition prisma_filter : FilterSemantics := fun v =>
  match v with
  | None => Some (fun _ => true)
  | Some (JNum q) =>
      if (Qden q =? 1)%positive then Some (fun x => x =? Qnum q) else None
  | Some _ => None
  end.

Definition validation_error : JsError :=
  {| message := "Invalid value provided";
     stack := "PrismaClientValidationError: Invalid value provided" |}.

Definition is_SENT (ev : SendEvent) : bool :=
  match eventType ev with SENT => true | _ => false end.

(** prisma.sendEvent.updateMany({ where: { leadId, campaignLeadId,
    campaignStepId, eventType: 'SENT' }, data }) *)
Definition update_sent_events (sem : FilterSemantics) (f : Fields)
    (upd : SendEvent -> SendEvent) : M Z :=
  match sem (f_leadId f), sem (f_campaignLeadId f), sem (f_campaignStepId f) with
  | Some on_lead, Some on_campaignLead, Some on_step =>
      sendEvent_updateMany
        (fun ev => on_lead (leadId ev) && on_campaignLead (campaignLeadId ev)
                   && on_step (campaignStepId ev) && is_SENT ev)
        upd
  | _, _, _ => throw validation_error
  end.

(** if (value), on a value read from JSON. *)
Definition truthy (v : json) : bool :=
  match v with
  | JNull => false
  | JBool b => b
  | JNum q => negb (Qnum q =? 0)
  | JStr [] => false
  | _ => true
  end.

(** What a handler answers. *)
Inductive HeaderValue : Type :=
| HString (s : string)
| HNumber (n : Z).

Inductive Response : Type :=
| Redirect (location : json)
| SendText (status : Z) (body : string)
| SendBuffer (headers : list (string * HeaderValue)) (body : list Z).

(** req.get('Referrer') || '/' *)
Definition referrer_or_root (referer : option (list Z)) : list Z :=
  match referer with
  | Some (c :: r) => c :: r
  | _ => lit "/"
  end.

(** res.redirect(target), as Express 4 answers it: status 302 and a
    Location header.  res.location reads the string back as the Referer
    (or Referrer) header of the request, or as / when the request has none,
    and every other target as itself.  [Redirect] carries that address; the
    header holds it as encodeUrl writes it, with the characters that cannot
    stand in a URL percent-encoded. *)
Definition res_redirect (referer : option (list Z)) (target : json)
  : Response :=
  match target with
  | JStr s =>
      if units_eqb s (lit "back")
      then Redirect (JStr (referrer_or_root referer))
      else Redirect target
  | _ => Redirect target
  end.

(** The try block of GET /r/:id.  [url] is req.query.url, absent or a
    string, and [referer] the Referer header of the request. *)
Definition redirect_try (sem : FilterSemantics) (id : list Z)
    (url referer : option (list Z)) : M Response :=
  redirectData <- parse_buffer (base64_decode id) ;;
  f <- destructure redirectData ;;
  now <- date_now ;;
  update_sent_events sem f (set_clicked now) ;;;
  match
    match url with
    | Some (c :: u) => Some (JStr (c :: u))
    | _ => f_originalUrl f
    end
  with
  | Some targetUrl =>
      if truthy targetUrl then ret (res_redirect referer targetUrl)
      else ret (SendText 400 "Invalid redirect URL")
  | None => ret (SendText 400 "Invalid redirect URL")
  end.

(** GET /r/:id *)
Definition redirect_handler (sem : FilterSemantics) (id : list Z)
    (url referer : option (list Z)) : M Response :=
  try_catch (redirect_try sem id url referer)
    (fun error =>
       console_error "Redirect tracking error:" error ;;;
       match url with
       | Some (c :: u) => ret (res_redirect referer (JStr (c :: u)))
       | _ => ret (SendText 400 "Invalid redirect")
       end).

(** req.query.id: absent, a string, or an array or object made by the query
    parser, given with what Buffer.from makes of it (bytes, or a
    TypeError). *)
Inductive QueryValue : Type :=
| QAbsent
| QString (s : list Z)
| QStructured (buffer : option (list Z)).

(** The body of if (id) { ... } in GET /o.png, from the decoded buffer on. *)
Definition record_open (sem : FilterSemantics) (bytes : list Z) : M unit :=
  trackingData <- parse_buffer bytes ;;
  f <- destructure trackingData ;;
  now <- date_now ;;
  update_sent_events sem f (set_opened now) ;;;
  ret tt.

(** The try block of GET /o.png. *)
Definition pixel_try (sem : FilterSemantics) (id : QueryValue) : M unit :=
  match id with
  | QAbsent => ret tt
  | QString [] => ret tt
  | QString s => record_open sem (base64_decode s)
  | QStructured None =>
      throw (type_error "The first argument must be of type string")
  | QStructured (Some bytes) => record_open sem bytes
  end.

Definition pixel_base64 : list Z :=
  lit "iVBORw0KGgoAAAANSUhEUgAAAAEAAAABCAYAAAAfFcSJAAAADUlEQVR42mP8/5+hHgAHggJ/PchI7wAAAABJRU5ErkJggg==".

Definition pixel : list Z := base64_decode pixel_base64.

Definition pixel_response : Response :=
  SendBuffer
    [("Content-Type"%string, HString "image/png");
     ("Content-Length"%string, HNumber (Z.of_nat (length pixel)));
     ("Cache-Control"%string, HString "no-cache, no-store, must-revalidate");
     ("Pragma"%string, HString "no-cache");
     ("Expires"%string, HString "0")]
    pixel.

(** GET /o.png *)
Definition pixel_handler (sem : FilterSemantics) (id : QueryValue)
  : M Response :=
  try_catch (pixel_try sem id)
    (fun error => console_error "Open tracking error:" error) ;;;
  ret pixel_response.

End Http.

(** ** Sample jobs and worlds *)

Module Samples.
Import Text Json Limiter Runtime Worker Http.

Definition err_smtp : JsError :=
  {| message := "SMTP connection refused";
     stack := "Error: SMTP connection refused" |}.

Definition err_db : JsError :=
  {| message := "Can't reach database server";
     stack := "PrismaClientInitializationError: Can't reach database server" |}.

(** A transport that is down, and the placeholder of the worker. *)
Definition env_down : Env :=
  {| sendEmail := fun _ _ => (inl err_smtp, 20); timer_lag := fun _ => 0 |}.

(** A transport that accepts every mail and answers with message id m1. *)
Definition result_m1 : SendResult :=
  {| success := true; messageId := Some "m1"%string; timestamp := None;
     error := None |}.

Definition env_up : Env :=
  {| sendEmail := fun _ _ => (inr result_m1, 500); timer_lag := fun _ => 0 |}.

Definition env_placeholder : Env :=
  {| sendEmail := sendEmail_placeholder (fun _ => "msg-1"%string);
     timer_lag := fun _ => 0 |}.

Definition job1 : SendJob :=
  {| job_leadId := 7; job_campaignLeadId := 3; job_campaignStepId := 1;
     job_emailData :=
       Some {| to := Some "john.doe@example.com"%string;
               subject := Some "Quick question"%string;
               content := Some "Hi John"%string |};
     job_timestamp := 40 |}.

(** A worker started at time 100 with a budget of 2 per minute, one lead
    enrolled in one campaign, and no send event yet. *)
Definition world1 : World :=
  {| clock := 100;
     limiter := new 2 100;
     sendEvents := ∅;
     nextSendEventId := 1;
     leads := {[ 7 := {| lead_status := NEW; lead_updatedAt := 0 |} ]};
     campaignLeads := {[ 3 := {| cl_updatedAt := 0 |} ]};
     outages := [];
     errlog := [] |}.

(** The same worker one second later with its budget used up: the gate
    opens again at time 60100. *)
Definition world1_exhausted : World :=
  with_clock 1100
    (with_limiter {| limit := 2; sent := 2; resetTime := 60100 |} world1).

(** The same world when the third store call to come will fail. *)
Definition world1_flaky : World :=
  with_outages [None; None; Some err_db] world1.

(** A send event as the worker creates it for a delivered message m1. *)
Definition event_m1 : SendEvent :=
  {| ev_id := 1; eventType := SENT; leadId := 7; campaignLeadId := 3;
     campaignStepId := 1; sentAt := 600; deliveredAt := None;
     openedAt := None; clickedAt := None; bouncedAt := None;
     errorMessage := None;
     metadata := {| md_messageId := Some "m1"%string;
                    md_rateLimitCount := Some 1; md_error := None;
                    md_processingTime := 560 |} |}.

Definition world_m1 : World :=
  with_sendEvents {[ 1 := event_m1 ]} (with_nextSendEventId 2 world1).

Definition webhook_opened_m1 : WebhookJob :=
  {| wh_type := "email_opened";
     wh_data := {| wh_messageId := "m1"; wh_timestamp := 9000;
                   wh_reason := None |} |}.

(** Two tracking objects: the smallest kind, and one whose URL has a
    quote, a non-ASCII letter, an emoji (a surrogate pair) and a surrogate
    on its own. *)
Definition payload_123 : TrackingData :=
  {| td_leadId := 1; td_campaignLeadId := 2; td_campaignStepId := 3;
     td_originalUrl := None |}.

Definition payload_url : TrackingData :=
  {| td_leadId := 7; td_campaignLeadId := 3; td_campaignStepId := 1;
     td_originalUrl :=
       Some (lit "https://example.com/?q=" ++ [34; 0xE9; 0xD83D; 0xDE00; 0xD83D]) |}.

(** The tokens of the texts {} and null, and a string that is no token. *)
Definition token_empty_object : list Z := lit "e30=".
Definition token_null : list Z := lit "bnVsbA==".
Definition token_garbage : list Z := lit "not-a-token".

End Samples.

(** ** Runs of the limiter and of the store *)

Module Runs.
Import Limiter Runtime.

(** Rounds of canSend followed (when it answered true) by incrementSent, one
    at each of the given instants. *)
Fixpoint rounds_at (times : list Z) (rl : RateLimiter)
  : list bool * RateLimiter :=
  match times with
  | [] => ([], rl)
  | t :: ts =>
      let (ok, rl1) := check_then_increment t rl in
      let (oks, rl2) := rounds_at ts rl1 in
      (ok :: oks, rl2)
  end.

(** [appends m]: whatever [m] does, the rows of the sendEvent table whose id
    is below the next id to be given out are left as they are, and the next
    id does not decrease. *)
Definition appends {A : Type} (m : M A) : Prop :=
  forall w,
    nextSendEventId w <= nextSendEventId (snd (m w)) /\
    forall k, k < nextSendEventId w ->
              sendEvents (snd (m w)) !! k = sendEvents w !! k.

End Runs.

(** ** The HTTP server: parseInt, the unsubscribe id and the generated URLs *)

Module Server.
Import Text Base64 Utf8 Json Http.

(** White space and line terminators, which parseInt skips at the start of
    its argument. *)
Definition is_js_space (c : Z) : bool :=
  (c =? 9) || (c =? 10) || (c =? 11) || (c =? 12) || (c =? 13) || (c =? 32)
  || (c =? 0xA0) || (c =? 0x1680) || ((0x2000 <=? c) && (c <=? 0x200A))
  || (c =? 0x2028) || (c =? 0x2029) || (c =? 0x202F) || (c =? 0x205F)
  || (c =? 0x3000) || (c =? 0xFEFF).

Fixpoint trim_start (s : list Z) : list Z :=
  match s with
  | c :: r => if is_js_space c then trim_start r else s
  | [] => []
  end.

(** The longest prefix of hexadecimal digits, as digit values. *)
Fixpoint span_hex (s : list Z) : list Z :=
  match s with
  | c :: r =>
      match hex_value c with
      | Some d => d :: span_hex r
      | None => []
      end
  | [] => []
  end.

(** The text after a 0x or 0X prefix, where there is one. *)
Definition hex_prefix (s : list Z) : option (list Z) :=
  match s with
  | c0 :: c1 :: r =>
      if (c0 =? 48) && ((c1 =? 120) || (c1 =? 88)) then Some r else None
  | _ => None
  end.

(** parseInt(string) with no radix: white space is skipped, then a sign,
    then a 0x prefix selects radix 16, and the longest prefix of digits is
    read; None is NaN.  The result is the integer written: JavaScript
    returns the double nearest to it, which is that integer as long as it
    is at most 2^53 in absolute value. *)
Definition parseInt (s : list Z) : option Z :=
  let (neg, s1) := optional_sign (trim_start s) in
  let ds :=
    match hex_prefix s1 with
    | Some r => (16, span_hex r)
    | None => (10, fst (span_digits s1))
    end in
  match snd ds with
  | [] => None
  | _ =>
      let n := fold_left (fun a d => a * fst ds + d) (snd ds) 0 in
      Some (if neg : bool then - n else n)
  end.

(** JSON.stringify of a number that may be NaN. *)
Definition number_or_null (n : option Z) : list Z :=
  match n with
  | Some z => number_to_string z
  | None => lit "null"
  end.

(** JSON.stringify(trackingData), for the object with the results of the
    three parseInt calls and, when it is not empty, the originalUrl
    parameter. *)
Definition stringify_trackingData (l c s : option Z) (u : option (list Z))
  : list Z :=
  [123] ++ quote (lit "leadId") ++ [58] ++ number_or_null l
  ++ [44] ++ quote (lit "campaignLeadId") ++ [58] ++ number_or_null c
  ++ [44] ++ quote (lit "campaignStepId") ++ [58] ++ number_or_null s
  ++ match u with
     | Some u => [44] ++ quote (lit "originalUrl") ++ [58] ++ quote u
     | None => []
     end
  ++ [125].

(** Buffer.from(JSON.stringify({ leadId: n })).toString('base64'), the last
    segment of the unsubscribe URL. *)
Definition unsubscribe_token (n : option Z) : list Z :=
  base64_encode
    (utf8_encode ([123] ++ quote (lit "leadId") ++ [58] ++ number_or_null n
                  ++ [125])).

(** What a request to /api/generate-tracking-urls carries: the query
    parameters that are strings, the x-forwarded-proto header and whether
    the connection is encrypted. *)
Record GenerateRequest : Type := mkGenerateRequest
  { q_leadId : option (list Z);
    q_campaignLeadId : option (list Z);
    q_campaignStepId : option (list Z);
    q_originalUrl : option (list Z);
    forwarded_proto : option (list Z);
    encrypted : bool }.

(** value || fallback on an optional string: the empty string is falsy. *)
Definition nonempty (v : option (list Z)) : option (list Z) :=
  match v with
  | Some (c :: r) => Some (c :: r)
  | _ => None
  end.

(** string.startsWith(prefix) *)
Fixpoint startsWith (s prefix : list Z) : bool :=
  match prefix, s with
  | [], _ => true
  | p :: ps, c :: r => (c =? p) && startsWith r ps
  | _ :: _, [] => false
  end.

(** The body of the answer, as res.json writes it: the member
    generateRedirectUrl is a function and is left out of the JSON text. *)
Inductive GenerateResponse : Type :=
| MissingParameters
| TrackingUrls (pixelUrl unsubscribeUrl : list Z).

(** GET /api/generate-tracking-urls, with the value of TRACKING_DOMAIN. *)
Definition generate_tracking_urls (TRACKING_DOMAIN : list Z)
    (req : GenerateRequest) : GenerateResponse :=
  match nonempty (q_leadId req), nonempty (q_campaignLeadId req),
        nonempty (q_campaignStepId req) with
  | Some leadId, Some campaignLeadId, Some campaignStepId =>
      let encodedData :=
        base64_encode
          (utf8_encode
             (stringify_trackingData (parseInt leadId) (parseInt campaignLeadId)
                (parseInt campaignStepId) (nonempty (q_originalUrl req)))) in
      let protocol :=
        match nonempty (forwarded_proto req) with
        | Some p => p
        | None => if encrypted req then lit "https" else lit "http"
        end in
      let trackingDomain :=
        if startsWith TRACKING_DOMAIN (lit "http") then TRACKING_DOMAIN
        else protocol ++ lit "://" ++ TRACKING_DOMAIN in
      TrackingUrls
        (trackingDomain ++ lit "/o.png?id=" ++ encodedData)
        (trackingDomain ++ lit "/unsubscribe/"
           ++ unsubscribe_token (parseInt leadId))
  | _, _, _ => MissingParameters
  end.

(** The rows that the where clause of a tracking object selects: the SENT
    events of its lead, campaign lead and campaign step. *)
Definition tracked_by (t : TrackingData) (ev : Runtime.SendEvent) : bool :=
  (Runtime.leadId ev =? td_leadId t)
  && (Runtime.campaignLeadId ev =? td_campaignLeadId t)
  && (Runtime.campaignStepId ev =? td_campaignStepId t)
  && is_SENT ev.

(** The identifier that GET /unsubscribe/:leadId works with. *)
Inductive LeadIdValue : Type :=
| FromToken (leadId : option json)
| FromParseInt (n : option Z).

(** The inner try/catch of GET /unsubscribe/:leadId: decoded.leadId when the
    parameter decodes to a value that has properties, and parseInt of the
    parameter when decoding or the property access throws. *)
Definition unsubscribe_lead_id (leadId : list Z) : LeadIdValue :=
  match decode_token leadId with
  | None | Some JNull => FromParseInt (parseInt leadId)
  | Some decoded => FromToken (property decoded (lit "leadId"))
  end.

End Server.

(** ** More sample data *)

Module MoreSamples.
Import Text Json Limiter Runtime Worker Http Server Samples.

(** A transport that answers but reports a failure without a reason. *)
Definition result_rejected : SendResult :=
  {| success := false; messageId := None; timestamp := None;
     error := None |}.

Definition env_rejecting : Env :=
  {| sendEmail := fun _ _ => (inr result_rejected, 500);
     timer_lag := fun _ => 0 |}.

(** The world of [world_m1] after the delivery webhook for m1. *)
Definition webhook_delivered_m1 : WebhookJob :=
  {| wh_type := "email_delivered";
     wh_data := {| wh_messageId := "m1"; wh_timestamp := 7000;
                   wh_reason := None |} |}.

Definition webhook_complained_m1 : WebhookJob :=
  {| wh_type := "email_complained";
     wh_data := {| wh_messageId := "m1"; wh_timestamp := 7000;
                   wh_reason := None |} |}.

(** The tracking object of the event of [world_m1], with a destination. *)
Definition payload_m1 : TrackingData :=
  {| td_leadId := 7; td_campaignLeadId := 3; td_campaignStepId := 1;
     td_originalUrl := Some (lit "https://example.com/pricing") |}.

(** A request for the URLs of that event, behind a TLS proxy. *)
Definition request_m1 : GenerateRequest :=
  {| q_leadId := Some (lit "7"); q_campaignLeadId := Some (lit "3");
     q_campaignStepId := Some (lit "1");
     q_originalUrl := Some (lit "https://example.com/pricing");
     forwarded_proto := Some (lit "https"); encrypted := false |}.

End MoreSamples.

(* ===================================================================== *)
(** * Part II: properties                                                 *)
(* ===================================================================== *)

Import Limiter Runtime Worker.

(** Symbolic execution of a computation in [M]. *)
Ltac run_M :=
  repeat (unfold bind, try_catch, ret, throw, console_error, date_now,
            sendEvent_create, sendEvent_updateMany, campaignLead_update,
            lead_update, store_call, do_incrementSent;
          cbn [clock limiter sendEvents nextSendEventId leads campaignLeads
                 outages errlog with_clock with_limiter with_sendEvents
                 with_nextSendEventId with_leads with_campaignLeads
                 with_outages with_errlog fst snd]).

Section LimiterFacts.
Import Limiter.

Lemma canSend_within_window now rl :
  now < resetTime rl ->
  canSend now rl = (negb (limit rl <=? sent rl), rl).
Proof.
  intros Hnow. unfold canSend, rollover.
  destruct (Z.leb_spec (resetTime rl) now) as [Hle|_]; [lia|].
  now destruct (limit rl <=? sent rl).
Qed.

Lemma rounds_fresh_window now k : forall rl,
  now < resetTime rl -> 0 <= sent rl <= limit rl ->
  rounds now k rl =
    (repeat true (Nat.min k (Z.to_nat (limit rl - sent rl)))
       ++ repeat false (k - Z.to_nat (limit rl - sent rl)),
     {| limit := limit rl;
        sent := Z.min (limit rl) (sent rl + Z.of_nat k);
        resetTime := resetTime rl |}).
Proof.
  induction k as [|k IH]; intros rl Hnow Hs.
  - simpl. destruct rl as [l s r]; simpl in *. f_equal. f_equal. lia.
  - cbn [rounds]. unfold check_then_increment.
    rewrite canSend_within_window by assumption.
    destruct (Z.leb_spec (limit rl) (sent rl)) as [Hfull|Hfree]; cbn [negb].
    + rewrite IH by assumption.
      replace (Z.to_nat (limit rl - sent rl)) with O by lia.
      rewrite !Nat.min_0_r, !Nat.sub_0_r. cbn [repeat app].
      do 2 f_equal. lia.
    + rewrite IH by (cbn; lia). cbn [limit sent resetTime incrementSent].
      replace (Z.to_nat (limit rl - sent rl))
        with (S (Z.to_nat (limit rl - (sent rl + 1)))) by lia.
      cbn [Nat.min Nat.sub repeat app]. do 2 f_equal. lia.
Qed.

Lemma canSend_snd now rl : snd (canSend now rl) = rollover now rl.
Proof. unfold canSend. now destruct (_ <=? _). Qed.

Lemma run_zero_capacity ops : forall rl,
  limit rl = 0 -> 0 <= sent rl ->
  limit (run ops rl) = 0 /\ 0 <= sent (run ops rl).
Proof.
  induction ops as [|o ops IH]; intros rl Hl Hs; [now split|].
  cbn [run fold_left].
  apply IH; destruct o as [now|]; cbn [apply_op];
    rewrite ?canSend_snd; unfold rollover, incrementSent;
    try destruct (resetTime rl <=? now); cbn [limit sent]; lia.
Qed.

(** C1 (as amended).  canSend only checks: inside a window it returns the
    limiter exactly as it found it, so on a fresh limiter it keeps answering
    true.  The count moves in the separate incrementSent step.  For a capacity
    N >= 1 and a clock that stays inside the fresh window, of [k] rounds of
    canSend followed (when it answered true) by incrementSent exactly the
    first N answer true, the count ends at min N k, and from then on canSend
    answers false and leaves the limiter untouched. *)
Theorem C1_budget_exact_with_separate_increment (N t0 now : Z) (k : nat) :
  1 <= N -> now < t0 + 60000 ->
  let fresh := new N t0 in
  let after := snd (rounds now k fresh) in
  canSend now fresh = (true, fresh) /\
  fst (rounds now k fresh) =
    repeat true (Nat.min k (Z.to_nat N)) ++ repeat false (k - Z.to_nat N) /\
  after = {| limit := N; sent := Z.min N (Z.of_nat k);
             resetTime := t0 + 60000 |} /\
  ((Z.to_nat N <= k)%nat -> canSend now after = (false, after)).
Proof.
  intros HN Hnow fresh after.
  assert (Hr : rounds now k fresh =
            (repeat true (Nat.min k (Z.to_nat N))
               ++ repeat false (k - Z.to_nat N),
             {| limit := N; sent := Z.min N (Z.of_nat k);
                resetTime := t0 + 60000 |})).
  { unfold fresh. rewrite rounds_fresh_window by (cbn; lia).
    cbn [new limit sent resetTime]. now rewrite Z.sub_0_r, Z.add_0_l. }
  repeat split.
  - unfold fresh. rewrite canSend_within_window by (cbn; lia).
    cbn [new limit sent]. destruct (Z.leb_spec N 0); [lia|reflexivity].
  - now rewrite Hr.
  - unfold after. now rewrite Hr.
  - intros Hk. unfold after. rewrite Hr. cbn [snd].
    rewrite canSend_within_window by (cbn; lia). cbn [limit sent].
    destruct (Z.leb_spec N (Z.min N (Z.of_nat k))); [reflexivity|lia].
Qed.

(** C1 at capacity 2: of four rounds at time 5 the first two answer true. *)
Lemma C1_budget_exact_witness :
  canSend 5 (new 2 0) = (true, new 2 0) /\
  fst (rounds 5 4 (new 2 0)) = [true; true; false; false].
Proof.
  pose proof (C1_budget_exact_with_separate_increment 2 0 5 4
                ltac:(lia) ltac:(lia)) as (H1 & H2 & _).
  split; [exact H1|exact H2].
Defined.

(** C1 (counterexample).  With capacity 1, two consecutive canSend calls at
    the same instant both answer true and the count is still 0: a true answer
    does not consume budget. *)
Lemma C1_canSend_alone_never_counts :
  let rl0 := new 1 0 in
  fst (canSend 0 rl0) = true /\
  fst (canSend 0 (snd (canSend 0 rl0))) = true /\
  sent (snd (canSend 0 (snd (canSend 0 rl0)))) = 0.
Proof. repeat split. Qed.

(** C7.  Once the window has elapsed (now >= resetTime, that is
    now >= windowStart + 60000), the next canSend leaves the limiter with
    count 0 and a window starting now, whatever the old count and however
    long ago the old window ended, and with capacity >= 1 it answers true. *)
Theorem C7_elapsed_window_resets (now : Z) (rl : RateLimiter) :
  resetTime rl <= now -> 1 <= limit rl ->
  canSend now rl =
    (true, {| limit := limit rl; sent := 0; resetTime := now + 60000 |}).
Proof.
  intros Hnow Hl. unfold canSend, rollover.
  destruct (Z.leb_spec (resetTime rl) now); [|lia]. cbn [limit sent].
  destruct (Z.leb_spec (limit rl) 0); [lia|reflexivity].
Qed.

(** C7 on an exhausted limiter whose window ended seven windows ago. *)
Lemma C7_elapsed_window_witness :
  canSend 500000 {| limit := 2; sent := 2; resetTime := 60000 |} =
    (true, {| limit := 2; sent := 0; resetTime := 560000 |}).
Proof.
  apply (C7_elapsed_window_resets 500000
           {| limit := 2; sent := 2; resetTime := 60000 |}); cbn; lia.
Defined.

(** C8.  A limiter constructed with capacity 0 answers false to every
    canSend, at every time and after any history of canSend and
    incrementSent calls. *)
Theorem C8_zero_capacity_always_refuses (t0 now : Z) (ops : list op) :
  fst (canSend now (run ops (new 0 t0))) = false.
Proof.
  destruct (run_zero_capacity ops (new 0 t0)) as [Hl Hs]; [reflexivity|cbn; lia|].
  unfold canSend, rollover.
  destruct (resetTime _ <=? now); cbn [limit sent].
  - now rewrite Hl.
  - rewrite Hl. destruct (Z.leb_spec 0 (sent (run ops (new 0 t0)))); [reflexivity|lia].
Qed.

End LimiterFacts.

Section WorkerFacts.
Import Limiter Runtime Worker Samples.

Lemma rollover_within_window now rl :
  now < resetTime rl -> rollover now rl = rl.
Proof.
  intros H. unfold rollover. destruct (Z.leb_spec (resetTime rl) now); [lia|reflexivity].
Qed.

(** The gate loop ends: with a capacity of at least 1, timers that do not
    fire early and a window that ends within [1000 * (polls - 1)] ms, some
    poll finds the gate open.  The world then differs from the initial one
    by the clock and by the rollover the successful poll may have made. *)
Lemma wait_for_gate_opens env : forall polls w,
  (forall t, 0 <= timer_lag env t) ->
  1 <= limit (limiter w) ->
  (1 <= polls)%nat ->
  resetTime (limiter w) <= clock w + 1000 * (Z.of_nat polls - 1) ->
  exists t, clock w <= t /\
    (fst (canSend (clock w) (limiter w)) = true -> t = clock w) /\
    wait_for_gate polls env w =
      (Done tt, with_clock t (with_limiter (rollover t (limiter w)) w)).
Proof.
  induction polls as [|n IH]; intros w Hlag Hlim Hp Hreset; [lia|].
  cbn [wait_for_gate]. unfold bind at 1. unfold await_canSend, canSend.
  destruct (Z.leb_spec (limit (rollover (clock w) (limiter w)))
              (sent (rollover (clock w) (limiter w)))) as [Hfull|Hfree].
  - assert (Hin : clock w < resetTime (limiter w)).
    { destruct (Z.lt_ge_cases (clock w) (resetTime (limiter w))); [assumption|].
      exfalso. revert Hfull. unfold rollover.
      destruct (Z.leb_spec (resetTime (limiter w)) (clock w)); [|lia].
      cbn [limit sent]. lia. }
    rewrite (rollover_within_window _ _ Hin).
    unfold bind, sleep. cbn [clock with_limiter with_clock].
    pose proof (Hlag (clock w)) as Hlag0.
    destruct (IH (with_clock (clock w + 1000 + timer_lag env (clock w))
                    (with_limiter (limiter w) w))) as (t & Ht & _ & Hrun).
    + assumption.
    + assumption.
    + cbn [limiter clock with_clock with_limiter] in *. lia.
    + cbn [limiter clock with_clock with_limiter] in *. lia.
    + exists t. split; [cbn [clock with_clock with_limiter] in Ht; lia|].
      split; [discriminate|].
      unfold with_clock, with_limiter in Hrun |- *.
      cbn [clock limiter sendEvents nextSendEventId leads campaignLeads
             outages errlog] in Hrun |- *.
      exact Hrun.
  - exists (clock w). split; [lia|]. split; reflexivity.
Qed.

(** An attempt gets through the gate at some time [t] and calls the
    deliverer then.  If the deliverer throws, the attempt continues in the
    catch block; if it returns, the count is incremented and the attempt goes
    on to record the result.  In both cases the world differs from the
    initial one by the clock and by the rollover of the successful poll. *)
Lemma processEmailJob_after_gate env job w polls :
  (forall t, 0 <= timer_lag env t) ->
  1 <= limit (limiter w) ->
  (61 <= polls)%nat ->
  resetTime (limiter w) <= clock w + 60000 ->
  exists t, clock w <= t /\
    (fst (canSend (clock w) (limiter w)) = true -> t = clock w) /\
    wait_for_gate polls env w =
      (Done tt, with_clock t (with_limiter (rollover t (limiter w)) w)) /\
    (forall e ms, sendEmail env (job_emailData job) t = (inl e, ms) ->
       processEmailJob polls env job w =
         processEmailJob_catch job e
           (with_clock (t + ms) (with_limiter (rollover t (limiter w)) w))) /\
    (forall res ms, sendEmail env (job_emailData job) t = (inr res, ms) ->
       processEmailJob polls env job w =
         try_catch (record_send job res) (processEmailJob_catch job)
           (with_clock (t + ms)
              (with_limiter (incrementSent (rollover t (limiter w))) w))).
Proof.
  intros Hlag Hlim Hp Hreset.
  destruct (wait_for_gate_opens env polls w Hlag Hlim ltac:(lia) ltac:(lia))
    as (t & Ht & Hfirst & Hgate).
  exists t. do 3 (split; [assumption|]).
  split; [intros e ms Hsend|intros res ms Hsend];
    unfold processEmailJob, try_catch at 1, processEmailJob_try;
    unfold bind at 1; rewrite Hgate;
    unfold bind at 1, await_sendEmail;
    cbn [clock with_clock with_limiter]; rewrite Hsend; reflexivity.
Qed.

(** The catch block always ends by rethrowing the error it was given, and
    touches neither the limiter nor the lead tables. *)
Lemma processEmailJob_catch_rethrows job e w :
  exists w', processEmailJob_catch job e w = (Threw e, w') /\
    limiter w' = limiter w /\ leads w' = leads w /\
    campaignLeads w' = campaignLeads w /\
    (forall k ev, sendEvents w !! k = Some ev -> nextSendEventId w <> k ->
                  sendEvents w' !! k = Some ev).
Proof.
  unfold processEmailJob_catch. run_M.
  destruct (outages w) as [|[db|] rest]; run_M;
    (eexists; split; [reflexivity|]); run_M; repeat split; try done;
    intros k ev Hk Hne; now rewrite lookup_insert_ne.
Qed.

(** C4.  An attempt passes the gate at some time [t]; when the deliverer,
    called then, throws [e], processEmailJob ends by throwing that same [e].
    Before that it logs the error and tries to create a FAILED send event
    carrying e.message as errorMessage: if the store accepts the write, the
    table gains exactly that row; if the write throws dbError, the table is
    unchanged, dbError is logged and it is still [e] that is thrown. *)
Theorem C4_delivery_error_recorded_then_rethrown
    (env : Env) (job : SendJob) (w : World) (polls : nat) :
  (forall t, 0 <= timer_lag env t) ->
  1 <= limit (limiter w) ->
  (61 <= polls)%nat ->
  resetTime (limiter w) <= clock w + 60000 ->
  exists t, clock w <= t /\
  forall e ms, sendEmail env (job_emailData job) t = (inl e, ms) ->
  exists w',
    processEmailJob polls env job w = (Threw e, w') /\
    match outages w with
    | Some dbError :: _ =>
        sendEvents w' = sendEvents w /\
        errlog w' = errlog w ++
          [("Failed to process email job for lead"%string, e);
           ("Failed to record error in database:"%string, dbError)]
    | _ =>
        sendEvents w' =
          <[nextSendEventId w :=
              {| ev_id := nextSendEventId w; eventType := FAILED;
                 leadId := job_leadId job;
                 campaignLeadId := job_campaignLeadId job;
                 campaignStepId := job_campaignStepId job;
                 sentAt := clock w';
                 deliveredAt := None; openedAt := None; clickedAt := None;
                 bouncedAt := None;
                 errorMessage := Some (message e);
                 metadata :=
                   {| md_messageId := None; md_rateLimitCount := None;
                      md_error := Some (stack e);
                      md_processingTime := clock w' - job_timestamp job |} |}]>
            (sendEvents w) /\
        errlog w' = errlog w ++
          [("Failed to process email job for lead"%string, e)]
    end.
Proof.
  intros Hlag Hlim Hp Hreset.
  destruct (processEmailJob_after_gate env job w polls Hlag Hlim Hp Hreset)
    as (t & Ht & _ & _ & Hthrows & _).
  exists t. split; [assumption|]. intros e ms Hsend.
  rewrite (Hthrows e ms Hsend).
  unfold processEmailJob_catch. run_M.
  destruct (outages w) as [|[db|] rest]; run_M;
    (eexists; split; [reflexivity|]); run_M; split; try reflexivity.
  all: now rewrite <- app_assoc.
Qed.

Section Frames.
Context {T : Type} (f : World -> T).
Hypothesis f_outages : forall o w, f (with_outages o w) = f w.
Hypothesis f_errlog : forall l w, f (with_errlog l w) = f w.
Hypothesis f_sendEvents : forall t w, f (with_sendEvents t w) = f w.
Hypothesis f_nextId : forall n w, f (with_nextSendEventId n w) = f w.

Lemma keeps_ret {A} (a : A) : keeps f (ret a).
Proof. now intros w. Qed.

Lemma keeps_throw {A} e : keeps f (@throw A e).
Proof. now intros w. Qed.

Lemma keeps_bind {A B} (m : M A) (k : A -> M B) :
  keeps f m -> (forall a, keeps f (k a)) -> keeps f (bind m k).
Proof.
  intros Hm Hk w. unfold bind. specialize (Hm w).
  destruct (m w) as [[a|e|] w1]; cbn in *; [|assumption..].
  now rewrite Hk.
Qed.

Lemma keeps_try_catch {A} (m : M A) (h : JsError -> M A) :
  keeps f m -> (forall e, keeps f (h e)) -> keeps f (try_catch m h).
Proof.
  intros Hm Hh w. unfold try_catch. specialize (Hm w).
  destruct (m w) as [[a|e|] w1]; cbn in *; [assumption| |assumption].
  now rewrite Hh.
Qed.

Lemma keeps_store_call {A} (body : M A) : keeps f body -> keeps f (store_call body).
Proof.
  intros Hb w. unfold store_call.
  destruct (outages w) as [|[e|] rest]; cbn [snd].
  - apply Hb.
  - apply f_outages.
  - rewrite Hb. apply f_outages.
Qed.

Lemma keeps_date_now : keeps f date_now.
Proof. now intros w. Qed.

Lemma keeps_console_error l e : keeps f (console_error l e).
Proof. intros w. apply f_errlog. Qed.

Lemma keeps_sendEvent_create ty a b c d err md :
  keeps f (sendEvent_create ty a b c d err md).
Proof.
  apply keeps_store_call. intros w. cbn [snd].
  now rewrite f_nextId, f_sendEvents.
Qed.

Lemma keeps_processEmailJob_catch job e : keeps f (processEmailJob_catch job e).
Proof.
  unfold processEmailJob_catch.
  repeat first [ apply keeps_bind; [|intros ?] | apply keeps_try_catch; [|intros ?]
               | apply keeps_console_error | apply keeps_date_now
               | apply keeps_sendEvent_create | apply keeps_ret | apply keeps_throw ].
Qed.

End Frames.


Ltac keeps_steps :=
  repeat first
    [ apply keeps_bind; [|intros ?] | apply keeps_try_catch; [|intros ?]
    | apply keeps_console_error | apply keeps_date_now
    | apply keeps_sendEvent_create | apply keeps_ret | apply keeps_throw
    | apply keeps_processEmailJob_catch
    | done ].

Lemma keeps_limiter_record_send job res : keeps limiter (record_send job res).
Proof.
  unfold record_send. keeps_steps.
  destruct (success res); keeps_steps;
    apply keeps_store_call; try done; intros w; cbn [snd];
    now destruct (_ !! _).
Qed.

Lemma keeps_leads_record_send job res :
  success res = false ->
  keeps leads (record_send job res) /\ keeps campaignLeads (record_send job res).
Proof.
  intros Hs. unfold record_send. rewrite Hs. split; keeps_steps.
Qed.

(** C10.  The count is incremented after sendEmail has returned and not
    before.  An attempt leaves the gate in a world [w_gate], whose limiter is
    the initial one up to the rollover made by the poll that found the gate
    open (exactly the initial one when the attempt starts inside the window
    with budget left), and calls the deliverer.  When the deliverer throws,
    the attempt ends with the limiter of [w_gate], count included: the failed
    delivery has consumed nothing.  When the deliverer returns, the attempt
    ends with that limiter incremented once, whatever happens afterwards. *)
Theorem C10_budget_spent_only_when_deliverer_returns
    (env : Env) (job : SendJob) (w : World) (polls : nat) :
  (forall t, 0 <= timer_lag env t) ->
  1 <= limit (limiter w) ->
  (61 <= polls)%nat ->
  resetTime (limiter w) <= clock w + 60000 ->
  exists w_gate,
    wait_for_gate polls env w = (Done tt, w_gate) /\
    limiter w_gate = rollover (clock w_gate) (limiter w) /\
    (clock w < resetTime (limiter w) ->
     sent (limiter w) < limit (limiter w) ->
     limiter w_gate = limiter w) /\
    (forall e ms,
       sendEmail env (job_emailData job) (clock w_gate) = (inl e, ms) ->
       exists w',
         processEmailJob polls env job w = (Threw e, w') /\
         limiter w' = limiter w_gate) /\
    (forall res ms,
       sendEmail env (job_emailData job) (clock w_gate) = (inr res, ms) ->
       limiter (snd (processEmailJob polls env job w)) =
         incrementSent (limiter w_gate)).
Proof.
  intros Hlag Hlim Hp Hreset.
  destruct (processEmailJob_after_gate env job w polls Hlag Hlim Hp Hreset)
    as (t & Ht & Hfirst & Hgate & Hthrows & Hreturns).
  exists (with_clock t (with_limiter (rollover t (limiter w)) w)).
  cbn [clock limiter with_clock with_limiter].
  split; [assumption|]. split; [reflexivity|]. split; [|split].
  - intros Hin Hfree. rewrite Hfirst.
    + now apply rollover_within_window.
    + rewrite canSend_within_window by assumption. cbn [fst].
      destruct (Z.leb_spec (limit (limiter w)) (sent (limiter w)));
        [lia|reflexivity].
  - intros e ms Hsend. rewrite (Hthrows e ms Hsend).
    destruct (processEmailJob_catch_rethrows job e
                (with_clock (t + ms) (with_limiter (rollover t (limiter w)) w)))
      as (w' & Hcatch & Hl & _).
    exists w'. split; [assumption|exact Hl].
  - intros res ms Hsend. rewrite (Hreturns res ms Hsend).
    rewrite (keeps_try_catch limiter _ _ (keeps_limiter_record_send job res)
               (keeps_processEmailJob_catch limiter ltac:(done) ltac:(done)
                  ltac:(done) ltac:(done) job)).
    reflexivity.
Qed.

(** C5 (as amended).  An attempt passes the gate at some time [t] and calls
    the deliverer.  The lead and campaign-lead tables are left untouched when
    the deliverer throws or reports success = false.  When it reports success
    and the send event is created but prisma.lead.update throws [e], the SENT
    row stays in the table as created, and the error takes the common catch
    path: it is logged, a FAILED row with e.message is written next to the
    SENT row (unless that write fails too) and [e] is rethrown to the
    caller. *)
Theorem C5_contact_update_only_on_success_failure_rethrown
    (env : Env) (job : SendJob) (w : World) (polls : nat) :
  (forall t, 0 <= timer_lag env t) ->
  1 <= limit (limiter w) ->
  (61 <= polls)%nat ->
  resetTime (limiter w) <= clock w + 60000 ->
  exists t, clock w <= t /\
  (forall r ms, sendEmail env (job_emailData job) t = (r, ms) ->
     match r with inl _ => True | inr res => success res = false end ->
     leads (snd (processEmailJob polls env job w)) = leads w /\
     campaignLeads (snd (processEmailJob polls env job w)) = campaignLeads w) /\
  (forall res ms e rest c,
     sendEmail env (job_emailData job) t = (inr res, ms) ->
     success res = true ->
     outages w = None :: None :: Some e :: rest ->
     campaignLeads w !! job_campaignLeadId job = Some c ->
     exists w' sentEv,
       processEmailJob polls env job w = (Threw e, w') /\
       sendEvents w' !! nextSendEventId w = Some sentEv /\
       eventType sentEv = SENT /\ errorMessage sentEv = None /\
       leadId sentEv = job_leadId job /\
       leads w' = leads w /\
       (exists l, errlog w' =
          errlog w ++ ("Failed to process email job for lead"%string, e) :: l) /\
       match rest with
       | Some _ :: _ =>
           sendEvents w' = <[nextSendEventId w := sentEv]> (sendEvents w)
       | _ =>
           exists failedEv,
             sendEvents w' =
               <[nextSendEventId w + 1 := failedEv]>
                 (<[nextSendEventId w := sentEv]> (sendEvents w)) /\
             eventType failedEv = FAILED /\
             errorMessage failedEv = Some (message e)
       end).
Proof.
  intros Hlag Hlim Hp Hreset.
  destruct (processEmailJob_after_gate env job w polls Hlag Hlim Hp Hreset)
    as (t & Ht & _ & _ & Hthrows & Hreturns).
  exists t. split; [assumption|]. split.
  - intros [e|res] ms Hsend Hr.
    + rewrite (Hthrows e ms Hsend).
      destruct (processEmailJob_catch_rethrows job e
                  (with_clock (t + ms) (with_limiter (rollover t (limiter w)) w)))
        as (w' & -> & _ & Hl & Hc & _).
      now split.
    + rewrite (Hreturns res ms Hsend).
      destruct (keeps_leads_record_send job res Hr) as [Kl Kc].
      split.
      * rewrite (keeps_try_catch leads _ _ Kl
                   (keeps_processEmailJob_catch leads ltac:(done) ltac:(done)
                      ltac:(done) ltac:(done) job)).
        reflexivity.
      * rewrite (keeps_try_catch campaignLeads _ _ Kc
                   (keeps_processEmailJob_catch campaignLeads ltac:(done)
                      ltac:(done) ltac:(done) ltac:(done) job)).
        reflexivity.
  - intros res ms e rest c Hsend Hs Hout Hc.
    rewrite (Hreturns res ms Hsend).
    unfold record_send, processEmailJob_catch. rewrite Hs. run_M.
    rewrite Hout. run_M. rewrite Hc. run_M.
    destruct rest as [|[db|] rest]; run_M.
    all: do 2 eexists; (split; [reflexivity|]); run_M.
    all: split; [rewrite ?lookup_insert_ne by lia; apply lookup_insert_eq|].
    all: do 4 (split; [reflexivity|]).
    all: split; [eexists; rewrite <- ?app_assoc; reflexivity|].
    all: try reflexivity.
    all: eexists; do 2 (split; [reflexivity|]); reflexivity.
Qed.

(** C4 with the transport down: the job throws the transport error and the
    table holds a FAILED row with its message. *)
Lemma C4_delivery_error_witness :
  exists w', processEmailJob 61 env_down job1 world1 = (Threw err_smtp, w') /\
    (eventType <$> sendEvents w' !! 1) = Some FAILED /\
    (errorMessage <$> sendEvents w' !! 1) =
       Some (Some "SMTP connection refused"%string).
Proof.
  destruct (C4_delivery_error_recorded_then_rethrown env_down job1 world1 61)
    as (t & _ & H).
  - intros t. cbn. lia.
  - cbn. lia.
  - lia.
  - cbn. lia.
  - destruct (H err_smtp 20 eq_refl) as (w' & Hrun & Hev & _).
    exists w'. split; [exact Hrun|]. cbn in Hev. rewrite Hev.
    rewrite lookup_insert_eq. split; reflexivity.
Defined.

(** C5 when the update of the lead hits a store outage: the job throws the
    store error, the SENT row is in the table and the lead is untouched. *)
Lemma C5_contact_update_witness :
  exists w', processEmailJob 61 env_up job1 world1_flaky = (Threw err_db, w') /\
    (eventType <$> sendEvents w' !! 1) = Some SENT /\
    leads w' = leads world1_flaky.
Proof.
  destruct (C5_contact_update_only_on_success_failure_rethrown
              env_up job1 world1_flaky 61) as (t & _ & _ & Hb).
  - intros t. cbn. lia.
  - cbn. lia.
  - lia.
  - cbn. lia.
  - destruct (Hb result_m1 500 err_db [] {| cl_updatedAt := 0 |}
                eq_refl eq_refl eq_refl eq_refl)
      as (w' & ev & Hrun & Hev & Hty & _ & _ & Hleads & _).
    exists w'. split; [exact Hrun|]. split; [|exact Hleads].
    cbn in Hev. rewrite Hev. cbn. now rewrite Hty.
Defined.

(** C10 with the transport down: the limiter ends as it started. *)
Lemma C10_budget_witness :
  exists w', processEmailJob 61 env_down job1 world1 = (Threw err_smtp, w') /\
    limiter w' = limiter world1.
Proof.
  destruct (C10_budget_spent_only_when_deliverer_returns env_down job1 world1 61)
    as (w_gate & _ & _ & Hsame & Hthrows & _).
  - intros t. cbn. lia.
  - cbn. lia.
  - lia.
  - cbn. lia.
  - destruct (Hthrows err_smtp 20 eq_refl) as (w' & Hrun & Hl).
    exists w'. split; [exact Hrun|]. rewrite Hl. apply Hsame; cbn; lia.
Defined.

(** C5 (counterexample).  The placeholder deliverer succeeds and the SENT
    event is created, but the update of the lead fails: processEmailJob does
    not resolve, it throws the error of the update, and the table holds a
    FAILED row after the SENT one. *)
Lemma C5_failed_contact_update_is_rethrown :
  fst (processEmailJob 61 env_placeholder job1 world1_flaky) = Threw err_db /\
  (eventType <$>
     sendEvents (snd (processEmailJob 61 env_placeholder job1 world1_flaky)) !! 1)
    = Some SENT /\
  (eventType <$>
     sendEvents (snd (processEmailJob 61 env_placeholder job1 world1_flaky)) !! 2)
    = Some FAILED.
Proof. repeat split; vm_compute; reflexivity. Qed.


(** With capacity 0 the gate never opens: the job is still waiting after any
    number of polls. *)
Lemma wait_for_gate_paused env : forall polls w,
  limit (limiter w) = 0 -> 0 <= sent (limiter w) ->
  fst (wait_for_gate polls env w) = StillWaiting.
Proof.
  induction polls as [|n IH]; intros w Hl Hs; [reflexivity|].
  cbn [wait_for_gate]. unfold bind at 1, await_canSend.
  assert (Hr : limit (rollover (clock w) (limiter w)) = 0 /\
               0 <= sent (rollover (clock w) (limiter w))).
  { unfold rollover. destruct (resetTime (limiter w) <=? clock w);
      cbn [limit sent]; lia. }
  destruct Hr as [Hl' Hs']. unfold canSend.
  destruct (Z.leb_spec (limit (rollover (clock w) (limiter w)))
              (sent (rollover (clock w) (limiter w)))); [|lia].
  unfold bind, sleep. apply IH; assumption.
Qed.

(** A run of the placeholder deliverer: the job resolves with the id of the
    SENT event, the lead is marked as contacted and one unit of budget is
    used. *)
Example processEmailJob_placeholder_run :
  fst (processEmailJob 61 env_placeholder job1 world1) =
    Done {| jr_success := true; sendEventId := 1 |} /\
  (eventType <$> sendEvents
     (snd (processEmailJob 61 env_placeholder job1 world1)) !! 1) = Some SENT /\
  (lead_status <$> leads
     (snd (processEmailJob 61 env_placeholder job1 world1)) !! 7)
    = Some CONTACTED /\
  sent (limiter (snd (processEmailJob 61 env_placeholder job1 world1))) = 1.
Proof. vm_compute. repeat split. Qed.

(** With the budget used up the job is sent when the window has rolled
    over, at the 60th poll of the gate; ten polls are not enough. *)
Example processEmailJob_waits_for_window :
  fst (processEmailJob 61 env_up job1 world1_exhausted) =
    Done {| jr_success := true; sendEventId := 1 |} /\
  (sentAt <$> sendEvents
     (snd (processEmailJob 61 env_up job1 world1_exhausted)) !! 1)
    = Some 60600 /\
  limiter (snd (processEmailJob 61 env_up job1 world1_exhausted)) =
    {| limit := 2; sent := 1; resetTime := 120100 |} /\
  fst (processEmailJob 10 env_up job1 world1_exhausted) = StillWaiting.
Proof. vm_compute. repeat split. Qed.

(** Each update of the webhook switch writes constants taken from the event,
    so doing it twice is doing it once, and it never touches the metadata
    column that the where clause reads. *)
Lemma webhook_update_idempotent type data upd :
  webhook_update type data = Some upd ->
  forall ev, upd (upd ev) = upd ev /\ metadata (upd ev) = metadata ev.
Proof.
  unfold webhook_update. intros H ev.
  repeat match type of H with
         | (if ?b then _ else _) = _ => destruct b
         end; try discriminate; injection H as <-; split; try reflexivity.
  unfold set_bounced; cbn. now destruct (wh_reason data).
Qed.

Lemma webhook_update_known type data :
  In type ["email_delivered"; "email_opened"; "email_clicked"; "email_bounced"]%string ->
  exists upd, webhook_update type data = Some upd.
Proof.
  intros [<-|[<-|[<-|[<-|[]]]]]; eexists; reflexivity.
Qed.

(** C6.  For a webhook job of type email_delivered, email_opened,
    email_clicked or email_bounced, with the store up, processWebhookJob
    resolves both times, and processing the same job a second time leaves the
    sendEvent table exactly as the first processing left it.  The first
    processing applies the update of the type to every row whose
    metadata.messageId equals data.messageId. *)
Theorem C6_webhook_application_idempotent (job : WebhookJob) (w : World) :
  In (wh_type job)
     ["email_delivered"; "email_opened"; "email_clicked"; "email_bounced"]%string ->
  store_up 2 w ->
  let once := snd (processWebhookJob job w) in
  let twice := snd (processWebhookJob job once) in
  fst (processWebhookJob job w) = Done true /\
  fst (processWebhookJob job once) = Done true /\
  (exists upd, webhook_update (wh_type job) (wh_data job) = Some upd /\
     sendEvents once =
       (fun ev => if messageId_equals (wh_messageId (wh_data job)) ev
                  then upd ev else ev) <$> sendEvents w) /\
  sendEvents twice = sendEvents once.
Proof.
  intros Hty Hup once twice.
  destruct (webhook_update_known _ (wh_data job) Hty) as [upd Hupd].
  pose proof (webhook_update_idempotent _ _ _ Hupd) as Hidem.
  assert (Hff : forall m : gmap Z SendEvent,
    (fun ev => if messageId_equals (wh_messageId (wh_data job)) ev
               then upd ev else ev) <$>
      ((fun ev => if messageId_equals (wh_messageId (wh_data job)) ev
                  then upd ev else ev) <$> m) =
    (fun ev => if messageId_equals (wh_messageId (wh_data job)) ev
               then upd ev else ev) <$> m).
  { intros m. rewrite <- map_fmap_compose. apply map_fmap_ext.
    intros k ev _. cbn. unfold messageId_equals.
    destruct (md_messageId (metadata ev)) as [mid|] eqn:E; [|now rewrite E].
    destruct (String.eqb mid _) eqn:E2; [|now rewrite E, E2].
    destruct (Hidem ev) as [-> ->]. now rewrite E, E2. }
  subst once twice. unfold processWebhookJob, store_up in *. rewrite Hupd.
  run_M.
  destruct (outages w) as [|[e|] [|[e'|] rest]] eqn:Eo; run_M;
    rewrite ?Eo; run_M;
    try (exfalso; inversion Hup as [|? ? Ho Hup']; subst;
         first [discriminate | inversion Hup'; subst; discriminate]).
  all: repeat split; eauto.
Qed.

(** C6 for an email_opened event on message m1: the first application sets
    openedAt and the second changes nothing. *)
Lemma C6_webhook_witness :
  (openedAt <$>
     sendEvents (snd (processWebhookJob webhook_opened_m1 world_m1)) !! 1)
    = Some (Some 9000) /\
  sendEvents (snd (processWebhookJob webhook_opened_m1
                     (snd (processWebhookJob webhook_opened_m1 world_m1)))) =
  sendEvents (snd (processWebhookJob webhook_opened_m1 world_m1)).
Proof.
  destruct (C6_webhook_application_idempotent webhook_opened_m1 world_m1)
    as (_ & _ & _ & Hidem).
  - cbn. tauto.
  - constructor.
  - split; [vm_compute; reflexivity|exact Hidem].
Defined.

End WorkerFacts.

(** ** The codec: base64, UTF-8 and JSON *)

Section CodecFacts.
Import Text Base64 Utf8 Json.

Ltac Zify.zify_post_hook ::= Z.div_mod_to_equations.

Ltac decide_tests :=
  repeat match goal with
         | |- context [?a <? ?b] => destruct (Z.ltb_spec a b); try lia
         | |- context [?a <=? ?b] => destruct (Z.leb_spec a b); try lia
         | |- context [?a =? ?b] => destruct (Z.eqb_spec a b); try lia
         end.

Ltac settle_test :=
  match goal with
  | |- context [?a <? ?b] =>
      first [ rewrite (proj2 (Z.ltb_lt a b)) by lia
            | rewrite (proj2 (Z.ltb_ge a b)) by lia ]
  | |- context [?a <=? ?b] =>
      first [ rewrite (proj2 (Z.leb_le a b)) by lia
            | rewrite (proj2 (Z.leb_gt a b)) by lia ]
  | |- context [?a =? ?b] =>
      first [ rewrite (proj2 (Z.eqb_eq a b)) by lia
            | rewrite (proj2 (Z.eqb_neq a b)) by lia ]
  end.

Ltac settle_tests := repeat (settle_test; cbn [andb orb negb]).

Lemma unbase64_b64char v :
  0 <= v < 64 -> unbase64 (b64char v) = Some v /\ b64char v <> 61.
Proof.
  intros Hv. unfold unbase64, b64char.
  decide_tests; cbn [andb orb]; decide_tests; cbn [andb orb]; split; try f_equal; try lia.
Qed.

Lemma b64char_low v : 0 <= v < 64 -> b64char v mod 256 = b64char v.
Proof.
  intros Hv. apply Z.mod_small. unfold b64char.
  destruct (v <? 26) eqn:E1; [lia|]. destruct (v <? 52) eqn:E2; [lia|].
  destruct (v <? 62) eqn:E3; [lia|]. destruct (v =? 62); lia.
Qed.

Lemma sextets_cons v r :
  0 <= v < 64 -> sextets (b64char v :: r) = v :: sextets r.
Proof.
  intros Hv. destruct (unbase64_b64char v Hv) as [Hu Hne].
  cbn [sextets]. rewrite (b64char_low v Hv), Hu.
  destruct (Z.eqb_spec (b64char v) 61); [contradiction|reflexivity].
Qed.

Lemma sextets_pad r : sextets (61 :: r) = [].
Proof. reflexivity. Qed.

Lemma triples_ind {A} (P : list A -> Prop) :
  P [] -> (forall a, P [a]) -> (forall a b, P [a; b]) ->
  (forall a b c r, P r -> P (a :: b :: c :: r)) ->
  forall l, P l.
Proof.
  intros H0 H1 H2 H3 l.
  enough (H : P l /\ (forall a, P (a :: l)) /\ (forall a b, P (a :: b :: l)))
    by apply H.
  induction l as [|x l (IH0 & IH1 & IH2)]; [now repeat split|].
  repeat split; [apply IH1|intros; apply IH2|].
  intros a b. now apply H3.
Qed.

Lemma base64_roundtrip bs :
  Forall is_byte bs -> base64_decode (base64_encode bs) = bs.
Proof.
  unfold base64_decode, is_byte.
  induction bs as [|a|a b|a b c r IH] using triples_ind; intros Hb.
  - reflexivity.
  - inversion Hb; subst. cbn [base64_encode].
    rewrite !sextets_cons by lia. rewrite sextets_pad. cbn [regroup].
    f_equal. lia.
  - inversion Hb as [|? ? Ha Hb']; subst. inversion Hb'; subst.
    cbn [base64_encode]. rewrite !sextets_cons by lia.
    rewrite sextets_pad. cbn [regroup]. repeat f_equal; lia.
  - inversion Hb as [|? ? Ha Hb1]; subst. inversion Hb1 as [|? ? ? Hb2]; subst.
    inversion Hb2; subst.
    cbn [base64_encode]. rewrite !sextets_cons by lia.
    cbn [regroup]. rewrite IH by assumption. repeat f_equal; lia.
Qed.

Ltac unfold_decode :=
  match goal with
  | |- utf8_decode (_ :: ?r) = _ =>
      let t := fresh "t" in
      remember r as t; cbn [utf8_decode]; subst t
  end.

Lemma decode_one b0 r :
  b0 < 0x80 -> utf8_decode (b0 :: r) = b0 :: utf8_decode r.
Proof. intros H. cbn [utf8_decode]. now settle_tests. Qed.

Lemma decode_two b0 b1 r :
  0xC2 <= b0 <= 0xDF -> 0x80 <= b1 <= 0xBF ->
  utf8_decode (b0 :: b1 :: r) = ((b0 - 0xC0) * 64 + (b1 - 0x80)) :: utf8_decode r.
Proof.
  intros H0 H1. unfold_decode. unfold continuation. settle_tests. now subst.
Qed.

Lemma decode_three b0 b1 b2 r :
  0xE0 <= b0 <= 0xEF -> 0x80 <= b1 <= 0xBF -> 0x80 <= b2 <= 0xBF ->
  (b0 = 0xE0 -> 0xA0 <= b1) -> (b0 = 0xED -> b1 <= 0x9F) ->
  utf8_decode (b0 :: b1 :: b2 :: r) =
    ((b0 - 0xE0) * 4096 + (b1 - 0x80) * 64 + (b2 - 0x80)) :: utf8_decode r.
Proof.
  intros H0 H1 H2 Hlo Hhi. unfold_decode.
  unfold second_of_three, continuation.
  destruct (Z.eq_dec b0 0xE0) as [->|?]; [|destruct (Z.eq_dec b0 0xED) as [->|?]];
    settle_tests; now subst.
Qed.

Lemma decode_four b0 b1 b2 b3 r :
  0xF0 <= b0 <= 0xF4 -> 0x80 <= b1 <= 0xBF -> 0x80 <= b2 <= 0xBF ->
  0x80 <= b3 <= 0xBF ->
  (b0 = 0xF0 -> 0x90 <= b1) -> (b0 = 0xF4 -> b1 <= 0x8F) ->
  utf8_decode (b0 :: b1 :: b2 :: b3 :: r) =
    code_units ((b0 - 0xF0) * 262144 + (b1 - 0x80) * 4096
                + (b2 - 0x80) * 64 + (b3 - 0x80)) ++ utf8_decode r.
Proof.
  intros H0 H1 H2 H3 Hlo Hhi. unfold_decode.
  unfold second_of_four, continuation.
  destruct (Z.eq_dec b0 0xF0) as [->|?]; [|destruct (Z.eq_dec b0 0xF4) as [->|?]];
    settle_tests; now subst.
Qed.

Lemma decode_scalar c rest :
  0 <= c < 0x10000 -> is_high c = false -> is_low c = false ->
  utf8_decode (encode_code_point c ++ rest) = c :: utf8_decode rest.
Proof.
  unfold is_high, is_low, encode_code_point. intros Hc Hh Hl.
  assert (Hs : c < 0xD800 \/ 0xDFFF < c).
  { destruct (Z.leb_spec 0xD800 c); [|lia].
    destruct (Z.leb_spec c 0xDBFF); [discriminate|].
    destruct (Z.leb_spec 0xDC00 c); [|lia].
    destruct (Z.leb_spec c 0xDFFF); [discriminate|lia]. }
  clear Hh Hl.
  destruct (Z.ltb_spec c 128);
    [|destruct (Z.ltb_spec c 2048); [|destruct (Z.ltb_spec c 65536); [|lia]]];
    cbn [app].
  - now apply decode_one.
  - rewrite decode_two by lia. f_equal. lia.
  - rewrite decode_three by lia. f_equal. lia.
Qed.

Lemma decode_pair c d rest :
  is_high c = true -> is_low d = true ->
  utf8_decode
    (encode_code_point (0x10000 + (c - 0xD800) * 1024 + (d - 0xDC00)) ++ rest)
  = c :: d :: utf8_decode rest.
Proof.
  unfold is_high, is_low, encode_code_point. intros Hh Hl.
  apply andb_true_iff in Hh as [Hh1 Hh2]. apply andb_true_iff in Hl as [Hl1 Hl2].
  apply Z.leb_le in Hh1, Hh2, Hl1, Hl2.
  set (cp := 0x10000 + (c - 0xD800) * 1024 + (d - 0xDC00)).
  assert (Hcp : 0x10000 <= cp < 0x110000) by (unfold cp; lia).
  destruct (Z.ltb_spec cp 128); [lia|].
  destruct (Z.ltb_spec cp 2048); [lia|].
  destruct (Z.ltb_spec cp 65536); [lia|].
  cbn [app]. rewrite decode_four by lia.
  replace ((240 + cp / 262144 - 240) * 262144 + (128 + cp / 4096 mod 64 - 128) * 4096
           + (128 + cp / 64 mod 64 - 128) * 64 + (128 + cp mod 64 - 128)) with cp by lia.
  unfold code_units. destruct (Z.ltb_spec cp 65536); [lia|].
  cbn [app]. unfold cp. repeat f_equal; lia.
Qed.

Lemma utf8_roundtrip : forall s,
  well_formed s = true -> utf8_decode (utf8_encode s) = s.
Proof.
  enough (H : forall n s, (length s <= n)%nat -> well_formed s = true ->
                          utf8_decode (utf8_encode s) = s)
    by (intros s; apply (H (length s)); lia).
  induction n as [|n IH]; intros s Hn Hwf.
  - destruct s; [reflexivity|cbn in Hn; lia].
  - destruct s as [|c r]; [reflexivity|].
    cbn [well_formed utf8_encode] in *.
    destruct (is_high c) eqn:Eh.
    + destruct r as [|d r']; [discriminate|].
      apply andb_true_iff in Hwf as [Hd Hr]. rewrite Hd.
      rewrite decode_pair by assumption.
      rewrite IH; [reflexivity|cbn [length] in Hn; lia|assumption].
    + apply andb_true_iff in Hwf as [Hwf Hr].
      apply andb_true_iff in Hwf as [Hwf Hlt].
      apply andb_true_iff in Hwf as [Hl Hge].
      apply negb_true_iff in Hl. rewrite Hl.
      rewrite decode_scalar; [|lia|assumption..].
      rewrite IH; [reflexivity|cbn [length] in Hn; lia|assumption].
Qed.

(** *** JSON: what JSON.stringify writes, JSON.parse reads back *)

Lemma hex_value_digit d : 0 <= d < 16 -> hex_value (hex_digit d) = Some d.
Proof.
  intros Hd. unfold hex_value, hex_digit.
  destruct (Z.ltb_spec d 10); settle_tests; f_equal; lia.
Qed.

Lemma hex4_escape c :
  is_unit c ->
  hex4 (hex_digit (c / 4096)) (hex_digit (c / 256 mod 16))
       (hex_digit (c / 16 mod 16)) (hex_digit (c mod 16)) = Some c.
Proof.
  unfold is_unit. intros Hc. unfold hex4.
  rewrite !hex_value_digit by lia. f_equal. lia.
Qed.

Lemma parse_string_escape c X :
  is_unit c ->
  parse_string_body (unicode_escape c ++ X) = prepend c (parse_string_body X).
Proof.
  intros Hc. unfold unicode_escape. cbn [app parse_string_body].
  cbn [Z.eqb Pos.eqb]. now rewrite hex4_escape.
Qed.

Lemma parse_string_copy c X :
  32 <= c -> c <> 34 -> c <> 92 ->
  parse_string_body (c :: X) = prepend c (parse_string_body X).
Proof. intros H1 H2 H3. cbn [parse_string_body]. now settle_tests. Qed.

Lemma parse_string_unit c X :
  is_unit c -> is_high c = false ->
  parse_string_body (quote_unit c ++ X) = prepend c (parse_string_body X).
Proof.
  intros Hc Hh. pose proof Hc as Hc'. unfold is_unit in Hc'.
  unfold quote_unit.
  repeat match goal with
         | |- context [if ?k =? ?v then _ else _] =>
             destruct (Z.eqb_spec k v) as [->|?]; [reflexivity|]
         end.
  destruct (Z.ltb_spec c 32); [now apply parse_string_escape|].
  destruct (is_low c); [now apply parse_string_escape|].
  now apply parse_string_copy.
Qed.

Lemma high_is_copied c :
  is_high c = true -> 32 <= c /\ c <> 34 /\ c <> 92 /\ is_unit c.
Proof.
  unfold is_high, is_unit. intros H. apply andb_true_iff in H as [H1 H2].
  apply Z.leb_le in H1, H2. lia.
Qed.

Lemma low_is_copied c :
  is_low c = true -> 32 <= c /\ c <> 34 /\ c <> 92 /\ is_unit c.
Proof.
  unfold is_low, is_unit. intros H. apply andb_true_iff in H as [H1 H2].
  apply Z.leb_le in H1, H2. lia.
Qed.

(** Induction on a string along the pairing of its surrogates. *)
Lemma pairing_ind (P : list Z -> Prop) :
  P [] ->
  (forall c r, is_high c = false -> P r -> P (c :: r)) ->
  (forall c, is_high c = true -> P [c]) ->
  (forall c d r, is_high c = true -> is_low d = true -> P r -> P (c :: d :: r)) ->
  (forall c d r, is_high c = true -> is_low d = false -> P (d :: r) ->
                 P (c :: d :: r)) ->
  forall s, P s.
Proof.
  intros H0 H1 H2 H3 H4.
  enough (H : forall n s, (length s <= n)%nat -> P s)
    by (intros s; apply (H (length s)); lia).
  induction n as [|n IH]; intros s Hn.
  - destruct s; [assumption|cbn in Hn; lia].
  - destruct s as [|c r]; [assumption|]. cbn [length] in Hn.
    destruct (is_high c) eqn:Eh.
    + destruct r as [|d r]; [now apply H2|]. cbn [length] in Hn.
      destruct (is_low d) eqn:El.
      * apply H3; [assumption..|]. apply IH. lia.
      * apply H4; [assumption..|]. apply IH. cbn [length]. lia.
    + apply H1; [assumption|]. apply IH. lia.
Qed.

(** A quoted string is read back as the string. *)
Lemma parse_string_quote_body s : forall rest,
  Forall is_unit s ->
  parse_string_body (quote_body s ++ 34 :: rest) = Some (s, rest).
Proof.
  induction s as [|c r Eh IH|c Eh|c d r Eh El IH|c d r Eh El IH]
    using pairing_ind; intros rest Hs.
  - reflexivity.
  - inversion Hs; subst. cbn [quote_body]. rewrite Eh.
    rewrite <- app_assoc, parse_string_unit by assumption.
    now rewrite IH.
  - inversion Hs; subst. cbn [quote_body]. rewrite Eh.
    now rewrite parse_string_escape.
  - inversion Hs as [|? ? Hc Hs1]; subst. inversion Hs1; subst.
    cbn [quote_body]. rewrite Eh, El. cbn [app].
    destruct (high_is_copied c Eh) as (? & ? & ? & _).
    destruct (low_is_copied d El) as (? & ? & ? & _).
    rewrite !parse_string_copy by assumption. now rewrite IH.
  - inversion Hs as [|? ? Hc Hs1]; subst.
    cbn [quote_body]. rewrite Eh, El.
    rewrite <- app_assoc, parse_string_escape by assumption.
    now rewrite IH.
Qed.

Lemma digits_le_range fuel : forall n,
  0 <= n -> Forall (fun d => 0 <= d <= 9) (digits_le fuel n).
Proof.
  induction fuel as [|f IH]; intros n Hn; cbn [digits_le]; constructor.
  - lia.
  - destruct (Z.ltb_spec n 10); [constructor|]. apply IH. lia.
Qed.

Lemma digits_value_snoc ds d :
  digits_value (ds ++ [d]) = digits_value ds * 10 + d.
Proof. unfold digits_value. now rewrite fold_left_app. Qed.

Lemma digits_le_value fuel : forall n,
  0 <= n < 2 ^ Z.of_nat fuel -> digits_value (rev (digits_le fuel n)) = n.
Proof.
  induction fuel as [|f IH]; intros n Hn.
  - change (2 ^ Z.of_nat 0) with 1 in Hn. assert (n = 0) as -> by lia. reflexivity.
  - cbn [digits_le rev]. rewrite digits_value_snoc.
    destruct (Z.ltb_spec n 10).
    + cbn. lia.
    + rewrite IH; [lia|].
      rewrite Nat2Z.inj_succ, Z.pow_succ_r in Hn by lia. lia.
Qed.

(** The numeral of a positive number starts with a digit that is not 0. *)
Lemma digits_le_leading fuel : forall n,
  0 < n < 2 ^ Z.of_nat fuel ->
  exists d ds, rev (digits_le fuel n) = d :: ds /\ 1 <= d <= 9.
Proof.
  induction fuel as [|f IH]; intros n Hn.
  - change (2 ^ Z.of_nat 0) with 1 in Hn. lia.
  - cbn [digits_le rev]. destruct (Z.ltb_spec n 10).
    + exists (n mod 10), []. split; [reflexivity|lia].
    + destruct (IH (n / 10)) as (d & ds & E & Hd).
      { rewrite Nat2Z.inj_succ, Z.pow_succ_r in Hn by lia. lia. }
      rewrite E. exists d, (ds ++ [n mod 10]). now split.
Qed.

Lemma fuel_covers n : 0 <= n -> n < 2 ^ Z.of_nat (S (Z.to_nat (Z.log2 n))).
Proof.
  intros Hn. rewrite Nat2Z.inj_succ, Z2Nat.id by apply Z.log2_nonneg.
  destruct (Z.eq_dec n 0) as [->|]; [reflexivity|].
  apply Z.log2_spec. lia.
Qed.

Lemma span_digits_numeral ds c rest :
  Forall (fun d => 0 <= d <= 9) ds -> is_digit c = false ->
  span_digits (map (fun d => 48 + d) ds ++ c :: rest) = (ds, c :: rest).
Proof.
  intros Hds Hc. induction Hds as [|d ds Hd _ IH].
  - cbn [map app span_digits]. now rewrite Hc.
  - cbn [map app span_digits]. unfold is_digit at 1. settle_tests.
    rewrite IH. f_equal. f_equal. lia.
Qed.

(** The numeral of a natural number, followed by a comma or a closing
    brace, is read back as the number. *)
Lemma parse_int_decimal n c rest :
  0 <= n -> c = 44 \/ c = 125 ->
  exists ds,
    parse_int (decimal n ++ c :: rest) = Some (ds, c :: rest) /\
    digits_value ds = n /\
    exists c0 tl, decimal n = c0 :: tl /\ 48 <= c0 <= 57.
Proof.
  intros Hn Hc. unfold decimal.
  pose proof (fuel_covers n Hn) as Hfuel.
  pose proof (digits_le_range (S (Z.to_nat (Z.log2 n))) n Hn) as Hrange.
  pose proof (digits_le_value _ n (conj Hn Hfuel)) as Hval.
  apply Forall_rev in Hrange.
  assert (Hnd : is_digit c = false) by (destruct Hc; subst; reflexivity).
  exists (rev (digits_le (S (Z.to_nat (Z.log2 n))) n)).
  destruct (Z.eq_dec n 0) as [->|Hpos].
  - cbn. repeat split. exists 48, []. split; [reflexivity|lia].
  - assert (Hn1 : 0 < n) by lia.
    destruct (digits_le_leading _ n (conj Hn1 Hfuel)) as (d & ds & E & Hd).
    rewrite E in *. split; [|split; [assumption|]].
    + cbn [map app parse_int]. unfold is_digit. settle_tests.
      change (48 + d :: map (fun d0 => 48 + d0) ds ++ c :: rest)
        with (map (fun d0 => 48 + d0) (d :: ds) ++ c :: rest).
      now rewrite span_digits_numeral.
    + cbn [map]. eexists _, _. split; [reflexivity|lia].
Qed.

Lemma div_nearest_even_1 a : div_nearest_even a 1 = a.
Proof. unfold div_nearest_even. now rewrite Z.div_1_r, Z.mod_1_r. Qed.

Lemma Qred_inject_Z n : Qred (inject_Z n) = inject_Z n.
Proof.
  unfold Qred, inject_Z.
  pose proof (Z.ggcd_gcd n 1) as Hg.
  pose proof (Z.ggcd_correct_divisors n 1) as Hd.
  destruct (Z.ggcd n 1) as (g, (aa, bb)). cbn [fst] in Hg.
  rewrite Z.gcd_1_r in Hg. subst g. destruct Hd as [Ha Hb].
  assert (aa = n) as -> by lia. assert (bb = 1) as -> by lia. reflexivity.
Qed.

Lemma Qred_scaled n k :
  0 <= k -> Qred ((n * 2 ^ k) # Z.to_pos (2 ^ k)) = inject_Z n.
Proof.
  intros Hk. rewrite <- (Qred_inject_Z n). apply Qred_complete.
  unfold Qeq, inject_Z. cbn [Qnum Qden].
  rewrite Z2Pos.id by (apply Z.pow_pos_nonneg; lia). lia.
Qed.

(** A positive integer below 2^53 is a double: rounding leaves it as it
    is. *)
Lemma nearest_double_integer k :
  0 < k < 2 ^ 53 -> nearest_double k 1 = Some (inject_Z k).
Proof.
  intros Hk. unfold nearest_double.
  assert (He : log2_ratio k 1 <= 52).
  { assert (Z.log2 k < 53) by (apply Z.log2_lt_pow2; lia).
    unfold log2_ratio. change (Z.log2 1) with 0.
    destruct (if 0 <=? Z.log2 k - 0 then _ else _); lia. }
  remember (Z.max (log2_ratio k 1) (-1022)) as e eqn:Ee.
  assert (Hlo : -1022 <= e <= 52) by lia. clear Ee He.
  rewrite (proj2 (Z.leb_gt 1024 e)) by lia.
  rewrite (proj2 (Z.eqb_neq e 1023)) by lia. cbn [orb andb].
  destruct (Z.leb_spec 0 (e - 52)) as [Hx|Hx].
  - assert (e = 52) as -> by lia. cbn [Z.sub Z.add Z.opp Z.pos_sub Z.succ_double
      Z.pred_double Z.double Pos.pred_double Z.pow Z.pow_pos Pos.iter Z.mul Pos.mul].
    change (52 - 52) with 0. rewrite Z.pow_0_r, Z.mul_1_r, div_nearest_even_1.
    reflexivity.
  - rewrite div_nearest_even_1. f_equal. apply Qred_scaled. lia.
Qed.

(** The value read for an integer below 2^53 in absolute value. *)
Lemma number_value_integer (negative : bool) k :
  0 <= k < 2 ^ 53 ->
  number_value negative k 0 = JNum (inject_Z (if negative then - k else k)).
Proof.
  intros Hk. unfold number_value.
  destruct (Z.eqb_spec k 0) as [->|Hz]; [now destruct negative|].
  change (0 <=? 0) with true. cbv iota. rewrite Z.pow_0_r, Z.mul_1_r.
  rewrite nearest_double_integer by lia. now destruct negative.
Qed.

Lemma parse_number_integer n c rest :
  Z.abs n <= 9007199254740991 ->
  c = 44 \/ c = 125 ->
  parse_number (number_to_string n ++ c :: rest)
    = Some (JNum (inject_Z n), c :: rest) /\
  exists c0 tl, number_to_string n = c0 :: tl /\ 45 <= c0 <= 57.
Proof.
  intros Hn Hc. unfold number_to_string.
  assert (H53 : 2 ^ 53 = 9007199254740992) by reflexivity.
  assert (Htail : parse_frac (c :: rest) = Some ([], c :: rest) /\
                  parse_exp (c :: rest) = Some (0, c :: rest))
    by (destruct Hc; subst; split; reflexivity).
  destruct Htail as [Hfrac Hexp].
  destruct (Z.ltb_spec n 0).
  - destruct (parse_int_decimal (- n) c rest ltac:(lia) Hc)
      as (ds & Hint & Hval & c0 & tl & E & Hc0).
    split; [|eexists _, _; split; [reflexivity|lia]].
    unfold parse_number, optional_minus. cbn [app Z.eqb Pos.eqb].
    rewrite Hint, Hfrac, Hexp, app_nil_r, Hval. cbn [length Z.of_nat Z.sub].
    change (0 + - 0) with 0. rewrite number_value_integer by lia.
    now rewrite Z.opp_involutive.
  - destruct (parse_int_decimal n c rest ltac:(lia) Hc)
      as (ds & Hint & Hval & c0 & tl & E & Hc0).
    split; [|exists c0, tl; split; [assumption|lia]].
    unfold parse_number, optional_minus. rewrite E in *. cbn [app].
    destruct (Z.eqb_spec c0 45); [lia|].
    change (c0 :: tl ++ c :: rest) with ((c0 :: tl) ++ c :: rest).
    rewrite Hint, Hfrac, Hexp, app_nil_r, Hval. cbn [length Z.of_nat Z.sub].
    change (0 + - 0) with 0. now rewrite number_value_integer by lia.
Qed.

Lemma parse_value_number f n c rest :
  Z.abs n <= 9007199254740991 ->
  c = 44 \/ c = 125 ->
  parse_value (S f) (number_to_string n ++ c :: rest) =
    Some (JNum (inject_Z n), c :: rest).
Proof.
  intros Hn Hc.
  destruct (parse_number_integer n c rest Hn Hc) as (Hnum & c0 & tl & E & Hc0).
  rewrite E in *. cbn [app parse_value skip_ws] in *.
  unfold is_ws. settle_tests. now rewrite Hnum.
Qed.

Lemma parse_value_string f s rest :
  Forall is_unit s ->
  parse_value (S f) (quote s ++ rest) = Some (JStr s, rest).
Proof.
  intros Hs. unfold quote. cbn [app parse_value skip_ws is_ws Z.eqb Pos.eqb orb].
  rewrite <- app_assoc. cbn [app]. now rewrite parse_string_quote_body.
Qed.

Lemma parse_members_comma f key X v rest acc :
  Forall is_unit key ->
  parse_value f X = Some (v, 44 :: rest) ->
  parse_members (S f) (quote key ++ 58 :: X) acc =
    parse_members f rest (obj_set acc key v).
Proof.
  intros Hk HX. unfold quote.
  cbn [app parse_members skip_ws is_ws Z.eqb Pos.eqb orb].
  rewrite <- app_assoc. cbn [app]. rewrite parse_string_quote_body by assumption.
  cbn [skip_ws is_ws Z.eqb Pos.eqb orb]. rewrite HX.
  reflexivity.
Qed.

Lemma parse_members_close f key X v rest acc :
  Forall is_unit key ->
  parse_value f X = Some (v, 125 :: rest) ->
  parse_members (S f) (quote key ++ 58 :: X) acc =
    Some (JObj (obj_set acc key v), rest).
Proof.
  intros Hk HX. unfold quote.
  cbn [app parse_members skip_ws is_ws Z.eqb Pos.eqb orb].
  rewrite <- app_assoc. cbn [app]. rewrite parse_string_quote_body by assumption.
  cbn [skip_ws is_ws Z.eqb Pos.eqb orb]. rewrite HX.
  reflexivity.
Qed.

Lemma lit_units s : Forall is_unit (lit s).
Proof.
  induction s as [|a s IH]; constructor; [|assumption].
  unfold is_unit. pose proof (nat_ascii_bounded a). lia.
Qed.

(** *** Well-formed strings and the bytes of their encoding *)

Lemma well_formed_app a : forall b,
  well_formed a = true -> well_formed b = true -> well_formed (a ++ b) = true.
Proof.
  induction a as [|c r Eh IH|c Eh|c d r Eh El IH|c d r Eh El IH]
    using pairing_ind; intros b Ha Hb; cbn [app well_formed] in *.
  - assumption.
  - rewrite Eh in *. apply andb_true_iff in Ha as [Hc Hr].
    rewrite Hc. cbn [andb]. now apply IH.
  - now rewrite Eh in Ha.
  - rewrite Eh, El in *. cbn [andb] in *. now apply IH.
  - rewrite Eh, El in Ha. discriminate.
Qed.

Lemma well_formed_ascii s :
  Forall (fun c => 0 <= c < 128) s -> well_formed s = true.
Proof.
  induction 1 as [|c r Hc _ IH]; [reflexivity|].
  cbn [well_formed]. unfold is_high, is_low. settle_tests. assumption.
Qed.

Lemma well_formed_quote_body s :
  Forall is_unit s -> well_formed (quote_body s) = true.
Proof.
  assert (Hesc : forall c, is_unit c -> well_formed (unicode_escape c) = true).
  { intros c Hc. unfold is_unit in Hc. apply well_formed_ascii.
    unfold unicode_escape, hex_digit.
    repeat constructor; try lia;
      repeat match goal with
             | |- context [?a <? ?b] => destruct (Z.ltb_spec a b)
             end; lia. }
  induction s as [|c r Eh IH|c Eh|c d r Eh El IH|c d r Eh El IH]
    using pairing_ind; intros Hs; cbn [quote_body].
  - reflexivity.
  - inversion Hs as [|? ? Hc Hr]; subst. rewrite Eh.
    apply well_formed_app; [|now apply IH].
    unfold quote_unit.
    repeat match goal with
           | |- context [if ?k =? ?v then _ else _] =>
               destruct (Z.eqb_spec k v) as [->|?]; [reflexivity|]
           end.
    destruct (Z.ltb_spec c 32); [now apply Hesc|].
    destruct (is_low c) eqn:El; [now apply Hesc|].
    cbn [well_formed]. rewrite Eh, El. unfold is_unit in Hc.
    cbn [negb andb]. now settle_tests.
  - inversion Hs; subst. rewrite Eh. now apply Hesc.
  - inversion Hs as [|? ? Hc Hs1]; subst. inversion Hs1; subst.
    rewrite Eh, El. cbn [well_formed]. rewrite Eh, El. cbn [andb].
    now apply IH.
  - inversion Hs as [|? ? Hc Hs1]; subst. rewrite Eh, El.
    apply well_formed_app; [now apply Hesc|now apply IH].
Qed.

Lemma well_formed_quote s : Forall is_unit s -> well_formed (quote s) = true.
Proof.
  intros Hs. unfold quote.
  change (34 :: quote_body s ++ [34]) with ([34] ++ quote_body s ++ [34]).
  repeat apply well_formed_app; try reflexivity.
  now apply well_formed_quote_body.
Qed.

Lemma number_to_string_ascii n :
  Forall (fun c => 0 <= c < 128) (number_to_string n).
Proof.
  assert (H : forall m, 0 <= m -> Forall (fun c => 0 <= c < 128) (decimal m)).
  { intros m Hm. unfold decimal. apply List.Forall_map, List.Forall_rev.
    eapply List.Forall_impl; [|apply digits_le_range; assumption].
    cbn. intros d Hd. lia. }
  unfold number_to_string. destruct (Z.ltb_spec n 0).
  - constructor; [lia|]. apply H. lia.
  - now apply H.
Qed.

Lemma encode_code_point_bytes cp :
  0 <= cp < 0x110000 -> Forall is_byte (encode_code_point cp).
Proof.
  intros Hcp. unfold encode_code_point, is_byte.
  repeat match goal with
         | |- context [?a <? ?b] => destruct (Z.ltb_spec a b)
         end; repeat constructor; lia.
Qed.

Lemma utf8_encode_bytes s :
  well_formed s = true -> Forall is_byte (utf8_encode s).
Proof.
  induction s as [|c r Eh IH|c Eh|c d r Eh El IH|c d r Eh El IH]
    using pairing_ind; intros Hs; cbn [utf8_encode well_formed] in *.
  - constructor.
  - rewrite Eh in *.
    apply andb_true_iff in Hs as [Hs Hr].
    apply andb_true_iff in Hs as [Hs Hlt].
    apply andb_true_iff in Hs as [Hl Hge].
    apply negb_true_iff in Hl. rewrite Hl.
    apply Z.leb_le in Hge. apply Z.ltb_lt in Hlt.
    apply Forall_app. split; [apply encode_code_point_bytes; lia|now apply IH].
  - now rewrite Eh in Hs.
  - rewrite Eh, El in *. cbn [andb] in Hs.
    destruct (high_is_copied c Eh) as (_ & _ & _ & Hc).
    destruct (low_is_copied d El) as (_ & _ & _ & Hd).
    unfold is_high in Eh. unfold is_low in El.
    apply andb_true_iff in Eh as [E1 E2]. apply andb_true_iff in El as [E3 E4].
    apply Z.leb_le in E1, E2, E3, E4.
    apply Forall_app. split; [apply encode_code_point_bytes; lia|now apply IH].
  - rewrite Eh, El in Hs. discriminate.
Qed.

(** *** JSON.parse: the fuel of the parser is enough *)

Lemma skip_ws_length s : (length (skip_ws s) <= length s)%nat.
Proof.
  induction s as [|c r IH]; cbn [skip_ws length]; [lia|].
  destruct (is_ws c); cbn [length]; lia.
Qed.

Lemma prepend_some c o str r :
  prepend c o = Some (str, r) -> exists str', o = Some (str', r).
Proof. destruct o as [[s' r']|]; cbn; [|discriminate]. intros [= <- <-]. eauto. Qed.

Lemma parse_string_body_length : forall s str r,
  parse_string_body s = Some (str, r) -> (length r < length s)%nat.
Proof.
  enough (H : forall n s str r, (length s <= n)%nat ->
                parse_string_body s = Some (str, r) -> (length r < length s)%nat)
    by (intros s str r; apply (H (length s)); lia).
  induction n as [|n IH]; intros s str r Hn Hp.
  - destruct s; [discriminate|cbn in Hn; lia].
  - destruct s as [|c s]; [discriminate|]. cbn [parse_string_body length] in *.
    destruct (c =? 34); [injection Hp as <- <-; lia|].
    destruct (c =? 92).
    + destruct s as [|e s]; [discriminate|]. cbn [length] in *.
      destruct (e =? 117).
      * destruct s as [|h1 [|h2 [|h3 [|h4 s]]]]; try discriminate.
        cbn [length] in *.
        destruct (hex4 h1 h2 h3 h4); [|discriminate].
        apply prepend_some in Hp as [str' Hp]. apply IH in Hp; lia.
      * destruct (unescape e); [|discriminate].
        apply prepend_some in Hp as [str' Hp]. apply IH in Hp; lia.
    + destruct (c <? 32); [discriminate|].
      apply prepend_some in Hp as [str' Hp]. apply IH in Hp; lia.
Qed.

Lemma span_digits_length s :
  (length (snd (span_digits s)) <= length s)%nat.
Proof.
  induction s as [|c r IH]; cbn [span_digits]; [cbn; lia|].
  destruct (is_digit c); [|cbn; lia].
  destruct (span_digits r) as [ds rest]. cbn [snd length] in *. lia.
Qed.

Lemma parse_number_length s q r :
  parse_number s = Some (q, r) -> (length r < length s)%nat.
Proof.
  unfold parse_number.
  assert (Hint : forall s1 ds s2, parse_int s1 = Some (ds, s2) ->
                                  (length s2 < length s1)%nat).
  { intros s1 ds s2. unfold parse_int. destruct s1 as [|c s1]; [discriminate|].
    destruct (c =? 48); [intros [= <- <-]; cbn; lia|].
    destruct (is_digit c) eqn:Ed; [|discriminate].
    cbn [span_digits]. rewrite Ed.
    pose proof (span_digits_length s1) as Hl.
    destruct (span_digits s1) as [ds' rest]. intros [= <- <-]. cbn in *. lia. }
  assert (Hfrac : forall s2 ds s3, parse_frac s2 = Some (ds, s3) ->
                                   (length s3 <= length s2)%nat).
  { intros s2 ds s3. unfold parse_frac.
    destruct s2 as [|c s2]; [intros [= <- <-]; lia|].
    destruct (c =? 46); [|intros [= <- <-]; lia].
    pose proof (span_digits_length s2) as Hl.
    destruct (span_digits s2) as [[|d ds'] rest]; [discriminate|].
    intros [= <- <-]. cbn in *. lia. }
  assert (Hexp : forall s3 e s4, parse_exp s3 = Some (e, s4) ->
                                 (length s4 <= length s3)%nat).
  { intros s3 e s4. unfold parse_exp.
    destruct s3 as [|c s3]; [intros [= <- <-]; lia|].
    destruct ((c =? 101) || (c =? 69)); [|intros [= <- <-]; lia].
    assert (Hsign : (length (snd (optional_sign s3)) <= length s3)%nat).
    { unfold optional_sign. destruct s3 as [|sg r']; [cbn; lia|].
      destruct (sg =? 45); [cbn; lia|]. destruct (sg =? 43); cbn; lia. }
    destruct (optional_sign s3) as [neg r1]. cbn [snd] in Hsign.
    pose proof (span_digits_length r1) as Hl.
    destruct (span_digits r1) as [[|d ds'] rest]; [discriminate|].
    intros [= <- <-]. cbn in *. lia. }
  assert (Hs1 : (length (snd (optional_minus s)) <= length s)%nat).
  { unfold optional_minus. destruct s as [|c s']; [cbn; lia|].
    destruct (c =? 45); cbn; lia. }
  destruct (optional_minus s) as [neg s1]. cbn [snd] in Hs1.
  destruct (parse_int s1) as [[ids s2]|] eqn:E1; [|discriminate].
  destruct (parse_frac s2) as [[fds s3]|] eqn:E2; [|discriminate].
  destruct (parse_exp s3) as [[e s4]|] eqn:E3; [|discriminate].
  intros [= <- <-].
  apply Hint in E1. apply Hfrac in E2. apply Hexp in E3. lia.
Qed.

Lemma expect_length word v s v' r :
  (1 <= length word)%nat -> expect word v s = Some (v', r) ->
  (length r < length s)%nat.
Proof.
  unfold expect. intros Hw.
  destruct (units_eqb (firstn (length word) s) word) eqn:E; [|discriminate].
  intros [= <- <-].
  assert (Hl : length (firstn (length word) s) = length word).
  { clear -E. revert E. generalize (firstn (length word) s) as a.
    induction word as [|x word IH]; intros [|y a]; cbn; try discriminate; [reflexivity|].
    intros H. apply andb_true_iff in H as [_ H]. f_equal. now apply IH. }
  rewrite length_firstn in Hl. rewrite length_skipn. lia.
Qed.


Ltac ws_step H c r :=
  match type of H with
  | context [skip_ws ?s] =>
      let Hl := fresh "Hl" in
      pose proof (skip_ws_length s) as Hl;
      destruct (skip_ws s) as [|c r]; [discriminate|]; cbn [length] in Hl
  end.

(** What a parser returns is shorter than what it was given. *)
Lemma parse_value_length fuel :
  (forall s v r, parse_value fuel s = Some (v, r) -> (length r < length s)%nat) /\
  (forall s acc v r, parse_members fuel s acc = Some (v, r) ->
                     (length r < length s)%nat) /\
  (forall s acc v r, parse_elements fuel s acc = Some (v, r) ->
                     (length r < length s)%nat).
Proof.
  induction fuel as [|f (IHv & IHm & IHe)]; [repeat split; discriminate|].
  repeat split.
  - intros s v r H. cbn [parse_value] in H. ws_step H c0 r0.
    repeat match type of H with
           | (if ?b then _ else _) = _ => destruct b
           end.
    + destruct (parse_string_body r0) as [[str rest]|] eqn:E; [|discriminate].
      injection H as <- <-. apply parse_string_body_length in E. lia.
    + ws_step H c1 r1. destruct (c1 =? 125).
      * injection H as <- <-. lia.
      * apply IHm in H. cbn [length] in H. lia.
    + ws_step H c1 r1. destruct (c1 =? 93).
      * injection H as <- <-. lia.
      * apply IHe in H. cbn [length] in H. lia.
    + apply expect_length in H; [cbn [length] in H; lia|cbn; lia].
    + apply expect_length in H; [cbn [length] in H; lia|cbn; lia].
    + apply expect_length in H; [cbn [length] in H; lia|cbn; lia].
    + apply parse_number_length in H. cbn [length] in H. lia.
  - intros s acc v r H. cbn [parse_members] in H. ws_step H c0 r0.
    destruct (c0 =? 34); [|discriminate].
    destruct (parse_string_body r0) as [[key r1]|] eqn:E; [|discriminate].
    apply parse_string_body_length in E.
    ws_step H c2 r2. destruct (c2 =? 58); [|discriminate].
    destruct (parse_value f r2) as [[v1 r3]|] eqn:Ev; [|discriminate].
    apply IHv in Ev.
    ws_step H c4 r4. destruct (c4 =? 44).
    + apply IHm in H. lia.
    + destruct (c4 =? 125); [|discriminate]. injection H as <- <-. lia.
  - intros s acc v r H. cbn [parse_elements] in H.
    destruct (parse_value f s) as [[v1 r1]|] eqn:Ev; [|discriminate].
    apply IHv in Ev.
    ws_step H c r2. destruct (c =? 44).
    + apply IHe in H. lia.
    + destruct (c =? 93); [|discriminate]. injection H as <- <-. lia.
Qed.

(** A successful parse needs no more fuel than the number of characters
    it consumes. *)
Lemma parse_value_fuel fuel :
  (forall s v r, parse_value fuel s = Some (v, r) ->
     forall f', (length s - length r <= f')%nat ->
                parse_value f' s = Some (v, r)) /\
  (forall s acc v r, parse_members fuel s acc = Some (v, r) ->
     forall f', (length s - length r <= f')%nat ->
                parse_members f' s acc = Some (v, r)) /\
  (forall s acc v r, parse_elements fuel s acc = Some (v, r) ->
     forall f', (length s - length r <= f')%nat ->
                parse_elements f' s acc = Some (v, r)).
Proof.
  induction fuel as [|f (IHv & IHm & IHe)]; [repeat split; discriminate|].
  destruct (parse_value_length f) as (Lv & Lm & Le).
  repeat split.
  - intros s v r H f' Hf'.
    pose proof (proj1 (parse_value_length (S f)) _ _ _ H) as Hlen.
    destruct f' as [|f']; [lia|].
    cbn [parse_value] in H |- *. ws_step H c0 r0.
    repeat match type of H with
           | (if ?b then _ else _) = _ => destruct b
           end; try assumption.
    + ws_step H c1 r1. destruct (c1 =? 125); [assumption|].
      pose proof (Lm _ _ _ _ H) as Hm. cbn [length] in Hm.
      apply (IHm _ _ _ _ H). cbn [length]. lia.
    + ws_step H c1 r1. destruct (c1 =? 93); [assumption|].
      pose proof (Le _ _ _ _ H) as Hm. cbn [length] in Hm.
      apply (IHe _ _ _ _ H). cbn [length]. lia.
  - intros s acc v r H f' Hf'.
    pose proof (proj1 (proj2 (parse_value_length (S f))) _ _ _ _ H) as Hlen.
    destruct f' as [|f']; [lia|].
    cbn [parse_members] in H |- *. ws_step H c0 r0.
    destruct (c0 =? 34); [|discriminate].
    destruct (parse_string_body r0) as [[key r1]|] eqn:E; [|discriminate].
    apply parse_string_body_length in E.
    ws_step H c2 r2. destruct (c2 =? 58); [|discriminate].
    destruct (parse_value f r2) as [[v1 r3]|] eqn:Ev; [|discriminate].
    pose proof (Lv _ _ _ Ev) as Hv.
    assert (Hr : (length r < length r3)%nat).
    { pose proof (skip_ws_length r3) as Hl3.
      destruct (skip_ws r3) as [|c4 r4]; [discriminate|]. cbn [length] in Hl3.
      destruct (c4 =? 44); [apply Lm in H; lia|].
      destruct (c4 =? 125); [|discriminate]. injection H as <- <-. lia. }
    rewrite (IHv _ _ _ Ev f') by lia.
    ws_step H c4 r4. destruct (c4 =? 44); [|assumption].
    pose proof (Lm _ _ _ _ H) as Hm.
    apply (IHm _ _ _ _ H). lia.
  - intros s acc v r H f' Hf'.
    pose proof (proj2 (proj2 (parse_value_length (S f))) _ _ _ _ H) as Hlen.
    destruct f' as [|f']; [lia|].
    cbn [parse_elements] in H |- *.
    destruct (parse_value f s) as [[v1 r1]|] eqn:Ev; [|discriminate].
    pose proof (Lv _ _ _ Ev) as Hv.
    assert (Hr : (length r < length r1)%nat).
    { pose proof (skip_ws_length r1) as Hl1.
      destruct (skip_ws r1) as [|c r2]; [discriminate|]. cbn [length] in Hl1.
      destruct (c =? 44); [apply Le in H; lia|].
      destruct (c =? 93); [|discriminate]. injection H as <- <-. lia. }
    rewrite (IHv _ _ _ Ev f') by lia.
    ws_step H c r2. destruct (c =? 44); [|assumption].
    pose proof (Le _ _ _ _ H) as Hm.
    apply (IHe _ _ _ _ H). lia.
Qed.

(** The fuel JSON.parse is given is enough: a value that some amount of fuel
    finds is found with the fuel of JSON_parse. *)
Lemma JSON_parse_fuel_enough fuel s v r :
  parse_value fuel s = Some (v, r) ->
  parse_value (S (length s)) s = Some (v, r).
Proof.
  intros H. apply (proj1 (parse_value_fuel fuel) _ _ _ H). lia.
Qed.

End CodecFacts.

(** ** Tracking tokens *)

Section TokenFacts.
Import Text Base64 Utf8 Json Runtime Worker Http.

Ltac Zify.zify_post_hook ::= Z.div_mod_to_equations.

(** The text of a tracking object is read back as that object. *)
Lemma parse_value_stringify t f :
  valid_payload t ->
  parse_value (6 + f) (JSON_stringify t) = Some (object_of t, []).
Proof.
  intros (Hl & Hc & Hs & Hu). unfold JSON_stringify.
  change (6 + f)%nat with (S (S (S (S (S (S f)))))).
  cbn [app parse_value skip_ws is_ws Z.eqb Pos.eqb orb].
  unfold quote at 1. cbn [app skip_ws is_ws Z.eqb Pos.eqb orb].
  change (34 :: (quote_body (lit "leadId") ++ [34]) ++ ?X)
    with (quote (lit "leadId") ++ X).
  erewrite parse_members_comma;
    [|apply lit_units|apply parse_value_number; [assumption|now left]].
  erewrite parse_members_comma;
    [|apply lit_units|apply parse_value_number; [assumption|now left]].
  unfold object_of.
  destruct (td_originalUrl t) as [u|].
  - cbn [app]. rewrite <- app_assoc. cbn [app].
    erewrite parse_members_comma;
      [|apply lit_units|apply parse_value_number; [assumption|now left]].
    erewrite parse_members_close;
      [|apply lit_units|
       change (quote u ++ [125]) with (quote u ++ 125 :: []);
       now apply parse_value_string].
    reflexivity.
  - cbn [app].
    erewrite parse_members_close;
      [|apply lit_units|apply parse_value_number; [assumption|now right]].
    reflexivity.
Qed.

Lemma JSON_parse_stringify t :
  valid_payload t ->
  JSON_parse (JSON_stringify t) = Some (object_of t).
Proof.
  intros Hv. unfold JSON_parse.
  assert (Hlen : (5 <= length (JSON_stringify t))%nat).
  { unfold JSON_stringify, quote. cbn [app length].
    rewrite !length_app. cbn [length]. rewrite !length_app. cbn [length]. lia. }
  destruct (Nat.le_exists_sub _ _ Hlen) as (k & Hk & _).
  replace (S (length (JSON_stringify t))) with (6 + k)%nat by lia.
  now rewrite parse_value_stringify.
Qed.

Lemma well_formed_member key n rest :
  well_formed rest = true ->
  well_formed (quote (lit key) ++ [58] ++ number_to_string n ++ rest) = true.
Proof.
  intros Hr. apply well_formed_app; [apply well_formed_quote, lit_units|].
  apply (well_formed_app [58]); [reflexivity|].
  apply well_formed_app; [|assumption].
  apply well_formed_ascii, number_to_string_ascii.
Qed.

Lemma well_formed_stringify t :
  match td_originalUrl t with Some u => Forall is_unit u | None => True end ->
  well_formed (JSON_stringify t) = true.
Proof.
  intros Hu. unfold JSON_stringify.
  apply (well_formed_app [123]); [reflexivity|].
  apply well_formed_member.
  apply (well_formed_app [44]); [reflexivity|].
  apply well_formed_member.
  apply (well_formed_app [44]); [reflexivity|].
  apply well_formed_member.
  apply well_formed_app; [|reflexivity].
  destruct (td_originalUrl t) as [u|]; [|reflexivity].
  apply (well_formed_app [44]); [reflexivity|].
  apply well_formed_app; [apply well_formed_quote, lit_units|].
  apply (well_formed_app [58]); [reflexivity|].
  now apply well_formed_quote.
Qed.

(** C2.  For a payload whose three identifiers are (safe) integers and whose
    optional original URL is any string, decoding the token made by encoding
    it succeeds and yields the object that was encoded: the same three
    integers under leadId, campaignLeadId and campaignStepId and, when and
    only when the payload has one, the same originalUrl string. *)
Theorem C2_decode_encode_roundtrip (t : TrackingData) :
  valid_payload t ->
  decode_token (encode_token t) = Some (object_of t) /\
  property (object_of t) (lit "leadId") = Some (JNum (inject_Z (td_leadId t))) /\
  property (object_of t) (lit "campaignLeadId") =
    Some (JNum (inject_Z (td_campaignLeadId t))) /\
  property (object_of t) (lit "campaignStepId") =
    Some (JNum (inject_Z (td_campaignStepId t))) /\
  property (object_of t) (lit "originalUrl") = JStr <$> td_originalUrl t.
Proof.
  intros Hv. split.
  - unfold decode_token, encode_token.
    pose proof (well_formed_stringify t (proj2 (proj2 (proj2 Hv)))) as Hwf.
    rewrite base64_roundtrip by now apply utf8_encode_bytes.
    rewrite utf8_roundtrip by assumption.
    now apply JSON_parse_stringify.
  - unfold object_of. destruct (td_originalUrl t); repeat split.
Qed.

End TokenFacts.

(** ** The tracking endpoints *)

Section HttpFacts.
Import Text Base64 Utf8 Json Runtime Worker Http Samples.

Lemma settles_ret {A} (a : A) : settles (ret a).
Proof. now intros w. Qed.

Lemma settles_throw {A} e : settles (@throw A e).
Proof. now intros w. Qed.

Lemma settles_bind {A B} (m : M A) (k : A -> M B) :
  settles m -> (forall a, settles (k a)) -> settles (bind m k).
Proof.
  intros Hm Hk w. unfold bind. specialize (Hm w).
  destruct (m w) as [[a|e|] w1]; cbn in *; [apply Hk|discriminate|contradiction].
Qed.

Lemma settles_store_call {A} (body : M A) : settles body -> settles (store_call body).
Proof.
  intros Hb w. unfold store_call.
  destruct (outages w) as [|[e|] rest]; [apply Hb|discriminate|apply Hb].
Qed.

Lemma settles_update_sent_events sem f upd :
  settles (update_sent_events sem f upd).
Proof.
  unfold update_sent_events.
  destruct (sem (f_leadId f)), (sem (f_campaignLeadId f)),
    (sem (f_campaignStepId f)); try apply settles_throw.
  apply settles_store_call. now intros w.
Qed.

Lemma settles_record_open sem bytes : settles (record_open sem bytes).
Proof.
  unfold record_open, parse_buffer, destructure.
  apply settles_bind; [destruct (JSON_parse _); [apply settles_ret|apply settles_throw]|].
  intros v. apply settles_bind; [destruct v; first [apply settles_ret|apply settles_throw]|].
  intros f. apply settles_bind; [now intros w|].
  intros now_. apply settles_bind; [apply settles_update_sent_events|].
  intros _. apply settles_ret.
Qed.

Lemma settles_pixel_try sem id : settles (pixel_try sem id).
Proof.
  destruct id as [|[|c s]|[bytes|]]; cbn [pixel_try];
    first [apply settles_ret|apply settles_throw|apply settles_record_open].
Qed.

(** The model of the encoder writes the token that Node writes. *)
Example encode_token_payload_123 :
  encode_token payload_123 =
    lit "eyJsZWFkSWQiOjEsImNhbXBhaWduTGVhZElkIjoyLCJjYW1wYWlnblN0ZXBJZCI6M30=".
Proof. vm_compute. reflexivity. Qed.

(** A few texts, as JSON.parse reads or rejects them. *)
Example JSON_parse_array :
  JSON_parse (lit " [1, -2.5e1, true, null, [ ], {}] ") =
    Some (JArr [JNum 1; JNum (-25); JBool true; JNull; JArr []; JObj []]).
Proof. vm_compute. reflexivity. Qed.

(** Numbers are read as doubles: an integer above 2^53 and a fraction are
    rounded to the nearest double, a number too small becomes 0 (and is
    falsy), and a number too large becomes Infinity. *)
Example JSON_parse_numbers :
  JSON_parse (lit "9007199254740993") = Some (JNum 9007199254740992) /\
  JSON_parse (lit "0.1")
    = Some (JNum (3602879701896397 # 36028797018963968)) /\
  JSON_parse (lit "1e-400") = Some (JNum 0) /\
  (truthy <$> JSON_parse (lit "1e-400")) = Some false /\
  JSON_parse (lit "-0") = Some (JNum 0) /\
  JSON_parse (lit "1e400") = Some (JInfinity false) /\
  JSON_parse (lit "-1.7976931348623159e308") = Some (JInfinity true).
Proof. vm_compute. repeat split. Qed.

Example JSON_parse_rejects :
  JSON_parse (lit "01") = None /\ JSON_parse (lit "[1,]") = None /\
  JSON_parse (lit "nul") = None /\ JSON_parse (lit "1.e1") = None /\
  JSON_parse (lit "{a:1}") = None /\ JSON_parse (lit "") = None.
Proof. vm_compute. repeat split. Qed.

(** The token of an object that has only a leadId decodes to that object, and
    a string that is not the encoding of any JSON text does not decode. *)
Example decode_token_examples :
  decode_token (lit "eyJsZWFkSWQiOjd9") = Some (JObj [(lit "leadId", JNum 7)]) /\
  decode_token token_null = Some JNull /\
  decode_token token_garbage = None.
Proof. vm_compute. repeat split. Qed.

(** C2 on a payload whose URL has a quote, a non-ASCII letter, a surrogate
    pair and a lone surrogate. *)
Lemma C2_roundtrip_witness :
  valid_payload payload_url /\
  decode_token (encode_token payload_url) = Some (object_of payload_url).
Proof.
  assert (H : valid_payload payload_url).
  { unfold valid_payload. cbn. repeat split; try lia.
    repeat constructor; unfold is_unit; lia. }
  split; [exact H|].
  exact (proj1 (C2_decode_encode_roundtrip payload_url H)).
Defined.

(** The pixel is a PNG image of 70 bytes, one pixel wide and one high. *)
Lemma pixel_is_1x1_png :
  length pixel = 70%nat /\
  firstn 8 pixel = [137; 80; 78; 71; 13; 10; 26; 10] /\
  firstn 4 (skipn 12 pixel) = lit "IHDR" /\
  firstn 8 (skipn 16 pixel) = [0; 0; 0; 1; 0; 0; 0; 1].
Proof. vm_compute. repeat split. Qed.

(** C9.  GET /o.png answers every request with the fixed pixel response, a
    PNG of one pixel by one, and never ends in an exception: whatever the
    id parameter (absent, empty, a string that is or is not a token, or a
    structured value), whatever the store does with the update and however
    the client reads the where clause. *)
Theorem C9_pixel_always_served
    (sem : FilterSemantics) (id : QueryValue) (w : World) :
  fst (pixel_handler sem id w) = Done pixel_response /\
  (exists headers, pixel_response = SendBuffer headers pixel /\
     In ("Content-Type"%string, HString "image/png") headers) /\
  firstn 8 pixel = [137; 80; 78; 71; 13; 10; 26; 10] /\
  firstn 8 (skipn 16 pixel) = [0; 0; 0; 1; 0; 0; 0; 1].
Proof.
  split; [|split; [|split]].
  - unfold pixel_handler, bind, try_catch.
    pose proof (settles_pixel_try sem id w) as Hs.
    destruct (pixel_try sem id w) as [[[]|e|] w1];
      [reflexivity|reflexivity|exfalso; apply Hs; reflexivity].
  - eexists. split; [reflexivity|]. cbn [In]. left. reflexivity.
  - apply pixel_is_1x1_png.
  - apply pixel_is_1x1_png.
Qed.

(** C3 (failing input).  The token e30= is the encoding of the empty
    object, which has none of the required fields.  Decoding it does not
    fail: the handlers go on to the update, where the three undefined
    fields put no condition on the rows.  GET /o.png marks the SENT event of
    lead 7 as opened and GET /r/:id marks it as clicked, and neither logs
    anything. *)
Lemma C3_token_without_fields_is_recorded :
  decode_token token_empty_object = Some (JObj []) /\
  (openedAt <$>
     sendEvents (snd (pixel_handler prisma_filter (QString token_empty_object)
                        world_m1)) !! 1) = Some (Some 100) /\
  errlog (snd (pixel_handler prisma_filter (QString token_empty_object)
                 world_m1)) = [] /\
  (clickedAt <$>
     sendEvents (snd (redirect_handler prisma_filter token_empty_object None
                        None world_m1)) !! 1) = Some (Some 100) /\
  errlog (snd (redirect_handler prisma_filter token_empty_object None None
                 world_m1)) = [].
Proof. vm_compute. repeat split. Qed.

(** The decoder reads a code unit above 255 as its low byte: these four
    code units are read as e30=, and a code unit whose low byte is 61 ends
    the input as = does. *)
Example base64_decode_low_byte :
  base64_decode [357; 307; 304; 61] = lit "{}" /\
  decode_token [357; 307; 304; 61] = Some (JObj []) /\
  base64_decode (lit "e30" ++ [0xD83D] ++ lit "e30=") = lit "{}".
Proof. vm_compute. repeat split. Qed.

End HttpFacts.

(* ===================================================================== *)
(** * Part III: further properties of the worker and the server           *)
(* ===================================================================== *)

(** ** The rate limiter *)

Section LimiterRuns.
Import Limiter Runs.

(** X1.  With a capacity of at least 1, a canSend that answers false has
    changed nothing in the limiter: a refusal happens only inside the
    current window, where canSend does not write. *)
Theorem X1_refusal_leaves_limiter_unchanged (now : Z) (rl : RateLimiter) :
  1 <= limit rl ->
  fst (canSend now rl) = false ->
  snd (canSend now rl) = rl.
Proof.
  intros Hl. unfold canSend, rollover.
  destruct (Z.leb_spec (resetTime rl) now); cbn [limit sent].
  - destruct (Z.leb_spec (limit rl) 0); [lia|discriminate].
  - now destruct (limit rl <=? sent rl).
Qed.

(** X1 on an exhausted limiter inside its window. *)
Lemma X1_refusal_witness :
  snd (canSend 500 {| limit := 2; sent := 2; resetTime := 60000 |}) =
    {| limit := 2; sent := 2; resetTime := 60000 |}.
Proof.
  apply (X1_refusal_leaves_limiter_unchanged 500
           {| limit := 2; sent := 2; resetTime := 60000 |}).
  - cbn. lia.
  - reflexivity.
Defined.

Lemma check_then_increment_invariant now rl :
  0 <= limit rl -> 0 <= sent rl <= limit rl ->
  limit (snd (check_then_increment now rl)) = limit rl /\
  0 <= sent (snd (check_then_increment now rl)) <= limit rl.
Proof.
  intros Hl Hs. unfold check_then_increment, canSend, rollover.
  destruct (Z.leb_spec (resetTime rl) now); cbn [limit sent];
    match goal with
    | |- context [?a <=? ?b] => destruct (Z.leb_spec a b)
    end; cbn [snd limit sent incrementSent]; lia.
Qed.

(** X2.  However the instants of the rounds fall, windows rolling over or
    not, the count stays between 0 and the capacity and the capacity is
    never changed: the worker's use of the limiter never counts more sends
    in a window than the capacity allows. *)
Theorem X2_count_never_exceeds_capacity (times : list Z) : forall rl,
  0 <= limit rl -> 0 <= sent rl <= limit rl ->
  limit (snd (rounds_at times rl)) = limit rl /\
  0 <= sent (snd (rounds_at times rl)) <= limit rl.
Proof.
  induction times as [|t ts IH]; intros rl Hl Hs; [now split|].
  cbn [rounds_at].
  destruct (check_then_increment_invariant t rl Hl Hs) as [Hl1 Hs1].
  destruct (check_then_increment t rl) as [ok rl1]. cbn [snd] in *.
  specialize (IH rl1). rewrite Hl1 in IH. specialize (IH Hl Hs1).
  destruct (rounds_at ts rl1) as [oks rl2]. cbn [snd] in *. exact IH.
Qed.

(** X2 on a fresh limiter of capacity 2, over five rounds that span two
    windows. *)
Lemma X2_count_witness :
  0 <= sent (snd (rounds_at [0; 10; 20; 70000; 70001] (new 2 0))) <= 2.
Proof.
  destruct (X2_count_never_exceeds_capacity [0; 10; 20; 70000; 70001] (new 2 0))
    as [_ H]; [cbn; lia|cbn; lia|]. exact H.
Defined.

(** X3.  While the clock stays inside the current window, at whatever
    instants the rounds take place, exactly the first (capacity - count)
    of them are granted and all later ones are refused. *)
Theorem X3_window_budget_exact_at_any_instants (times : list Z) : forall rl,
  Forall (fun t => t < resetTime rl) times ->
  0 <= sent rl <= limit rl ->
  fst (rounds_at times rl) =
    repeat true (Nat.min (length times) (Z.to_nat (limit rl - sent rl)))
    ++ repeat false (length times - Z.to_nat (limit rl - sent rl)) /\
  resetTime (snd (rounds_at times rl)) = resetTime rl.
Proof.
  induction times as [|t ts IH]; intros rl Ht Hs.
  - cbn. split; reflexivity.
  - inversion Ht as [|? ? Hnow Hts]; subst.
    cbn [rounds_at length]. unfold check_then_increment.
    rewrite canSend_within_window by assumption.
    destruct (Z.leb_spec (limit rl) (sent rl)) as [Hfull|Hfree]; cbn [negb].
    + destruct (IH rl Hts Hs) as [IH1 IH2].
      destruct (rounds_at ts rl) as [oks rl2]. cbn [fst snd] in *.
      split; [|assumption]. rewrite IH1.
      replace (Z.to_nat (limit rl - sent rl)) with O by lia.
      rewrite !Nat.min_0_r, !Nat.sub_0_r. reflexivity.
    + destruct (IH (incrementSent rl)) as [IH1 IH2];
        [assumption|cbn; lia|].
      destruct (rounds_at ts (incrementSent rl)) as [oks rl2].
      cbn [fst snd limit sent resetTime incrementSent] in *.
      split; [|assumption]. rewrite IH1.
      replace (Z.to_nat (limit rl - sent rl))
        with (S (Z.to_nat (limit rl - (sent rl + 1)))) by lia.
      reflexivity.
Qed.

(** X3 with one unit already used out of three. *)
Lemma X3_window_budget_witness :
  fst (rounds_at [100; 2000; 2000; 59999]
         {| limit := 3; sent := 1; resetTime := 60000 |}) =
    [true; true; false; false].
Proof.
  destruct (X3_window_budget_exact_at_any_instants [100; 2000; 2000; 59999]
              {| limit := 3; sent := 1; resetTime := 60000 |}) as [H _].
  - repeat constructor; cbn; lia.
  - cbn. lia.
  - exact H.
Defined.

(** X4.  Asking twice at the same instant is asking once: the second
    canSend gives the same answer and leaves the limiter as the first left
    it, because a rollover moves the end of the window 60 s past the clock. *)
Theorem X4_canSend_twice_at_one_instant (now : Z) (rl : RateLimiter) :
  canSend now (snd (canSend now rl)) = canSend now rl.
Proof.
  rewrite canSend_snd. unfold canSend.
  assert (H : rollover now (rollover now rl) = rollover now rl).
  { unfold rollover. destruct (Z.leb_spec (resetTime rl) now) as [H|H].
    - cbn [resetTime]. destruct (Z.leb_spec (now + 60000) now); [lia|reflexivity].
    - destruct (Z.leb_spec (resetTime rl) now); [lia|reflexivity]. }
  now rewrite H.
Qed.

End LimiterRuns.

(** ** The send worker *)

Section WorkerRuns.
Import Limiter Runtime Worker Runs Samples MoreSamples.

(** The gate loop only moves the clock and the limiter. *)
Lemma wait_for_gate_frame env : forall polls w,
  exists t rl, snd (wait_for_gate polls env w) = with_clock t (with_limiter rl w).
Proof.
  induction polls as [|n IH]; intros w.
  - exists (clock w), (limiter w). now destruct w.
  - cbn [wait_for_gate]. unfold bind at 1, await_canSend.
    destruct (canSend (clock w) (limiter w)) as [[|] rl].
    + exists (clock w), rl. reflexivity.
    + unfold bind, sleep.
      destruct (IH (with_clock (clock (with_limiter rl w) + 1000
                                + timer_lag env (clock (with_limiter rl w)))
                      (with_limiter rl w))) as (t & rl' & E).
      exists t, rl'. rewrite E. reflexivity.
Qed.

(** X5.  A limiter of capacity 0 pauses the worker: however many polls a
    job is given it is still waiting at the gate, the deliverer has not been
    called, and the tables, the error log and the store are as they were. *)
Theorem X5_zero_capacity_pauses_the_worker
    (env : Env) (job : SendJob) (w : World) (polls : nat) :
  limit (limiter w) = 0 -> 0 <= sent (limiter w) ->
  fst (processEmailJob polls env job w) = StillWaiting /\
  sendEvents (snd (processEmailJob polls env job w)) = sendEvents w /\
  leads (snd (processEmailJob polls env job w)) = leads w /\
  campaignLeads (snd (processEmailJob polls env job w)) = campaignLeads w /\
  errlog (snd (processEmailJob polls env job w)) = errlog w /\
  outages (snd (processEmailJob polls env job w)) = outages w.
Proof.
  intros Hl Hs.
  pose proof (wait_for_gate_paused env polls w Hl Hs) as Hwait.
  destruct (wait_for_gate_frame env polls w) as (t & rl & Hframe).
  assert (E : processEmailJob polls env job w =
              (StillWaiting, with_clock t (with_limiter rl w))).
  { unfold processEmailJob, try_catch, processEmailJob_try. unfold bind at 1.
    destruct (wait_for_gate polls env w) as [o w1]. cbn [fst snd] in *.
    now subst o w1. }
  rewrite E. repeat split.
Qed.

(** X5 on a paused worker with the placeholder deliverer. *)
Lemma X5_paused_witness :
  fst (processEmailJob 500 env_placeholder job1
         (with_limiter (new 0 100) world1)) = StillWaiting.
Proof.
  destruct (X5_zero_capacity_pauses_the_worker env_placeholder job1
              (with_limiter (new 0 100) world1) 500) as [H _].
  - reflexivity.
  - cbn. lia.
  - exact H.
Defined.

(** With the budget used up, the gate opens at the first poll that finds the
    window elapsed, and that poll starts a new window. *)
Lemma wait_for_gate_exhausted env : forall polls w,
  (forall t, 0 <= timer_lag env t) ->
  1 <= limit (limiter w) ->
  limit (limiter w) <= sent (limiter w) ->
  (1 <= polls)%nat ->
  resetTime (limiter w) <= clock w + 1000 * (Z.of_nat polls - 1) ->
  exists t, clock w <= t /\ resetTime (limiter w) <= t /\
    wait_for_gate polls env w =
      (Done tt,
       with_clock t
         (with_limiter {| limit := limit (limiter w); sent := 0;
                          resetTime := t + 60000 |} w)).
Proof.
  induction polls as [|n IH]; intros w Hlag Hlim Hfull Hp Hreset; [lia|].
  cbn [wait_for_gate]. unfold bind at 1. unfold await_canSend, canSend, rollover.
  destruct (Z.leb_spec (resetTime (limiter w)) (clock w)) as [Hout|Hin];
    cbn [limit sent].
  - destruct (Z.leb_spec (limit (limiter w)) 0); [lia|].
    exists (clock w). repeat split; try lia.
  - destruct (Z.leb_spec (limit (limiter w)) (sent (limiter w))); [|lia].
    unfold bind, sleep. cbn [clock with_limiter with_clock].
    pose proof (Hlag (clock w)) as Hlag0.
    destruct (IH (with_clock (clock w + 1000 + timer_lag env (clock w))
                    (with_limiter (limiter w) w))) as (t & Ht & Hr & Hrun);
      try assumption;
      try (cbn [limiter clock with_clock with_limiter] in *; lia).
    exists t. cbn [limiter clock with_clock with_limiter] in *.
    split; [lia|]. split; [assumption|].
    unfold with_clock, with_limiter in Hrun |- *.
    cbn [clock limiter sendEvents nextSendEventId leads campaignLeads
           outages errlog] in Hrun |- *.
    exact Hrun.
Qed.

(** X6.  A job that finds the budget of the window used up does not reach
    the deliverer before the window has ended: it leaves the gate at a time
    at or after resetTime, with the count back at 0 and a new window that
    starts then. *)
Theorem X6_exhausted_budget_waits_for_the_window
    (env : Env) (w : World) (polls : nat) :
  (forall t, 0 <= timer_lag env t) ->
  1 <= limit (limiter w) ->
  limit (limiter w) <= sent (limiter w) ->
  (61 <= polls)%nat ->
  resetTime (limiter w) <= clock w + 60000 ->
  exists w_gate,
    wait_for_gate polls env w = (Done tt, w_gate) /\
    resetTime (limiter w) <= clock w_gate /\
    limiter w_gate =
      {| limit := limit (limiter w); sent := 0;
         resetTime := clock w_gate + 60000 |}.
Proof.
  intros Hlag Hlim Hfull Hp Hreset.
  destruct (wait_for_gate_exhausted env polls w Hlag Hlim Hfull
              ltac:(lia) ltac:(lia)) as (t & _ & Ht & Hrun).
  eexists. split; [exact Hrun|]. split; [exact Ht|reflexivity].
Qed.

(** X6 on the exhausted sample world: the gate opens at time 60100. *)
Lemma X6_exhausted_witness :
  exists w_gate,
    wait_for_gate 61 env_up world1_exhausted = (Done tt, w_gate) /\
    60100 <= clock w_gate.
Proof.
  destruct (X6_exhausted_budget_waits_for_the_window env_up world1_exhausted 61)
    as (w_gate & Hrun & Ht & _).
  - intros t. cbn. lia.
  - cbn. lia.
  - cbn. lia.
  - lia.
  - cbn. lia.
  - exists w_gate. split; [exact Hrun|exact Ht].
Defined.

(** X7.  A delivery that succeeds, with the store up and both rows present:
    the job resolves with the id of the new send event; the table gains one
    SENT row without error message, whose metadata carries the message id,
    the count after the increment and the time since the job was queued; the
    campaign lead is touched, the lead becomes CONTACTED and nothing is
    logged.  One unit of budget is used: the count is one more than the
    count at the gate, which is 0 if the window had ended when the gate was
    passed and the old count otherwise. *)
Theorem X7_successful_delivery_is_recorded
    (env : Env) (job : SendJob) (w : World) (polls : nat) :
  (forall t, 0 <= timer_lag env t) ->
  1 <= limit (limiter w) ->
  (61 <= polls)%nat ->
  resetTime (limiter w) <= clock w + 60000 ->
  store_up 3 w ->
  is_Some (campaignLeads w !! job_campaignLeadId job) ->
  is_Some (leads w !! job_leadId job) ->
  exists t, clock w <= t /\
  forall res ms,
    sendEmail env (job_emailData job) t = (inr res, ms) ->
    success res = true ->
    exists w',
      processEmailJob polls env job w =
        (Done {| jr_success := true; sendEventId := nextSendEventId w |}, w') /\
      sendEvents w' =
        <[nextSendEventId w :=
            {| ev_id := nextSendEventId w; eventType := SENT;
               leadId := job_leadId job;
               campaignLeadId := job_campaignLeadId job;
               campaignStepId := job_campaignStepId job;
               sentAt := match timestamp res with
                         | Some ts => ts
                         | None => t + ms
                         end;
               deliveredAt := None; openedAt := None; clickedAt := None;
               bouncedAt := None; errorMessage := None;
               metadata :=
                 {| md_messageId := messageId res;
                    md_rateLimitCount :=
                      Some ((if resetTime (limiter w) <=? t
                             then 0 else sent (limiter w)) + 1);
                    md_error := None;
                    md_processingTime := t + ms - job_timestamp job |} |}]>
          (sendEvents w) /\
      leads w' =
        <[job_leadId job :=
            {| lead_status := CONTACTED; lead_updatedAt := t + ms |}]> (leads w) /\
      campaignLeads w' =
        <[job_campaignLeadId job := {| cl_updatedAt := t + ms |}]>
          (campaignLeads w) /\
      limiter w' =
        {| limit := limit (limiter w);
           sent := (if resetTime (limiter w) <=? t
                    then 0 else sent (limiter w)) + 1;
           resetTime := if resetTime (limiter w) <=? t
                        then t + 60000 else resetTime (limiter w) |} /\
      errlog w' = errlog w.
Proof.
  intros Hlag Hlim Hp Hreset Hup [c Hc] [ld Hld].
  destruct (processEmailJob_after_gate env job w polls Hlag Hlim Hp Hreset)
    as (t & Ht & _ & _ & _ & Hreturns).
  exists t. split; [assumption|]. intros res ms Hsend Hs.
  rewrite (Hreturns res ms Hsend).
  assert (Hrl : incrementSent (rollover t (limiter w)) =
                {| limit := limit (limiter w);
                   sent := (if resetTime (limiter w) <=? t
                            then 0 else sent (limiter w)) + 1;
                   resetTime := if resetTime (limiter w) <=? t
                                then t + 60000 else resetTime (limiter w) |})
    by (unfold incrementSent, rollover;
        destruct (resetTime (limiter w) <=? t); reflexivity).
  assert (Hsent : sent (incrementSent (rollover t (limiter w))) =
                  (if resetTime (limiter w) <=? t
                   then 0 else sent (limiter w)) + 1) by now rewrite Hrl.
  unfold record_send, store_up in *. rewrite Hs. run_M.
  destruct (outages w) as [|[e1|] [|[e2|] [|[e3|] rest]]] eqn:Eo;
    repeat (progress (run_M; rewrite ?Eo, ?Hc, ?Hld));
    try (exfalso; cbn in Hup;
         repeat match goal with
                | H : Forall _ (_ :: _) |- _ =>
                    let H1 := fresh in let H2 := fresh in
                    inversion H as [|? ? H1 H2]; clear H; subst
                end; discriminate).
  all: eexists; split; [reflexivity|]; run_M; rewrite ?Hsent; repeat split;
    exact Hrl.
Qed.

(** X7 with the transport up: lead 7 is marked as contacted, and the count
    of the limiter goes from 0 to 1. *)
Lemma X7_successful_delivery_witness :
  exists w',
    processEmailJob 61 env_up job1 world1 =
      (Done {| jr_success := true; sendEventId := 1 |}, w') /\
    (lead_status <$> leads w' !! 7) = Some CONTACTED /\
    sent (limiter world1) = 0 /\ sent (limiter w') = 1 /\
    (md_rateLimitCount <$> (metadata <$> sendEvents w' !! 1)) = Some (Some 1).
Proof.
  destruct (X7_successful_delivery_is_recorded env_up job1 world1 61)
    as (t & Ht & H).
  - intros t. cbn. lia.
  - cbn. lia.
  - lia.
  - cbn. lia.
  - constructor.
  - vm_compute. eauto.
  - vm_compute. eauto.
  - destruct (H result_m1 500 eq_refl eq_refl)
      as (w' & Hrun & Hev & Hleads & _ & Hrl & _).
    exists w'. split; [exact Hrun|]. split; [|split; [reflexivity|split]].
    + rewrite Hleads. cbn. now rewrite lookup_insert_eq.
    + rewrite Hrl. cbn [sent].
      destruct (resetTime (limiter world1) <=? t); reflexivity.
    + rewrite Hev, lookup_insert_eq. cbn.
      destruct (100 + 60000 <=? t); reflexivity.
Defined.

(** X8.  A deliverer that returns with success = false does not make the
    job fail: with the store up the job resolves, and a FAILED row is
    written whose errorMessage is the error of the result, or the text
    Unknown error when the result has none or an empty one.  The unit of
    budget is used all the same (the count is one more than the count at
    the gate), and the lead tables and the error log are left alone. *)
Theorem X8_reported_failure_is_recorded_not_thrown
    (env : Env) (job : SendJob) (w : World) (polls : nat) :
  (forall t, 0 <= timer_lag env t) ->
  1 <= limit (limiter w) ->
  (61 <= polls)%nat ->
  resetTime (limiter w) <= clock w + 60000 ->
  store_up 1 w ->
  exists t, clock w <= t /\
  forall res ms,
    sendEmail env (job_emailData job) t = (inr res, ms) ->
    success res = false ->
    exists w' row,
      processEmailJob polls env job w =
        (Done {| jr_success := true; sendEventId := nextSendEventId w |}, w') /\
      sendEvents w' = <[nextSendEventId w := row]> (sendEvents w) /\
      eventType row = FAILED /\
      errorMessage row =
        Some match error res with
             | Some EmptyString | None => "Unknown error"%string
             | Some reason => reason
             end /\
      md_messageId (metadata row) = messageId res /\
      md_rateLimitCount (metadata row) =
        Some ((if resetTime (limiter w) <=? t
               then 0 else sent (limiter w)) + 1) /\
      limiter w' =
        {| limit := limit (limiter w);
           sent := (if resetTime (limiter w) <=? t
                    then 0 else sent (limiter w)) + 1;
           resetTime := if resetTime (limiter w) <=? t
                        then t + 60000 else resetTime (limiter w) |} /\
      leads w' = leads w /\ campaignLeads w' = campaignLeads w /\
      errlog w' = errlog w.
Proof.
  intros Hlag Hlim Hp Hreset Hup.
  destruct (processEmailJob_after_gate env job w polls Hlag Hlim Hp Hreset)
    as (t & Ht & _ & _ & _ & Hreturns).
  exists t. split; [assumption|]. intros res ms Hsend Hs.
  rewrite (Hreturns res ms Hsend).
  assert (Hrl : incrementSent (rollover t (limiter w)) =
                {| limit := limit (limiter w);
                   sent := (if resetTime (limiter w) <=? t
                            then 0 else sent (limiter w)) + 1;
                   resetTime := if resetTime (limiter w) <=? t
                                then t + 60000 else resetTime (limiter w) |})
    by (unfold incrementSent, rollover;
        destruct (resetTime (limiter w) <=? t); reflexivity).
  assert (Hsent : sent (incrementSent (rollover t (limiter w))) =
                  (if resetTime (limiter w) <=? t
                   then 0 else sent (limiter w)) + 1) by now rewrite Hrl.
  unfold record_send, store_up in *. rewrite Hs. run_M.
  destruct (outages w) as [|[e1|] rest] eqn:Eo; run_M; rewrite ?Eo; run_M;
    try (exfalso; cbn in Hup; inversion Hup; subst; discriminate).
  all: do 2 eexists; split; [reflexivity|]; run_M; rewrite ?Hsent;
    repeat split; first [exact Hrl | now rewrite Hsent].
Qed.

(** X8 with a transport that rejects the mail without a reason: the count
    of the limiter still goes from 0 to 1. *)
Lemma X8_reported_failure_witness :
  exists w',
    processEmailJob 61 env_rejecting job1 world1 =
      (Done {| jr_success := true; sendEventId := 1 |}, w') /\
    (errorMessage <$> sendEvents w' !! 1) = Some (Some "Unknown error"%string) /\
    leads w' = leads world1 /\
    sent (limiter world1) = 0 /\ sent (limiter w') = 1.
Proof.
  destruct (X8_reported_failure_is_recorded_not_thrown env_rejecting job1
              world1 61) as (t & _ & H).
  - intros t. cbn. lia.
  - cbn. lia.
  - lia.
  - cbn. lia.
  - constructor.
  - destruct (H result_rejected 500 eq_refl eq_refl)
      as (w' & row & Hrun & Hev & _ & Herr & _ & _ & Hrl & Hleads & _).
    exists w'. split; [exact Hrun|]. split; [|split; [exact Hleads|]].
    + rewrite Hev, lookup_insert_eq. cbn. now rewrite Herr.
    + split; [reflexivity|]. rewrite Hrl. cbn [sent].
      destruct (resetTime (limiter world1) <=? t); reflexivity.
Defined.

Lemma appends_ret {A} (a : A) : appends (ret a).
Proof. intros w. split; [cbn; lia|reflexivity]. Qed.

Lemma appends_throw {A} e : appends (@throw A e).
Proof. intros w. split; [cbn; lia|reflexivity]. Qed.

Lemma appends_bind {A B} (m : M A) (k : A -> M B) :
  appends m -> (forall a, appends (k a)) -> appends (bind m k).
Proof.
  intros Hm Hk w. unfold bind. destruct (Hm w) as [Hn Hl].
  destruct (m w) as [[a|e|] w1]; cbn [snd] in *; try (split; assumption).
  destruct (Hk a w1) as [Hn1 Hl1]. split; [lia|].
  intros j Hj. rewrite Hl1 by lia. now apply Hl.
Qed.

Lemma appends_try_catch {A} (m : M A) (h : JsError -> M A) :
  appends m -> (forall e, appends (h e)) -> appends (try_catch m h).
Proof.
  intros Hm Hh w. unfold try_catch. destruct (Hm w) as [Hn Hl].
  destruct (m w) as [[a|e|] w1]; cbn [snd] in *; try (split; assumption).
  destruct (Hh e w1) as [Hn1 Hl1]. split; [lia|].
  intros j Hj. rewrite Hl1 by lia. now apply Hl.
Qed.

Lemma appends_store_call {A} (body : M A) :
  appends body -> appends (store_call body).
Proof.
  intros Hb w. unfold store_call.
  destruct (outages w) as [|[e|] rest]; [apply Hb| |].
  - split; [cbn; lia|reflexivity].
  - apply (Hb (with_outages rest w)).
Qed.

Lemma appends_sendEvent_create ty a b c d err md :
  appends (sendEvent_create ty a b c d err md).
Proof.
  apply appends_store_call. intros w. cbn. split; [lia|].
  intros j Hj. apply lookup_insert_ne. lia.
Qed.

Lemma appends_record_send job res : appends (record_send job res).
Proof.
  unfold record_send.
  apply appends_bind; [intros w; split; [cbn; lia|reflexivity]|]. intros now1.
  apply appends_bind; [intros w; split; [cbn; lia|reflexivity]|]. intros count.
  apply appends_bind; [apply appends_sendEvent_create|]. intros ev.
  apply appends_bind; [|intros; apply appends_ret].
  destruct (success res); [|apply appends_ret].
  apply appends_bind; [intros w; split; [cbn; lia|reflexivity]|]. intros now2.
  apply appends_bind.
  { apply appends_store_call. intros w. cbv beta.
    destruct (campaignLeads w !! _); (split; [cbn; lia|reflexivity]). }
  intros _.
  apply appends_bind; [intros w; split; [cbn; lia|reflexivity]|]. intros now3.
  apply appends_store_call. intros w. cbv beta.
  destruct (leads w !! _); (split; [cbn; lia|reflexivity]).
Qed.

Lemma appends_processEmailJob_catch job e : appends (processEmailJob_catch job e).
Proof.
  unfold processEmailJob_catch.
  apply appends_bind; [intros w; split; [cbn; lia|reflexivity]|]. intros _.
  apply appends_bind; [|intros; apply appends_throw].
  apply appends_try_catch.
  - apply appends_bind; [intros w; split; [cbn; lia|reflexivity]|]. intros now1.
    apply appends_bind; [apply appends_sendEvent_create|].
    intros; apply appends_ret.
  - intros dbError w. split; [cbn; lia|reflexivity].
Qed.

Lemma appends_processEmailJob polls env job :
  appends (processEmailJob polls env job).
Proof.
  unfold processEmailJob, processEmailJob_try.
  apply appends_try_catch; [|apply appends_processEmailJob_catch].
  apply appends_bind.
  { intros w. destruct (wait_for_gate_frame env polls w) as (t & rl & ->).
    split; [cbn; lia|reflexivity]. }
  intros _. apply appends_bind.
  { intros w. unfold await_sendEmail.
    destruct (sendEmail env (job_emailData job) (clock w)) as [[e|res] ms];
      (split; [cbn; lia|reflexivity]). }
  intros res. apply appends_bind; [|intros; apply appends_record_send].
  intros w. split; [cbn; lia|reflexivity].
Qed.

(** X9.  processEmailJob only ever adds rows to the sendEvent table: a send
    event that exists when the job starts (its id below the next id of the
    table) is still there, unchanged, when the job ends, whether it
    resolves, throws or is still waiting. *)
Theorem X9_existing_send_events_are_never_altered
    (env : Env) (job : SendJob) (w : World) (polls : nat)
    (k : Z) (ev : SendEvent) :
  k < nextSendEventId w ->
  sendEvents w !! k = Some ev ->
  sendEvents (snd (processEmailJob polls env job w)) !! k = Some ev.
Proof.
  intros Hk Hev.
  destruct (appends_processEmailJob polls env job w) as [_ H].
  now rewrite H.
Qed.

(** X9 on the event of message m1 while another mail is sent. *)
Lemma X9_existing_send_events_witness :
  sendEvents (snd (processEmailJob 61 env_down job1 world_m1)) !! 1 =
    Some event_m1.
Proof.
  apply (X9_existing_send_events_are_never_altered env_down job1 world_m1 61
           1 event_m1).
  - cbn. lia.
  - vm_compute. reflexivity.
Defined.

End WorkerRuns.

(** ** The webhook worker *)

Section WebhookRuns.
Import Limiter Runtime Worker Runs Samples MoreSamples.

Lemma webhook_update_unknown type data :
  ~ In type ["email_delivered"; "email_opened"; "email_clicked";
             "email_bounced"]%string ->
  webhook_update type data = None.
Proof.
  intros Hn. unfold webhook_update.
  repeat match goal with
         | |- context [String.eqb ?a ?b] =>
             destruct (String.eqb_spec a b) as [->|?];
             [exfalso; apply Hn; cbn; tauto|]
         end.
  reflexivity.
Qed.

(** X10.  A webhook of a type other than the four known ones is accepted
    and ignored: the job resolves and the world is exactly as before.  No
    store call is made, so this holds even while the store is down. *)
Theorem X10_unknown_webhook_type_is_ignored (job : WebhookJob) (w : World) :
  ~ In (wh_type job)
       ["email_delivered"; "email_opened"; "email_clicked";
        "email_bounced"]%string ->
  processWebhookJob job w = (Done true, w).
Proof.
  intros Hn. unfold processWebhookJob.
  now rewrite (webhook_update_unknown _ _ Hn).
Qed.

(** X10 for a complaint event while the store is down. *)
Lemma X10_unknown_webhook_witness :
  processWebhookJob webhook_complained_m1
    (with_outages [Some err_db] world_m1) =
  (Done true, with_outages [Some err_db] world_m1).
Proof.
  apply X10_unknown_webhook_type_is_ignored.
  cbn. intros [H|[H|[H|[H|[]]]]]; discriminate.
Defined.

(** X11.  When the store call of a known webhook throws, the job logs the
    error and throws that same error, and no send event has changed. *)
Theorem X11_webhook_store_failure_is_rethrown
    (job : WebhookJob) (w : World) (e : JsError) (rest : list (option JsError)) :
  In (wh_type job)
     ["email_delivered"; "email_opened"; "email_clicked";
      "email_bounced"]%string ->
  outages w = Some e :: rest ->
  processWebhookJob job w =
    (Threw e,
     with_errlog (errlog w ++ [("Failed to process webhook"%string, e)])
       (with_outages rest w)).
Proof.
  intros Hty Hout.
  destruct (webhook_update_known _ (wh_data job) Hty) as [upd Hupd].
  unfold processWebhookJob. rewrite Hupd. run_M. rewrite Hout. reflexivity.
Qed.

(** X11 for the delivery webhook of m1 during an outage. *)
Lemma X11_webhook_store_failure_witness :
  fst (processWebhookJob webhook_delivered_m1
         (with_outages [Some err_db] world_m1)) = Threw err_db /\
  sendEvents (snd (processWebhookJob webhook_delivered_m1
                     (with_outages [Some err_db] world_m1))) =
    sendEvents world_m1.
Proof.
  rewrite (X11_webhook_store_failure_is_rethrown webhook_delivered_m1
             (with_outages [Some err_db] world_m1) err_db []).
  - split; reflexivity.
  - cbn. tauto.
  - reflexivity.
Defined.

(** What a known webhook does to the table when its store call goes
    through. *)
Lemma processWebhookJob_applies job w upd :
  webhook_update (wh_type job) (wh_data job) = Some upd ->
  store_up 1 w ->
  fst (processWebhookJob job w) = Done true /\
  sendEvents (snd (processWebhookJob job w)) =
    (fun ev => if messageId_equals (wh_messageId (wh_data job)) ev
               then upd ev else ev) <$> sendEvents w /\
  outages (snd (processWebhookJob job w)) = drop 1 (outages w).
Proof.
  intros Hupd Hup. unfold processWebhookJob, store_up in *. rewrite Hupd. run_M.
  destruct (outages w) as [|[e|] rest] eqn:Eo; run_M; rewrite ?Eo; run_M.
  - repeat split.
  - exfalso. cbn in Hup. inversion Hup; subst; discriminate.
  - repeat split.
Qed.

(** The updates of opened and clicked commute with those of every other
    type, and no update changes what the where clause reads. *)
Lemma webhook_updates_commute t1 t2 d1 d2 u1 u2 :
  In t1 ["email_opened"; "email_clicked"]%string ->
  t1 <> t2 ->
  webhook_update t1 d1 = Some u1 ->
  webhook_update t2 d2 = Some u2 ->
  forall ev, u1 (u2 ev) = u2 (u1 ev).
Proof.
  intros H1 Hne E1 E2 ev. unfold webhook_update in *.
  destruct H1 as [<-|[<-|[]]]; cbn in E1; injection E1 as <-;
    repeat match type of E2 with
           | (if String.eqb ?a ?b then _ else _) = _ =>
               destruct (String.eqb_spec a b) as [->|?]
           end; try congruence; injection E2 as <-; reflexivity.
Qed.

(** X12.  An email_opened or email_clicked webhook commutes with a webhook
    of any other type, whatever the message ids and time stamps: with the
    store up, processing the two jobs in either order leaves the same
    sendEvent table. *)
Theorem X12_open_and_click_webhooks_commute (j1 j2 : WebhookJob) (w : World) :
  In (wh_type j1) ["email_opened"; "email_clicked"]%string ->
  In (wh_type j2)
     ["email_delivered"; "email_opened"; "email_clicked";
      "email_bounced"]%string ->
  wh_type j1 <> wh_type j2 ->
  store_up 2 w ->
  sendEvents (snd (processWebhookJob j2 (snd (processWebhookJob j1 w)))) =
  sendEvents (snd (processWebhookJob j1 (snd (processWebhookJob j2 w)))).
Proof.
  intros H1 H2 Hne Hup.
  assert (H1' : In (wh_type j1)
                  ["email_delivered"; "email_opened"; "email_clicked";
                   "email_bounced"]%string) by (cbn in *; tauto).
  destruct (webhook_update_known _ (wh_data j1) H1') as [u1 E1].
  destruct (webhook_update_known _ (wh_data j2) H2) as [u2 E2].
  assert (Hup1 : store_up 1 w).
  { unfold store_up in *. destruct (outages w) as [|o [|o' r]]; cbn in *;
      inversion Hup; subst; repeat constructor; assumption. }
  assert (Hnext : forall j u, webhook_update (wh_type j) (wh_data j) = Some u ->
                              store_up 1 (snd (processWebhookJob j w))).
  { intros j u E. destruct (processWebhookJob_applies j w u E Hup1) as (_ & _ & Ho).
    unfold store_up in *. rewrite Ho.
    destruct (outages w) as [|o [|o' r]]; cbn in *; try constructor.
    - inversion Hup as [|? ? _ Hup']; subst. inversion Hup'; subst.
      now constructor.
    - inversion Hup as [|? ? _ Hup']; subst. inversion Hup'; subst.
      now constructor. }
  destruct (processWebhookJob_applies j1 w u1 E1 Hup1) as (_ & S1 & _).
  destruct (processWebhookJob_applies j2 w u2 E2 Hup1) as (_ & S2 & _).
  destruct (processWebhookJob_applies j2 _ u2 E2 (Hnext j1 u1 E1)) as (_ & S12 & _).
  destruct (processWebhookJob_applies j1 _ u1 E1 (Hnext j2 u2 E2)) as (_ & S21 & _).
  rewrite S12, S21, S1, S2, <- !map_fmap_compose.
  apply map_fmap_ext. intros k ev _. cbn.
  pose proof (webhook_update_idempotent _ _ _ E1) as I1.
  pose proof (webhook_update_idempotent _ _ _ E2) as I2.
  pose proof (webhook_updates_commute _ _ _ _ _ _ H1 Hne E1 E2 ev) as Hc.
  unfold messageId_equals.
  destruct (md_messageId (metadata ev)) as [mid|] eqn:Em.
  - destruct (String.eqb mid (wh_messageId (wh_data j1))) eqn:M1;
      destruct (String.eqb mid (wh_messageId (wh_data j2))) eqn:M2;
      rewrite ?(proj2 (I1 ev)), ?(proj2 (I2 ev)), ?Em, ?M1, ?M2.
    all: first [symmetry; assumption|reflexivity].
  - now rewrite Em.
Qed.

(** X12 for the open and the delivery of message m1. *)
Lemma X12_open_and_click_witness :
  sendEvents (snd (processWebhookJob webhook_delivered_m1
                     (snd (processWebhookJob webhook_opened_m1 world_m1)))) =
  sendEvents (snd (processWebhookJob webhook_opened_m1
                     (snd (processWebhookJob webhook_delivered_m1 world_m1)))).
Proof.
  apply X12_open_and_click_webhooks_commute.
  - cbn. tauto.
  - cbn. tauto.
  - discriminate.
  - constructor.
Defined.

(** X13.  Whatever its type and whatever the store does, a webhook job
    neither adds nor removes send events, leaves alone every row whose
    metadata.messageId differs from the message id of the event, and in the
    rows it updates never changes the id, the lead, campaign and step
    identifiers, sentAt or the metadata. *)
Theorem X13_webhook_touches_only_matching_rows
    (job : WebhookJob) (w : World) (k : Z) :
  match sendEvents w !! k with
  | None => sendEvents (snd (processWebhookJob job w)) !! k = None
  | Some ev =>
      exists ev',
        sendEvents (snd (processWebhookJob job w)) !! k = Some ev' /\
        (messageId_equals (wh_messageId (wh_data job)) ev = false -> ev' = ev) /\
        ev_id ev' = ev_id ev /\ leadId ev' = leadId ev /\
        campaignLeadId ev' = campaignLeadId ev /\
        campaignStepId ev' = campaignStepId ev /\
        sentAt ev' = sentAt ev /\ metadata ev' = metadata ev
  end.
Proof.
  assert (Hsame : sendEvents (snd (processWebhookJob job w)) = sendEvents w ->
    match sendEvents w !! k with
    | None => sendEvents (snd (processWebhookJob job w)) !! k = None
    | Some ev =>
        exists ev',
          sendEvents (snd (processWebhookJob job w)) !! k = Some ev' /\
          (messageId_equals (wh_messageId (wh_data job)) ev = false -> ev' = ev) /\
          ev_id ev' = ev_id ev /\ leadId ev' = leadId ev /\
          campaignLeadId ev' = campaignLeadId ev /\
          campaignStepId ev' = campaignStepId ev /\
          sentAt ev' = sentAt ev /\ metadata ev' = metadata ev
    end).
  { intros ->. destruct (sendEvents w !! k) as [ev|] eqn:E; [|reflexivity].
    exists ev. repeat split. }
  destruct (webhook_update (wh_type job) (wh_data job)) as [upd|] eqn:Hupd.
  - assert (Hcols : forall ev, ev_id (upd ev) = ev_id ev /\
        leadId (upd ev) = leadId ev /\ campaignLeadId (upd ev) = campaignLeadId ev /\
        campaignStepId (upd ev) = campaignStepId ev /\
        sentAt (upd ev) = sentAt ev /\ metadata (upd ev) = metadata ev).
    { intros ev. unfold webhook_update in Hupd.
      repeat match type of Hupd with
             | (if ?b then _ else _) = _ => destruct b
             end; try discriminate; injection Hupd as <-; repeat split. }
    destruct (outages w) as [|[e|] rest] eqn:Eo.
    + destruct (processWebhookJob_applies job w upd Hupd) as (_ & -> & _).
      { unfold store_up. rewrite Eo. constructor. }
      rewrite lookup_fmap. destruct (sendEvents w !! k) as [ev|]; [|reflexivity].
      cbn. eexists. split; [reflexivity|].
      destruct (messageId_equals _ ev); [|repeat split].
      split; [discriminate|apply Hcols].
    + apply Hsame. unfold processWebhookJob. rewrite Hupd. run_M.
      rewrite Eo. reflexivity.
    + destruct (processWebhookJob_applies job w upd Hupd) as (_ & -> & _).
      { unfold store_up. rewrite Eo. repeat constructor. }
      rewrite lookup_fmap. destruct (sendEvents w !! k) as [ev|]; [|reflexivity].
      cbn. eexists. split; [reflexivity|].
      destruct (messageId_equals _ ev); [|repeat split].
      split; [discriminate|apply Hcols].
  - apply Hsame. unfold processWebhookJob. rewrite Hupd. reflexivity.
Qed.

End WebhookRuns.

(** ** The tracking endpoints, from the token to the table *)

Section TrackingRuns.
Import Text Base64 Utf8 Json Runtime Worker Http Samples MoreSamples.

(** Decoding inverts encoding (the chain of the three round trips). *)
Lemma decode_encode_token t :
  valid_payload t ->
  decode_token (encode_token t) = Some (object_of t).
Proof.
  intros Hv. unfold decode_token, encode_token.
  pose proof (well_formed_stringify t (proj2 (proj2 (proj2 Hv)))) as Hwf.
  rewrite base64_roundtrip by now apply utf8_encode_bytes.
  rewrite utf8_roundtrip by assumption.
  now apply JSON_parse_stringify.
Qed.

Lemma base64_encode_nonempty b bs : base64_encode (b :: bs) <> [].
Proof. destruct bs as [|b1 [|b2 r]]; discriminate. Qed.

Lemma encode_token_nonempty t : encode_token t <> [].
Proof.
  unfold encode_token, JSON_stringify. cbn [app utf8_encode].
  change (is_high 123) with false. change (is_low 123) with false.
  cbn iota. change (encode_code_point 123) with [123]. cbn [app].
  apply base64_encode_nonempty.
Qed.

(** The fields that a handler reads from a decoded tracking object. *)
Lemma destructure_object_of t w :
  destructure (object_of t) w =
    (Done {| f_leadId := Some (JNum (inject_Z (td_leadId t)));
             f_campaignLeadId := Some (JNum (inject_Z (td_campaignLeadId t)));
             f_campaignStepId := Some (JNum (inject_Z (td_campaignStepId t)));
             f_originalUrl := JStr <$> td_originalUrl t |}, w).
Proof. unfold object_of. now destruct (td_originalUrl t). Qed.

Lemma settles_redirect_try sem id url referer :
  settles (redirect_try sem id url referer).
Proof.
  unfold redirect_try, parse_buffer, destructure.
  apply settles_bind; [destruct (JSON_parse _); [apply settles_ret|apply settles_throw]|].
  intros v. apply settles_bind; [destruct v; first [apply settles_ret|apply settles_throw]|].
  intros f. apply settles_bind; [now intros w|].
  intros now_. apply settles_bind; [apply settles_update_sent_events|].
  intros _.
  destruct (match url with Some (c :: u) => _ | _ => _ end) as [target|];
    [destruct (truthy target)|]; apply settles_ret.
Qed.

Lemma units_eqb_eq a : forall b, units_eqb a b = true <-> a = b.
Proof.
  induction a as [|x a IH]; intros [|y b]; cbn [units_eqb];
    try (split; [discriminate|discriminate]); [now split|].
  rewrite andb_true_iff, Z.eqb_eq, IH. split; [now intros [-> ->]|].
  now intros [= -> ->].
Qed.

(** The address of res.redirect for a string: the Referer header, or /, for
    the word back, and the string itself otherwise. *)
Lemma res_redirect_string referer s :
  res_redirect referer (JStr s) =
    Redirect (JStr (if decide (s = lit "back")
                    then match referer with
                         | Some (r0 :: r) => r0 :: r
                         | _ => lit "/"
                         end
                    else s)).
Proof.
  unfold res_redirect, referrer_or_root.
  destruct (units_eqb s (lit "back")) eqn:E.
  - apply units_eqb_eq in E. now destruct (decide (s = lit "back")).
  - destruct (decide (s = lit "back")) as [Hs|]; [|reflexivity].
    apply units_eqb_eq in Hs. congruence.
Qed.

(** When the try block of the redirect handler returns, it is with the
    answer chosen from the url parameter and the originalUrl of the token. *)
Lemma redirect_try_answer sem id c u referer w r :
  fst (redirect_try sem id (Some (c :: u)) referer w) = Done r ->
  r = res_redirect referer (JStr (c :: u)).
Proof.
  unfold redirect_try, bind.
  destruct (parse_buffer (base64_decode id) w) as [[v|e|] w1]; try discriminate.
  destruct (destructure v w1) as [[f|e|] w2]; try discriminate.
  destruct (date_now w2) as [[now_|e|] w3]; try discriminate.
  destruct (update_sent_events sem f (set_clicked now_) w3) as [[n|e|] w4];
    try discriminate.
  cbn. now intros [= <-].
Qed.

(** X14.  A request to /r/:id whose url parameter is a non-empty string is
    always answered with a redirect, and the url parameter alone decides
    its address: the url itself, except for the word back, which Express 4
    reads as the Referer header of the request, or as / when the request has
    none.  This holds whatever the token (valid, of another shape, or no
    token at all), whatever the store does with the update and however the
    where clause is read. *)
Theorem X14_redirect_follows_the_url_parameter
    (sem : FilterSemantics) (id : list Z) (c : Z) (u : list Z)
    (referer : option (list Z)) (w : World) :
  fst (redirect_handler sem id (Some (c :: u)) referer w) =
    Done (Redirect (JStr (if decide (c :: u = lit "back")
                          then match referer with
                               | Some (r0 :: r) => r0 :: r
                               | _ => lit "/"
                               end
                          else c :: u))).
Proof.
  rewrite <- res_redirect_string.
  unfold redirect_handler, try_catch.
  pose proof (settles_redirect_try sem id (Some (c :: u)) referer w) as Hs.
  pose proof (redirect_try_answer sem id c u referer w) as Ha.
  destruct (redirect_try sem id (Some (c :: u)) referer w) as [[r|e|] w1];
    cbn [fst] in *.
  - now rewrite (Ha r eq_refl).
  - reflexivity.
  - contradiction.
Qed.

(** The url parameter on its own page, and the word back with and without a
    Referer header, on a request without a token. *)
Example redirect_back_examples :
  fst (redirect_handler prisma_filter token_garbage
         (Some (lit "https://example.com")) None world_m1)
    = Done (Redirect (JStr (lit "https://example.com"))) /\
  fst (redirect_handler prisma_filter token_garbage (Some (lit "back"))
         (Some (lit "https://mail.example/inbox")) world_m1)
    = Done (Redirect (JStr (lit "https://mail.example/inbox"))) /\
  fst (redirect_handler prisma_filter token_garbage (Some (lit "back")) None
         world_m1)
    = Done (Redirect (JStr (lit "/"))).
Proof. vm_compute. repeat split. Qed.

(** What updateMany on the SENT events of a tracking object can do to a
    row: nothing, or the update if the row is a SENT event. *)
Lemma update_sent_events_rows sem f upd w k :
  match sendEvents w !! k with
  | None => sendEvents (snd (update_sent_events sem f upd w)) !! k = None
  | Some ev =>
      sendEvents (snd (update_sent_events sem f upd w)) !! k = Some ev \/
      (eventType ev = SENT /\
       sendEvents (snd (update_sent_events sem f upd w)) !! k = Some (upd ev))
  end.
Proof.
  assert (Hsame : forall w', sendEvents w' = sendEvents w ->
    match sendEvents w !! k with
    | None => sendEvents w' !! k = None
    | Some ev => sendEvents w' !! k = Some ev \/
                 (eventType ev = SENT /\ sendEvents w' !! k = Some (upd ev))
    end).
  { intros w' ->. destruct (sendEvents w !! k); [now left|reflexivity]. }
  unfold update_sent_events.
  destruct (sem (f_leadId f)) as [g1|]; [|now apply Hsame].
  destruct (sem (f_campaignLeadId f)) as [g2|]; [|now apply Hsame].
  destruct (sem (f_campaignStepId f)) as [g3|]; [|now apply Hsame].
  unfold sendEvent_updateMany, store_call.
  destruct (outages w) as [|[e|] rest]; [|now apply Hsame|];
    cbn [snd sendEvents with_sendEvents with_outages]; rewrite lookup_fmap;
    (destruct (sendEvents w !! k) as [ev|]; [|reflexivity]); cbn;
    (destruct (g1 _ && g2 _ && g3 _ && is_SENT ev) eqn:E; [|now left]);
    right; (split; [|reflexivity]);
    apply andb_true_iff in E as [_ E]; unfold is_SENT in E;
    now destruct (eventType ev).
Qed.

Lemma pixel_handler_table sem id w :
  sendEvents (snd (pixel_handler sem id w)) = sendEvents w \/
  exists f,
    sendEvents (snd (pixel_handler sem id w)) =
      sendEvents (snd (update_sent_events sem f (set_opened (clock w)) w)).
Proof.
  assert (H : forall bytes,
    sendEvents (snd (bind (try_catch (record_open sem bytes)
                             (fun error => console_error "Open tracking error:" error))
                       (fun _ => ret pixel_response) w)) = sendEvents w \/
    exists f,
      sendEvents (snd (bind (try_catch (record_open sem bytes)
                               (fun error => console_error "Open tracking error:" error))
                         (fun _ => ret pixel_response) w)) =
        sendEvents (snd (update_sent_events sem f (set_opened (clock w)) w))).
  { intros bytes. unfold record_open, parse_buffer, destructure.
    destruct (JSON_parse (utf8_decode bytes)) as [v|]; [|now left].
    unfold bind, try_catch, ret, throw, date_now, console_error.
    destruct v; try (now left);
      match goal with
      | |- context [update_sent_events sem ?f ?u w] =>
          right; exists f; destruct (update_sent_events sem f u w) as [[n|e|] w1];
          reflexivity
      end. }
  unfold pixel_handler, pixel_try.
  destruct id as [|[|c s]|[bytes|]]; try (now left); apply H.
Qed.

Lemma redirect_handler_table sem id url referer w :
  sendEvents (snd (redirect_handler sem id url referer w)) = sendEvents w \/
  exists f,
    sendEvents (snd (redirect_handler sem id url referer w)) =
      sendEvents (snd (update_sent_events sem f (set_clicked (clock w)) w)).
Proof.
  unfold redirect_handler, redirect_try, parse_buffer, destructure.
  destruct (JSON_parse (utf8_decode (base64_decode id))) as [v|].
  - unfold bind, try_catch, ret, throw, date_now, console_error.
    destruct v;
      try (left; destruct url as [[|c u]|]; reflexivity);
      match goal with
      | |- context [update_sent_events sem ?f ?u w] =>
          right; exists f; destruct (update_sent_events sem f u w) as [[n|e|] w1]
      end;
      cbn [snd sendEvents with_errlog f_originalUrl property];
      repeat match goal with
             | |- context [match ?x with _ => _ end] =>
                 match type of x with
                 | bool => destruct x
                 | option _ => destruct x
                 | list _ => destruct x
                 end
             end; reflexivity.
  - left. unfold bind, try_catch, throw, console_error.
    destruct url as [[|c u]|]; reflexivity.
Qed.

(** X15.  The two tracking endpoints can only stamp SENT events: whatever
    the token, the store and the reading of the where clause, after
    GET /o.png every send event is as before or, if its type is SENT, has
    openedAt set to the time of the request and nothing else changed; the
    same holds for GET /r/:id with clickedAt.  No row is added or removed,
    and an event that has left the SENT state is never touched again. *)
Theorem X15_tracking_only_stamps_sent_events
    (sem : FilterSemantics) (qid : QueryValue) (id : list Z)
    (url referer : option (list Z)) (w : World) (k : Z) :
  match sendEvents w !! k with
  | None =>
      sendEvents (snd (pixel_handler sem qid w)) !! k = None /\
      sendEvents (snd (redirect_handler sem id url referer w)) !! k = None
  | Some ev =>
      (sendEvents (snd (pixel_handler sem qid w)) !! k = Some ev \/
       (eventType ev = SENT /\
        sendEvents (snd (pixel_handler sem qid w)) !! k =
          Some (set_opened (clock w) ev))) /\
      (sendEvents (snd (redirect_handler sem id url referer w)) !! k = Some ev \/
       (eventType ev = SENT /\
        sendEvents (snd (redirect_handler sem id url referer w)) !! k =
          Some (set_clicked (clock w) ev)))
  end.
Proof.
  destruct (pixel_handler_table sem qid w) as [Hp|[fp Hp]];
    destruct (redirect_handler_table sem id url referer w) as [Hr|[fr Hr]];
    rewrite Hp, Hr;
    try pose proof (update_sent_events_rows sem fp (set_opened (clock w)) w k) as Up;
    try pose proof (update_sent_events_rows sem fr (set_clicked (clock w)) w k) as Ur;
    destruct (sendEvents w !! k) as [ev|]; repeat split; auto.
Qed.

(** The update that a handler makes for the token of a tracking object,
    with the documented reading of the where clause and the store up. *)
Lemma update_for_tracking_object t upd w :
  store_up 1 w ->
  exists n,
    update_sent_events prisma_filter
      {| f_leadId := Some (JNum (inject_Z (td_leadId t)));
         f_campaignLeadId := Some (JNum (inject_Z (td_campaignLeadId t)));
         f_campaignStepId := Some (JNum (inject_Z (td_campaignStepId t)));
         f_originalUrl := JStr <$> td_originalUrl t |} upd w =
    (Done n,
     with_sendEvents
       ((fun ev => if Server.tracked_by t ev then upd ev else ev) <$> sendEvents w)
       (with_outages (drop 1 (outages w)) w)).
Proof.
  intros Hup. unfold update_sent_events, prisma_filter, store_up in *.
  cbn [f_leadId f_campaignLeadId f_campaignStepId inject_Z Qden Qnum Pos.eqb].
  unfold sendEvent_updateMany, store_call.
  destruct (outages w) as [|[e|] rest] eqn:Eo.
  - eexists. cbn [drop]. rewrite <- Eo. destruct w; reflexivity.
  - exfalso. cbn in Hup. inversion Hup; subst; discriminate.
  - eexists. reflexivity.
Qed.

(** X16.  From the token to the table: GET /o.png with the token of a
    tracking object, the store up, serves the pixel and sets openedAt to the
    time of the request on exactly the SENT events of that lead, campaign
    lead and campaign step; every other row is as before and nothing is
    logged. *)
Theorem X16_pixel_records_the_open_of_a_token (t : TrackingData) (w : World) :
  valid_payload t ->
  store_up 1 w ->
  fst (pixel_handler prisma_filter (QString (encode_token t)) w) =
    Done pixel_response /\
  sendEvents (snd (pixel_handler prisma_filter (QString (encode_token t)) w)) =
    (fun ev => if Server.tracked_by t ev then set_opened (clock w) ev else ev)
      <$> sendEvents w /\
  errlog (snd (pixel_handler prisma_filter (QString (encode_token t)) w)) =
    errlog w.
Proof.
  intros Hv Hup.
  pose proof (decode_encode_token t Hv) as Hdec. unfold decode_token in Hdec.
  pose proof (encode_token_nonempty t) as Hne.
  destruct (update_for_tracking_object t (set_opened (clock w)) w Hup) as [n Hupd].
  assert (E : pixel_handler prisma_filter (QString (encode_token t)) w =
    (Done pixel_response,
     with_sendEvents
       ((fun ev => if Server.tracked_by t ev then set_opened (clock w) ev else ev)
          <$> sendEvents w)
       (with_outages (drop 1 (outages w)) w))).
  { unfold pixel_handler, pixel_try.
    destruct (encode_token t) as [|c s] eqn:E; [contradiction|].
    unfold record_open, parse_buffer. rewrite Hdec.
    unfold bind at 1, try_catch. unfold bind at 1. unfold ret at 1.
    unfold bind at 1. rewrite destructure_object_of.
    unfold bind at 1, date_now. unfold bind at 1. rewrite Hupd.
    reflexivity. }
  rewrite E. repeat split.
Qed.

(** X16 for the token of the event of message m1. *)
Lemma X16_pixel_witness :
  (openedAt <$>
     sendEvents (snd (pixel_handler prisma_filter
                        (QString (encode_token payload_m1)) world_m1)) !! 1)
    = Some (Some 100).
Proof.
  destruct (X16_pixel_records_the_open_of_a_token payload_m1 world_m1)
    as (_ & Hev & _).
  - unfold valid_payload. cbn. repeat split; try lia.
    repeat constructor; unfold is_unit; lia.
  - constructor.
  - rewrite Hev. vm_compute. reflexivity.
Defined.

(** X17.  From the token to the redirect: GET /r/:id without a url
    parameter, with the token of a tracking object and the store up, sets
    clickedAt to the time of the request on exactly the SENT events of that
    lead, campaign lead and campaign step and changes no other column and no
    other row; nothing is logged.  The answer is a redirect to the
    originalUrl of the token (for the word back, to the Referer header of
    the request, or to / when the request has none); when the token has no
    originalUrl, or an empty one, the click is recorded all the same and
    the answer is 400. *)
Theorem X17_redirect_records_the_click_of_a_token
    (t : TrackingData) (referer : option (list Z)) (w : World) :
  valid_payload t ->
  store_up 1 w ->
  fst (redirect_handler prisma_filter (encode_token t) None referer w) =
    Done match td_originalUrl t with
         | Some (c :: u) =>
             Redirect (JStr (if decide (c :: u = lit "back")
                             then match referer with
                                  | Some (r0 :: r) => r0 :: r
                                  | _ => lit "/"
                                  end
                             else c :: u))
         | _ => SendText 400 "Invalid redirect URL"
         end /\
  (forall k,
     sendEvents
       (snd (redirect_handler prisma_filter (encode_token t) None referer w))
       !! k =
     match sendEvents w !! k with
     | Some ev =>
         Some (if Server.tracked_by t ev
               then {| ev_id := ev_id ev; eventType := eventType ev;
                       leadId := leadId ev;
                       campaignLeadId := campaignLeadId ev;
                       campaignStepId := campaignStepId ev;
                       sentAt := sentAt ev; deliveredAt := deliveredAt ev;
                       openedAt := openedAt ev; clickedAt := Some (clock w);
                       bouncedAt := bouncedAt ev;
                       errorMessage := errorMessage ev;
                       metadata := metadata ev |}
               else ev)
     | None => None
     end) /\
  errlog (snd (redirect_handler prisma_filter (encode_token t) None referer w)) =
    errlog w.
Proof.
  intros Hv Hup.
  pose proof (decode_encode_token t Hv) as Hdec. unfold decode_token in Hdec.
  destruct (update_for_tracking_object t (set_clicked (clock w)) w Hup) as [n Hupd].
  assert (E : redirect_handler prisma_filter (encode_token t) None referer w =
    (Done match td_originalUrl t with
          | Some (c :: u) => res_redirect referer (JStr (c :: u))
          | _ => SendText 400 "Invalid redirect URL"
          end,
     with_sendEvents
       ((fun ev => if Server.tracked_by t ev then set_clicked (clock w) ev else ev)
          <$> sendEvents w)
       (with_outages (drop 1 (outages w)) w))).
  { unfold redirect_handler, redirect_try, parse_buffer. rewrite Hdec.
    unfold try_catch. unfold bind at 1. unfold ret at 1.
    unfold bind at 1. rewrite destructure_object_of.
    unfold bind at 1, date_now. unfold bind at 1. rewrite Hupd.
    cbn [f_originalUrl]. destruct (td_originalUrl t) as [[|c u]|]; reflexivity. }
  rewrite E. cbn [fst snd]. split; [|split; [|reflexivity]].
  - destruct (td_originalUrl t) as [[|c u]|]; try reflexivity.
    now rewrite res_redirect_string.
  - intros k. cbn [sendEvents with_sendEvents with_outages].
    rewrite lookup_fmap. destruct (sendEvents w !! k) as [ev|]; reflexivity.
Qed.

(** X17 for the token of the event of message m1, which carries the pricing
    page as destination: the event is stamped at the time of the request,
    100, and the answer is a redirect to that page. *)
Lemma X17_redirect_witness :
  fst (redirect_handler prisma_filter (encode_token payload_m1) None None
         world_m1) =
    Done (Redirect (JStr (lit "https://example.com/pricing"))) /\
  (clickedAt <$>
     sendEvents (snd (redirect_handler prisma_filter (encode_token payload_m1)
                        None None world_m1)) !! 1) = Some (Some 100).
Proof.
  destruct (X17_redirect_records_the_click_of_a_token payload_m1 None world_m1)
    as (Hr & Hev & _).
  - unfold valid_payload. cbn. repeat split; try lia.
    repeat constructor; unfold is_unit; lia.
  - constructor.
  - split; [rewrite Hr; vm_compute; reflexivity|].
    rewrite (Hev 1). vm_compute. reflexivity.
Defined.

(** X21.  A token whose decoding throws (its bytes are not the text of a
    JSON value, or the value is null) is handled and records nothing: the
    only change in the world is one line in the error log (no store call is
    made, no row changes); GET /o.png still serves the pixel, and GET /r/:id
    redirects by the url parameter when it is a non-empty string (the word
    back standing for the Referer header, or /) and answers 400
    otherwise. *)
Theorem X21_decode_failure_records_nothing
    (sem : FilterSemantics) (id : list Z) (url referer : option (list Z))
    (w : World) :
  token_decode_fails id ->
  exists e,
    pixel_handler sem (QString id) w =
      (Done pixel_response,
       match id with
       | [] => w
       | _ => with_errlog (errlog w ++ [("Open tracking error:"%string, e)]) w
       end) /\
    redirect_handler sem id url referer w =
      (Done match url with
            | Some (c :: u) =>
                Redirect (JStr (if decide (c :: u = lit "back")
                                then match referer with
                                     | Some (r0 :: r) => r0 :: r
                                     | _ => lit "/"
                                     end
                                else c :: u))
            | _ => SendText 400 "Invalid redirect"
            end,
       with_errlog (errlog w ++ [("Redirect tracking error:"%string, e)]) w).
Proof.
  unfold token_decode_fails, decode_token.
  intros [H|H];
    [exists syntax_error
    |exists (type_error "Cannot destructure property 'leadId' of null")];
    (split;
     [ unfold pixel_handler, pixel_try; destruct id as [|c id'];
       [reflexivity|];
       unfold record_open, bind, try_catch, parse_buffer; rewrite H;
       reflexivity
     | destruct url as [[|c u]|]; rewrite <- ?res_redirect_string;
       unfold redirect_handler, redirect_try, bind, try_catch, parse_buffer;
       rewrite H; reflexivity ]).
Qed.

(** X21 on the token of null and on a string that is no token: nothing is
    recorded, and the redirect still goes to the url parameter. *)
Lemma X21_decode_failure_witness :
  token_decode_fails token_null /\
  token_decode_fails token_garbage /\
  sendEvents (snd (pixel_handler prisma_filter (QString token_garbage) world_m1))
    = sendEvents world_m1 /\
  fst (redirect_handler prisma_filter token_null
         (Some (lit "https://example.com")) None world_m1)
    = Done (Redirect (JStr (lit "https://example.com"))).
Proof.
  assert (H1 : token_decode_fails token_null) by (right; vm_compute; reflexivity).
  assert (H2 : token_decode_fails token_garbage) by (left; vm_compute; reflexivity).
  split; [exact H1|]. split; [exact H2|].
  destruct (X21_decode_failure_records_nothing prisma_filter token_garbage None
              None world_m1 H2) as (e1 & Hpixel & _).
  destruct (X21_decode_failure_records_nothing prisma_filter token_null
              (Some (lit "https://example.com")) None world_m1 H1)
    as (e2 & _ & Hredirect).
  split.
  - rewrite Hpixel. reflexivity.
  - rewrite Hredirect. vm_compute. reflexivity.
Defined.

End TrackingRuns.

(** ** parseInt, the unsubscribe id and the generated URLs *)

Section ServerRuns.
Import Text Base64 Utf8 Json Runtime Worker Http Server Samples MoreSamples.

Ltac Zify.zify_post_hook ::= Z.div_mod_to_equations.

Ltac settle :=
  repeat (match goal with
          | |- context [?a <? ?b] =>
              first [ rewrite (proj2 (Z.ltb_lt a b)) by lia
                    | rewrite (proj2 (Z.ltb_ge a b)) by lia ]
          | |- context [?a <=? ?b] =>
              first [ rewrite (proj2 (Z.leb_le a b)) by lia
                    | rewrite (proj2 (Z.leb_gt a b)) by lia ]
          | |- context [?a =? ?b] =>
              first [ rewrite (proj2 (Z.eqb_eq a b)) by lia
                    | rewrite (proj2 (Z.eqb_neq a b)) by lia ]
          end; cbn [andb orb negb]).

Lemma span_digits_only ds :
  Forall (fun d => 0 <= d <= 9) ds ->
  span_digits (map (fun d => 48 + d) ds) = (ds, []).
Proof.
  induction 1 as [|d ds Hd _ IH]; [reflexivity|].
  cbn [map span_digits]. unfold is_digit. settle.
  rewrite IH. f_equal. f_equal. lia.
Qed.

(** The shape of a decimal numeral: digits whose value is the number, the
    first of which is 0 only for the number 0. *)
Lemma decimal_shape n :
  0 <= n ->
  exists d ds,
    decimal n = map (fun x => 48 + x) (d :: ds) /\
    Forall (fun x => 0 <= x <= 9) (d :: ds) /\
    digits_value (d :: ds) = n /\
    (d = 0 -> ds = []).
Proof.
  intros Hn. unfold decimal.
  pose proof (fuel_covers n Hn) as Hfuel.
  pose proof (digits_le_range (S (Z.to_nat (Z.log2 n))) n Hn) as Hrange.
  pose proof (digits_le_value _ n (conj Hn Hfuel)) as Hval.
  apply List.Forall_rev in Hrange.
  destruct (Z.eq_dec n 0) as [->|Hpos].
  - exists 0, []. repeat split. repeat constructor; lia.
  - assert (Hn1 : 0 < n) by lia.
    destruct (digits_le_leading _ n (conj Hn1 Hfuel)) as (d & ds & E & Hd).
    rewrite E in *. exists d, ds. repeat split; try assumption. lia.
Qed.

(** parseInt on a run of decimal digits with no leading zero, bare and
    after a minus sign. *)
Lemma parseInt_digits d ds :
  0 <= d <= 9 -> Forall (fun x => 0 <= x <= 9) ds -> (d = 0 -> ds = []) ->
  parseInt (map (fun x => 48 + x) (d :: ds)) = Some (digits_value (d :: ds)) /\
  parseInt (45 :: map (fun x => 48 + x) (d :: ds))
    = Some (- digits_value (d :: ds)).
Proof.
  intros Hd Hds Hz.
  assert (Hsp : is_js_space (48 + d) = false) by (unfold is_js_space; now settle).
  assert (Hhex : hex_prefix (map (fun x => 48 + x) (d :: ds)) = None).
  { unfold hex_prefix. destruct ds as [|d1 ds']; [reflexivity|].
    cbn [map]. destruct (Z.eq_dec d 0) as [->|]; [now specialize (Hz eq_refl)|].
    now settle. }
  assert (Hspan : span_digits (map (fun x => 48 + x) (d :: ds)) = (d :: ds, []))
    by (apply span_digits_only; now constructor).
  assert (Hsign : optional_sign (map (fun x => 48 + x) (d :: ds))
                  = (false, map (fun x => 48 + x) (d :: ds)))
    by (cbn [map]; unfold optional_sign; now settle).
  split.
  - unfold parseInt.
    replace (trim_start (map (fun x => 48 + x) (d :: ds)))
      with (map (fun x => 48 + x) (d :: ds))
      by (cbn [map trim_start]; now rewrite Hsp).
    rewrite Hsign, Hhex, Hspan. reflexivity.
  - unfold parseInt.
    replace (trim_start (45 :: map (fun x => 48 + x) (d :: ds)))
      with (45 :: map (fun x => 48 + x) (d :: ds)) by reflexivity.
    replace (optional_sign (45 :: map (fun x => 48 + x) (d :: ds)))
      with (true, map (fun x => 48 + x) (d :: ds)) by reflexivity.
    rewrite Hhex, Hspan. reflexivity.
Qed.

(** parseInt reads a decimal numeral back as the number. *)
Lemma parseInt_number_to_string n : parseInt (number_to_string n) = Some n.
Proof.
  unfold number_to_string. destruct (Z.ltb_spec n 0).
  - destruct (decimal_shape (- n) ltac:(lia)) as (d & ds & E & Hr & Hv & Hz).
    pose proof (List.Forall_inv Hr) as Hd. cbv beta in Hd.
    pose proof (List.Forall_inv_tail Hr) as Hds.
    rewrite E, (proj2 (parseInt_digits d ds Hd Hds Hz)), Hv. f_equal. lia.
  - destruct (decimal_shape n ltac:(lia)) as (d & ds & E & Hr & Hv & Hz).
    pose proof (List.Forall_inv Hr) as Hd. cbv beta in Hd.
    pose proof (List.Forall_inv_tail Hr) as Hds.
    rewrite E, (proj1 (parseInt_digits d ds Hd Hds Hz)), Hv. reflexivity.
Qed.

(** The text of the object of an unsubscribe token is read back as an
    object with the one member leadId. *)
Lemma JSON_parse_leadId_object n :
  Z.abs n <= 9007199254740991 ->
  JSON_parse ([123] ++ quote (lit "leadId") ++ [58] ++ number_to_string n ++ [125])
    = Some (JObj [(lit "leadId", JNum (inject_Z n))]).
Proof.
  intros Hn. unfold JSON_parse.
  set (text := [123] ++ _).
  assert (Hlen : (2 <= length text)%nat).
  { unfold text, quote. cbn [app length]. rewrite !length_app. cbn [length]. lia. }
  destruct (Nat.le_exists_sub _ _ Hlen) as (k & Hk & _).
  replace (S (length text)) with (S (S (S k))) by lia.
  unfold text. cbn [app parse_value skip_ws is_ws Z.eqb Pos.eqb orb].
  unfold quote at 1. cbn [app skip_ws is_ws Z.eqb Pos.eqb orb].
  change (34 :: (quote_body (lit "leadId") ++ [34]) ++ ?X)
    with (quote (lit "leadId") ++ X).
  erewrite parse_members_close;
    [|apply lit_units|apply parse_value_number; [assumption|now right]].
  reflexivity.
Qed.

Lemma decode_unsubscribe_token n :
  Z.abs n <= 9007199254740991 ->
  decode_token (unsubscribe_token (Some n))
    = Some (JObj [(lit "leadId", JNum (inject_Z n))]).
Proof.
  intros Hn. unfold decode_token, unsubscribe_token, number_or_null.
  assert (Hwf : well_formed ([123] ++ quote (lit "leadId") ++ [58]
                             ++ number_to_string n ++ [125]) = true).
  { apply (well_formed_app [123]); [reflexivity|].
    apply well_formed_member. reflexivity. }
  rewrite base64_roundtrip by now apply utf8_encode_bytes.
  rewrite utf8_roundtrip by assumption.
  now apply JSON_parse_leadId_object.
Qed.

(** The six-bit values of a decimal numeral are those of its characters, all
    of them 52 or more. *)
Lemma sextets_numeral s :
  Forall (fun c => c = 45 \/ 48 <= c <= 57) s ->
  Forall (fun v => 52 <= v <= 62) (sextets s) /\
  length (sextets s) = length s.
Proof.
  induction 1 as [|c r Hc _ [IH1 IH2]]; [split; [constructor|reflexivity]|].
  cbn [sextets]. rewrite (Z.mod_small c 256) by lia. unfold unbase64.
  destruct Hc as [->|Hc].
  - cbn. split; [constructor; [lia|assumption]|now f_equal].
  - settle. cbn [length]. split; [constructor; [lia|assumption]|now f_equal].
Qed.

Lemma regroup_short vs : (length vs <= 1)%nat -> regroup vs = [].
Proof. destruct vs as [|a [|b r]]; cbn [length]; [reflexivity..|lia]. Qed.

Lemma regroup_head vs :
  Forall (fun v => 52 <= v <= 62) vs -> (2 <= length vs)%nat ->
  exists b0 r, regroup vs = b0 :: r /\ 128 <= b0.
Proof.
  intros Hvs Hlen. destruct vs as [|a [|b r]]; cbn [length] in Hlen; try lia.
  pose proof (List.Forall_inv Hvs) as Ha.
  pose proof (List.Forall_inv (List.Forall_inv_tail Hvs)) as Hb.
  cbv beta in Ha, Hb.
  destruct r as [|c [|d r]]; cbn [regroup]; eexists _, _;
    (split; [reflexivity|lia]).
Qed.

(** A byte that is not ASCII starts a character that is not ASCII, whatever
    follows it. *)
Lemma utf8_decode_head b0 r :
  128 <= b0 -> exists c tl, utf8_decode (b0 :: r) = c :: tl /\ 128 <= c.
Proof.
  intros Hb.
  assert (Hrep : forall l, exists c tl, 0xFFFD :: l = c :: tl /\ 128 <= c)
    by (intros l; exists 0xFFFD, l; split; [reflexivity|lia]).
  assert (Hcont : forall b, continuation b = true -> 128 <= b <= 191).
  { intros b H. unfold continuation in H.
    apply andb_prop in H as [H1%Z.leb_le H2%Z.leb_le]. lia. }
  cbn [utf8_decode]. rewrite (proj2 (Z.ltb_ge b0 128)) by lia.
  destruct ((194 <=? b0) && (b0 <=? 223)) eqn:E2.
  { apply andb_prop in E2 as [L2%Z.leb_le U2%Z.leb_le].
    destruct r as [|b1 r1]; [apply Hrep|].
    destruct (continuation b1) eqn:Ec; [|apply Hrep].
    apply Hcont in Ec. eexists _, _. split; [reflexivity|lia]. }
  destruct ((224 <=? b0) && (b0 <=? 239)) eqn:E3.
  { apply andb_prop in E3 as [L3%Z.leb_le U3%Z.leb_le].
    destruct r as [|b1 r1]; [apply Hrep|].
    destruct (second_of_three b0 b1) eqn:Es; [|apply Hrep].
    destruct r1 as [|b2 r2]; [apply Hrep|].
    destruct (continuation b2) eqn:Ec; [|apply Hrep].
    apply Hcont in Ec. eexists _, _. split; [reflexivity|].
    unfold second_of_three in Es.
    destruct (Z.eqb_spec b0 224).
    - apply andb_prop in Es as [?%Z.leb_le ?%Z.leb_le]. lia.
    - destruct (Z.eqb_spec b0 237).
      + apply andb_prop in Es as [?%Z.leb_le ?%Z.leb_le]. lia.
      + apply Hcont in Es. lia. }
  destruct ((240 <=? b0) && (b0 <=? 244)) eqn:E4; [|apply Hrep].
  apply andb_prop in E4 as [L4%Z.leb_le U4%Z.leb_le].
  destruct r as [|b1 r1]; [apply Hrep|].
  destruct (second_of_four b0 b1) eqn:Es; [|apply Hrep].
  destruct r1 as [|b2 r2]; [apply Hrep|].
  destruct (continuation b2) eqn:Ec2; [|apply Hrep].
  destruct r2 as [|b3 r3]; [apply Hrep|].
  destruct (continuation b3) eqn:Ec3; [|apply Hrep].
  apply Hcont in Ec2, Ec3.
  assert (Hcp : 65536 <= (b0 - 240) * 262144 + (b1 - 128) * 4096
                         + (b2 - 128) * 64 + (b3 - 128)).
  { unfold second_of_four in Es.
    destruct (Z.eqb_spec b0 240).
    - apply andb_prop in Es as [?%Z.leb_le ?%Z.leb_le]. lia.
    - destruct (Z.eqb_spec b0 244).
      + apply andb_prop in Es as [?%Z.leb_le ?%Z.leb_le]. lia.
      + apply Hcont in Es. lia. }
  unfold code_units. rewrite (proj2 (Z.ltb_ge _ 65536)) by exact Hcp.
  cbn [app]. eexists _, _. split; [reflexivity|]. revert Hcp.
  generalize ((b0 - 240) * 262144 + (b1 - 128) * 4096
              + (b2 - 128) * 64 + (b3 - 128)). intros cp Hcp. lia.
Qed.

(** JSON.parse throws on a text that starts with a character that is not
    ASCII, and on the empty text. *)
Lemma JSON_parse_nonascii c tl : 128 <= c -> JSON_parse (c :: tl) = None.
Proof.
  intros Hc. unfold JSON_parse. cbn [parse_value skip_ws].
  unfold is_ws. settle.
  unfold parse_number, optional_minus. settle.
  unfold parse_int, is_digit. now settle.
Qed.

Lemma number_to_string_chars n :
  Forall (fun c => c = 45 \/ 48 <= c <= 57) (number_to_string n) /\
  number_to_string n <> [].
Proof.
  assert (H : forall m, 0 <= m ->
            Forall (fun c => c = 45 \/ 48 <= c <= 57) (decimal m) /\
            decimal m <> []).
  { intros m Hm. destruct (decimal_shape m Hm) as (d & ds & E & Hr & _).
    rewrite E. split; [|discriminate].
    apply List.Forall_map. revert Hr. apply List.Forall_impl. intros; lia. }
  unfold number_to_string. destruct (Z.ltb_spec n 0).
  - destruct (H (- n) ltac:(lia)). split; [|discriminate].
    constructor; [now left|assumption].
  - apply H. lia.
Qed.

(** A decimal numeral is not a token: its base64 reading is empty or starts
    with a byte that is not ASCII, which is no JSON text. *)
Lemma decode_token_numeral n : decode_token (number_to_string n) = None.
Proof.
  destruct (number_to_string_chars n) as [Hch _].
  destruct (sextets_numeral _ Hch) as [Hv Hl].
  unfold decode_token, base64_decode.
  destruct (le_lt_dec (length (sextets (number_to_string n))) 1) as [Hs|Hs].
  - now rewrite regroup_short.
  - destruct (regroup_head _ Hv ltac:(lia)) as (b0 & r & -> & Hb).
    destruct (utf8_decode_head b0 r Hb) as (c & tl & -> & Hc).
    now apply JSON_parse_nonascii.
Qed.

Lemma unsubscribe_lead_id_token n :
  Z.abs n <= 9007199254740991 ->
  unsubscribe_lead_id (unsubscribe_token (Some n))
    = FromToken (Some (JNum (inject_Z n))).
Proof.
  intros Hn. unfold unsubscribe_lead_id. now rewrite decode_unsubscribe_token.
Qed.

Lemma nonempty_numeral n :
  nonempty (Some (number_to_string n)) = Some (number_to_string n).
Proof.
  destruct (number_to_string_chars n) as [_ Hne].
  now destruct (number_to_string n).
Qed.

(** X18.  GET /unsubscribe/:leadId with the last segment of an unsubscribe
    URL, the base64 text of the object with the one member leadId, works with
    the lead id that was encoded: the decoding succeeds, so the parameter is
    not passed to parseInt. *)
Theorem X18_unsubscribe_token_resolves_to_its_lead (n : Z) :
  Z.abs n <= 9007199254740991 ->
  decode_token (unsubscribe_token (Some n))
    = Some (JObj [(lit "leadId", JNum (inject_Z n))]) /\
  unsubscribe_lead_id (unsubscribe_token (Some n))
    = FromToken (Some (JNum (inject_Z n))).
Proof.
  intros Hn. split;
    [now apply decode_unsubscribe_token|now apply unsubscribe_lead_id_token].
Qed.

(** X18 for lead 7. *)
Lemma X18_unsubscribe_token_witness :
  unsubscribe_lead_id (unsubscribe_token (Some 7))
    = FromToken (Some (JNum (inject_Z 7))).
Proof.
  refine (proj2 (X18_unsubscribe_token_resolves_to_its_lead 7 _)). cbn. lia.
Defined.

(** X19.  GET /unsubscribe/:leadId with a plain decimal number works with
    that number: a numeral is never a token (its base64 reading is empty or
    starts with a byte of 128 or more, so JSON.parse throws), and the inner
    catch passes it to parseInt, which reads it back. *)
Theorem X19_unsubscribe_with_a_plain_number (n : Z) :
  Z.abs n <= 9007199254740991 ->
  decode_token (number_to_string n) = None /\
  unsubscribe_lead_id (number_to_string n) = FromParseInt (Some n).
Proof.
  intros _. pose proof (decode_token_numeral n) as Hd. split; [exact Hd|].
  unfold unsubscribe_lead_id. now rewrite Hd, parseInt_number_to_string.
Qed.

(** X19 for the parameter 1234. *)
Lemma X19_unsubscribe_plain_witness :
  unsubscribe_lead_id (lit "1234") = FromParseInt (Some 1234).
Proof.
  refine (proj2 (X19_unsubscribe_with_a_plain_number 1234 _)). cbn. lia.
Defined.

(** X20.  /api/generate-tracking-urls, asked with three ids that are decimal
    numerals, answers with a pixel URL and an unsubscribe URL on one base:
    TRACKING_DOMAIN itself when it starts with http, and otherwise the
    protocol (the x-forwarded-proto header, or https or http by the
    connection), ://, and TRACKING_DOMAIN.  The id of the pixel URL is the
    token of the three numbers and of the originalUrl parameter when it is
    not empty, and it decodes to that object; the last segment of the
    unsubscribe URL resolves to the lead id. *)
Theorem X20_generated_urls_carry_working_tokens
    (TRACKING_DOMAIN : list Z) (req : GenerateRequest) (l c s : Z) :
  let t := {| td_leadId := l; td_campaignLeadId := c; td_campaignStepId := s;
              td_originalUrl := nonempty (q_originalUrl req) |} in
  let protocol := match nonempty (forwarded_proto req) with
                  | Some p => p
                  | None => if encrypted req then lit "https" else lit "http"
                  end in
  let base := if startsWith TRACKING_DOMAIN (lit "http") then TRACKING_DOMAIN
              else protocol ++ lit "://" ++ TRACKING_DOMAIN in
  q_leadId req = Some (number_to_string l) ->
  q_campaignLeadId req = Some (number_to_string c) ->
  q_campaignStepId req = Some (number_to_string s) ->
  valid_payload t ->
  generate_tracking_urls TRACKING_DOMAIN req =
    TrackingUrls (base ++ lit "/o.png?id=" ++ encode_token t)
                 (base ++ lit "/unsubscribe/" ++ unsubscribe_token (Some l)) /\
  decode_token (encode_token t) = Some (object_of t) /\
  unsubscribe_lead_id (unsubscribe_token (Some l))
    = FromToken (Some (JNum (inject_Z l))).
Proof.
  intros t protocol base Hl Hc Hs Hv.
  split; [|split; [now apply decode_encode_token
                  |apply unsubscribe_lead_id_token, Hv]].
  unfold generate_tracking_urls.
  rewrite Hl, Hc, Hs, !nonempty_numeral, !parseInt_number_to_string.
  reflexivity.
Qed.

(** X20 for the request for lead 7, campaign lead 3 and step 1 behind a TLS
    proxy, with the default TRACKING_DOMAIN. *)
Lemma X20_generated_urls_witness :
  exists id,
    generate_tracking_urls (lit "localhost:3000") request_m1 =
      TrackingUrls (lit "https://localhost:3000/o.png?id=" ++ id)
                   (lit "https://localhost:3000/unsubscribe/"
                    ++ unsubscribe_token (Some 7)) /\
    decode_token id = Some (object_of payload_m1).
Proof.
  exists (encode_token payload_m1).
  destruct (X20_generated_urls_carry_working_tokens
              (lit "localhost:3000") request_m1 7 3 1) as (Hg & Hd & _).
  - reflexivity.
  - reflexivity.
  - reflexivity.
  - unfold valid_payload. cbn. repeat split; try lia.
    repeat constructor; unfold is_unit; lia.
  - split; [exact Hg|exact Hd].
Defined.

End ServerRuns.
